(** * fast-skiplist: a shallow embedding of skiplist.go and type.go

    The list is a pointer structure: a sentinel [elementNode] owned by the
    [SkipList], and heap-allocated [Element]s linked by per-level forward
    pointers.  The embedding keeps that shape: a heap of elements addressed
    by [addr], forward arrays as lists of optional addresses, and the
    operations written in a small state-and-panic monad so that every array
    index, nil dereference and store of the Go code is explicit. *)

From Stdlib Require Import ZArith Lia List.
From Stdlib Require PrimFloat Uint63.
From Stdlib Require Import Strings.Byte.
From stdpp Require Import base list sorting sets.

Local Open Scope Z_scope.

(** ** Keys: [[]byte] ordered by [bytes.Compare] *)

Definition bytes := list byte.

(** [bytes.Compare a b]: -1, 0 or 1; unsigned lexicographic, a proper prefix
    is smaller. *)
Fixpoint Compare (a b : bytes) : Z :=
  match a, b with
  | [], [] => 0
  | [], _ :: _ => -1
  | _ :: _, [] => 1
  | x :: a', y :: b' =>
      match N.compare (Byte.to_N x) (Byte.to_N y) with
      | Lt => -1
      | Gt => 1
      | Eq => Compare a' b'
      end
  end.

(** ** Machine integers and floats *)

(** Go's [int] is 64 bits wide on the supported platforms; [Length++] and
    [Length--] wrap around. *)
Definition wrap64 (z : Z) : Z := (z + 2 ^ 63) mod 2 ^ 64 - 2 ^ 63.

Definition float64 := PrimFloat.float.

(** [float64(i)] for a non-negative [int] below 2^63. *)
Definition float64_of_int (i : Z) : float64 := PrimFloat.of_uint63 (Uint63.of_Z i).

Definition DefaultMaxLevel : Z := 18.

Module Import Constants.
Import PrimFloat.

(** The constant [1 << 63] as a float64. *)
Definition two63 : float64 := 0x1p+63%float.

(** [1 / math.E] rounded to float64. *)
Definition DefaultProbability : float64 := 0x1.78b56362cef38p-2%float.

End Constants.

(** ** The random source

    [rand.Source] is an interface with a method [Int63] returning a
    non-negative 63-bit integer and advancing the generator.  A source is
    modelled by the sequence of numbers it is going to produce. *)

Record Source := mkSource { stream : nat -> Z; cursor : nat }.

Definition Int63 (src : Source) : Z * Source :=
  (Z.land (stream src (cursor src)) (2 ^ 63 - 1),
   mkSource (stream src) (S (cursor src))).

(** ** Data model (type.go) *)

Abbreviation addr := nat (only parsing).

(** A [*elementNode] points either at the sentinel embedded in the list or
    at the node embedded in an element. *)
Inductive nodeRef := Sentinel | ElemNode (a : addr).

#[global] Instance nodeRef_eq_dec : EqDecision nodeRef.
Proof. solve_decision. Defined.

(** The [list *SkipList] back pointer of a node: nil, or the one list. *)
Inductive listRef := ThisList.

Record elementNode := mkNode {
  list_ : option listRef;
  next : list (option addr)
}.

(** How a call ends. *)
Inductive outcome (A : Type) :=
| Done (a : A)      (* the call returns *)
| Panic             (* run-time panic: index out of range, nil dereference *)
| Diverges.         (* the call never returns: a walk caught in a cycle, or
                       a lock that is never released *)
Arguments Done {A} a.
Arguments Panic {A}.
Arguments Diverges {A}.

Section SkipList.

(** The payload type behind [interface{}]. *)
Variable V : Type.

(** [math.Pow], which the Go standard library implements. *)
Variable Pow : float64 -> float64 -> float64.

Record Element := mkElement {
  node : elementNode;            (* the embedded [elementNode] *)
  key : bytes;
  value : V
}.

Record SkipList := mkSkipList {
  sentinel : elementNode;        (* the embedded [elementNode], the head *)
  maxLevel : Z;
  Length : Z;
  randSource : Source;
  probability : float64;
  probTable : list float64;
  mutex : bool;
  prevNodesCache : list (option nodeRef)
}.

(** The store: the elements allocated so far (an address is an index; Go
    never frees an element that can still be referenced) and the list. *)
Record state := mkState {
  heap : list Element;
  sl : SkipList
}.

(** *** Field updates *)

Definition with_next (en : elementNode) (nx : list (option addr)) : elementNode :=
  mkNode (list_ en) nx.

Definition with_node (e : Element) (en : elementNode) : Element :=
  mkElement en (key e) (value e).

Definition with_value (e : Element) (v : V) : Element :=
  mkElement (node e) (key e) v.

Definition with_heap (s : state) (h : list Element) : state :=
  mkState h (sl s).

Definition with_sl (s : state) (l : SkipList) : state :=
  mkState (heap s) l.

Definition sl_with_sentinel (l : SkipList) (en : elementNode) : SkipList :=
  mkSkipList en (maxLevel l) (Length l) (randSource l) (probability l)
             (probTable l) (mutex l) (prevNodesCache l).

Definition sl_with_Length (l : SkipList) (n : Z) : SkipList :=
  mkSkipList (sentinel l) (maxLevel l) n (randSource l) (probability l)
             (probTable l) (mutex l) (prevNodesCache l).

Definition sl_with_randSource (l : SkipList) (src : Source) : SkipList :=
  mkSkipList (sentinel l) (maxLevel l) (Length l) src (probability l)
             (probTable l) (mutex l) (prevNodesCache l).

Definition sl_with_prob (l : SkipList) (p : float64) (t : list float64) : SkipList :=
  mkSkipList (sentinel l) (maxLevel l) (Length l) (randSource l) p
             t (mutex l) (prevNodesCache l).

Definition sl_with_mutex (l : SkipList) (b : bool) : SkipList :=
  mkSkipList (sentinel l) (maxLevel l) (Length l) (randSource l) (probability l)
             (probTable l) b (prevNodesCache l).

Definition sl_with_prevs (l : SkipList) (c : list (option nodeRef)) : SkipList :=
  mkSkipList (sentinel l) (maxLevel l) (Length l) (randSource l) (probability l)
             (probTable l) (mutex l) c.

(** ** The monad: state, panics and loops that do not end *)

Definition M (A : Type) := state -> outcome A * state.

Definition ret {A} (a : A) : M A := fun s => (Done a, s).

Definition bind {A B} (m : M A) (f : A -> M B) : M B :=
  fun s =>
    match m s with
    | (Done a, s') => f a s'
    | (Panic, s') => (Panic, s')
    | (Diverges, s') => (Diverges, s')
    end.

Definition panic {A} : M A := fun s => (Panic, s).
Definition diverge {A} : M A := fun s => (Diverges, s).
Definition gets {A} (f : state -> A) : M A := fun s => (Done (f s), s).
Definition modify (f : state -> state) : M unit := fun s => (Done tt, f s).

Notation "'let*' x := m 'in' k" := (bind m (fun x => k))
  (at level 10, x name, m at level 100, k at level 200).
Notation "m ;; k" := (bind m (fun _ => k))
  (at level 100, k at level 200, right associativity).

(** [for i := range xs] over the indices [0 .. n-1]. *)
Fixpoint for_each (l : list nat) (body : nat -> M unit) : M unit :=
  match l with
  | [] => ret tt
  | i :: l' => body i ;; for_each l' body
  end.

Definition for_range (n : nat) (body : nat -> M unit) : M unit :=
  for_each (seq 0 n) body.

(** *** Memory accesses *)

(** [xs[i]] on a slice, with Go's bounds check. *)
Definition index {A} (xs : list A) (i : nat) : M A :=
  match xs !! i with
  | Some x => ret x
  | None => panic
  end.

(** Dereference of an element pointer. *)
Definition load (a : addr) : M Element :=
  fun s => match heap s !! a with
           | Some e => (Done e, s)
           | None => (Panic, s)
           end.

(** The node a [*elementNode] points at; nil panics. *)
Definition load_node (n : nodeRef) : M elementNode :=
  match n with
  | Sentinel => gets (fun s => sentinel (sl s))
  | ElemNode a => let* e := load a in ret (node e)
  end.

Definition deref {A} (p : option A) : M A :=
  match p with
  | Some x => ret x
  | None => panic
  end.

(** [n.next[i]], the read behind [atomic.LoadPointer(&n.next[i])]. *)
Definition NextAt (n : nodeRef) (i : nat) : M (option addr) :=
  let* en := load_node n in index (next en) i.

Definition Next (n : nodeRef) : M (option addr) := NextAt n 0.

(** [n.next[i] = p], the write behind [atomic.StorePointer(&n.next[i], p)]. *)
Definition store_next (n : nodeRef) (i : nat) (p : option addr) : M unit :=
  let* en := load_node n in
  if decide (i < length (next en))%nat then
    match n with
    | Sentinel =>
        modify (fun s => with_sl s (sl_with_sentinel (sl s)
                                      (with_next en (<[i := p]> (next en)))))
    | ElemNode a =>
        modify (fun s => with_heap s
                  (alter (fun e => with_node e (with_next en (<[i := p]> (next en))))
                         a (heap s)))
    end
  else panic.

(** [element.value = v]. *)
Definition store_value (a : addr) (v : V) : M unit :=
  load a ;;
  modify (fun s => with_heap s (alter (fun e => with_value e v) a (heap s))).

(** [&Element{...}]: a fresh address. *)
Definition alloc (e : Element) : M addr :=
  fun s => (Done (length (heap s)), with_heap s (heap s ++ [e])).

(** [make([]unsafe.Pointer, n)]: n nil slots; a negative length panics. *)
Definition make_next (n : Z) : M (list (option addr)) :=
  if n <? 0 then panic else ret (replicate (Z.to_nat n) None).

(** [prevs[i] = prev], where [prevs] is the slice header copied from
    [list.prevNodesCache]: both share one backing array, so the store is a
    store into the list's scratch buffer. *)
Definition store_prev (i : nat) (prev : nodeRef) : M unit :=
  fun s =>
    let c := prevNodesCache (sl s) in
    if decide (i < length c)%nat
    then (Done tt, with_sl s (sl_with_prevs (sl s) (<[i := Some prev]> c)))
    else (Panic, s).

(** *** The mutex

    [list.mutex.Lock()] followed by [defer list.mutex.Unlock()]: the body
    runs with the lock held and the lock is released however the body ends.
    Taking a lock that is held blocks; in a sequential run it blocks for
    ever. *)
Definition set_mutex (held : bool) (s : state) : state :=
  with_sl s (sl_with_mutex (sl s) held).

Definition with_lock {A} (body : M A) : M A :=
  fun s =>
    if mutex (sl s) then (Diverges, s)
    else
      let (o, s') := body (set_mutex true s) in
      (o, set_mutex false s').

(** ** skiplist.go *)

(** [Front]: the first element of the bottom level. *)
Definition Front : M (option addr) := Next Sentinel.

(** [Element.Next] (type.go). *)
Definition Element_Next (a : addr) : M (option addr) := Next (ElemNode a).

(** The inner loop of the search,
    [for next != nil && bytes.Compare(key, next.key) > 0], at level [i].
    [fuel] bounds the number of steps. *)
Fixpoint advance (fuel : nat) (k : bytes) (i : nat) (prev : nodeRef)
         (nxt : option addr) : M (nodeRef * option addr) :=
  match nxt with
  | None => ret (prev, None)
  | Some a =>
      let* e := load a in
      if Compare k (key e) >? 0 then
        match fuel with
        | O => diverge
        | S fuel' =>
            let* nx := NextAt (ElemNode a) i in
            advance fuel' k i (ElemNode a) nx
        end
      else ret (prev, Some a)
  end.

(** The outer loop of [Get], [for i := list.maxLevel - 1; i >= 0; i--], with
    [lvl] levels still to visit. *)
Fixpoint Get_levels (fuel : nat) (k : bytes) (lvl : nat) (prev : nodeRef)
         (nxt : option addr) : M (nodeRef * option addr) :=
  match lvl with
  | O => ret (prev, nxt)
  | S i =>
      let* nx := NextAt prev i in
      let* pn := advance fuel k i prev nx in
      Get_levels fuel k i (fst pn) (snd pn)
  end.

(** The outer loop of [getPrevElementNodes]: as in [Get], and the
    predecessor of each level is stored in the scratch buffer. *)
Fixpoint prev_levels (fuel : nat) (k : bytes) (lvl : nat) (prev : nodeRef)
  : M unit :=
  match lvl with
  | O => ret tt
  | S i =>
      let* nx := NextAt prev i in
      let* pn := advance fuel k i prev nx in
      store_prev i (fst pn) ;;
      prev_levels fuel k i (fst pn)
  end.

(** A walk along one level visits every element at most once unless the
    chain has a cycle, in which case it never ends: the number of allocated
    elements bounds the steps of every walk that ends. *)
Definition walk_bound : M nat := gets (fun s => length (heap s)).

Definition levels : M nat := gets (fun s => Z.to_nat (maxLevel (sl s))).

Definition getPrevElementNodes (k : bytes) : M (list (option nodeRef)) :=
  let* fuel := walk_bound in
  let* lvl := levels in
  prev_levels fuel k lvl Sentinel ;;
  gets (fun s => prevNodesCache (sl s)).

(** [element != nil && bytes.Compare(element.key, key) <= 0]. *)
Definition matches (element : option addr) (k : bytes) : M bool :=
  match element with
  | None => ret false
  | Some a => let* e := load a in ret (Compare (key e) k <=? 0)
  end.

(** [Get], between [Lock] and the deferred [Unlock]. *)
Definition Get_body (k : bytes) : M (option addr) :=
  let* fuel := walk_bound in
  let* lvl := levels in
  let* pn := Get_levels fuel k lvl Sentinel None in
  let* hit := matches (snd pn) k in
  if hit then ret (snd pn) else ret None.

Definition Get (k : bytes) : M (option addr) := with_lock (Get_body k).

(** The loop of [randLevel],
    [for level < list.maxLevel && r < list.probTable[level]].  The level
    grows by one each round and stops below [maxLevel]; [n] counts the
    rounds that are left. *)
Fixpoint randLevel_loop (n : nat) (r : float64) (level : Z) : M Z :=
  let* ml := gets (fun s => maxLevel (sl s)) in
  if level <? ml then
    let* t := gets (fun s => probTable (sl s)) in
    let* p := index t (Z.to_nat level) in
    if PrimFloat.ltb r p then
      match n with
      | O => diverge
      | S n' => randLevel_loop n' r (level + 1)
      end
    else ret level
  else ret level.

Definition randLevel : M Z :=
  let* src := gets (fun s => randSource (sl s)) in
  let (x, src') := Int63 src in
  modify (fun s => with_sl s (sl_with_randSource (sl s) src')) ;;
  let r := PrimFloat.div (float64_of_int x) two63 in
  let* lvl := levels in
  randLevel_loop lvl r 1.

Definition incr_Length : M unit :=
  modify (fun s => with_sl s (sl_with_Length (sl s) (wrap64 (Length (sl s) + 1)))).

Definition decr_Length : M unit :=
  modify (fun s => with_sl s (sl_with_Length (sl s) (wrap64 (Length (sl s) - 1)))).

(** [Set], between [Lock] and the deferred [Unlock]. *)
Definition Set_body (k : bytes) (v : V) : M addr :=
  let* prevs := getPrevElementNodes k in
  let* p0 := index prevs 0 in
  let* n0 := deref p0 in
  let* element := Next n0 in
  let* hit := matches element k in
  match element, hit with
  | Some a, true =>
      store_value a v ;;
      ret a
  | _, _ =>
      let* h := randLevel in
      let* nx := make_next h in
      let* a := alloc (mkElement (mkNode (Some ThisList) nx) k v) in
      for_range (length nx) (fun i =>
        let* pi := index prevs i in
        let* ni := deref pi in
        let* succ := NextAt ni i in   (* the plain read [prevs[i].next[i]] *)
        store_next (ElemNode a) i succ ;;
        store_next ni i (Some a)) ;;
      incr_Length ;;
      ret a
  end.

Definition Set_ (k : bytes) (v : V) : M addr := with_lock (Set_body k v).

(** [Remove], between [Lock] and the deferred [Unlock]. *)
Definition Remove_body (k : bytes) : M (option addr) :=
  let* prevs := getPrevElementNodes k in
  let* p0 := index prevs 0 in
  let* n0 := deref p0 in
  let* element := Next n0 in
  let* hit := matches element k in
  match element, hit with
  | Some a, true =>
      let* e := load a in
      for_range (length (next (node e))) (fun j =>
        let* pj := index prevs j in
        let* nj := deref pj in
        let* succ := NextAt (ElemNode a) j in
        store_next nj j succ) ;;
      decr_Length ;;
      ret (Some a)
  | _, _ => ret None
  end.

Definition Remove (k : bytes) : M (option addr) := with_lock (Remove_body k).

(** [probabilityTable]: the loop [for i := 1; i <= MaxLevel; i++] appending
    [math.Pow(probability, float64(i-1))]; [n] rounds are left. *)
Fixpoint probabilityTable_loop (p : float64) (n : nat) (i : Z)
         (table : list float64) : list float64 :=
  match n with
  | O => table
  | S n' => probabilityTable_loop p n' (i + 1)
              (table ++ [Pow p (float64_of_int (i - 1))])
  end.

Definition probabilityTable (p : float64) (MaxLevel : Z) : list float64 :=
  probabilityTable_loop p (Z.to_nat MaxLevel) 1 [].

(** [SetProbability]: takes no lock. *)
Definition SetProbability (newProbability : float64) : M unit :=
  modify (fun s =>
    with_sl s (sl_with_prob (sl s) newProbability
                 (probabilityTable newProbability (maxLevel (sl s))))).

(** [NewWithMaxLevel].  The source is seeded from the clock; the model takes
    the seeded source as an argument.  The new list owns no element. *)
Definition NewWithMaxLevel (src : Source) (maxLevel : Z) : outcome state :=
  if (maxLevel <? 1) || (maxLevel >? 64) then Panic
  else Done (mkState []
         (mkSkipList
            (mkNode None (replicate (Z.to_nat DefaultMaxLevel) None))
            maxLevel
            0
            src
            DefaultProbability
            (probabilityTable DefaultProbability DefaultMaxLevel)
            false
            (replicate (Z.to_nat DefaultMaxLevel) None))).

Definition New (src : Source) : outcome state :=
  NewWithMaxLevel src DefaultMaxLevel.


(** ** Walking a level *)

(** Walking the forward pointers of level [i] from [p] until nil, collecting
    the elements met, as checkSanity does for each level of the sentinel. *)
Fixpoint walk (fuel : nat) (i : nat) (p : option addr) : M (list addr) :=
  match p with
  | None => ret []
  | Some a =>
      match fuel with
      | O => diverge
      | S fuel' =>
          let* nx := NextAt (ElemNode a) i in
          let* rest := walk fuel' i nx in
          ret (a :: rest)
      end
  end.

Definition chain (i : nat) : M (list addr) :=
  let* fuel := walk_bound in
  let* first := NextAt Sentinel i in
  walk fuel i first.

(** The iteration of a caller,
    [for c := list.Front(); c != nil; c = c.Next()], collecting the elements
    met. *)
Fixpoint iterate_from (fuel : nat) (c : option addr) : M (list addr) :=
  match c with
  | None => ret []
  | Some a =>
      match fuel with
      | O => diverge
      | S fuel' =>
          let* c' := Element_Next a in
          let* rest := iterate_from fuel' c' in
          ret (a :: rest)
      end
  end.

Definition iterate : M (list addr) :=
  let* fuel := walk_bound in
  let* c := Front in
  iterate_from fuel c.

(** ** Observations on a state *)

Definition node_at (s : state) (n : nodeRef) : option elementNode :=
  match n with
  | Sentinel => Some (sentinel (sl s))
  | ElemNode a => node <$> heap s !! a
  end.

(** The content of [n.next[i]], when the slot exists. *)
Definition slot (s : state) (n : nodeRef) (i : nat) : option (option addr) :=
  match node_at s n with
  | Some en => next en !! i
  | None => None
  end.

(** [len(e.next)] of the element at [a]. *)
Definition height (h : list Element) (a : addr) : nat :=
  match h !! a with
  | Some e => length (next (node e))
  | None => O
  end.

Definition akey (h : list Element) (a : addr) : bytes :=
  match h !! a with
  | Some e => key e
  | None => []
  end.

Definition avalue (h : list Element) (a : addr) : option V :=
  value <$> h !! a.

(** The first element of [l] that takes part in level [i]. *)
Fixpoint first_tall (h : list Element) (i : nat) (l : list addr) : option addr :=
  match l with
  | [] => None
  | a :: l' => if decide (i < height h a)%nat then Some a else first_tall h i l'
  end.

(** The elements of [l] that take part in level [i]. *)
Definition level_of (h : list Element) (i : nat) (l : list addr) : list addr :=
  filter (fun a => (i < height h a)%nat) l.

(** The last node of [prev :: l] that takes part in level [i]. *)
Fixpoint last_tall (h : list Element) (i : nat) (prev : nodeRef) (l : list addr) : nodeRef :=
  match l with
  | [] => prev
  | a :: l' =>
      last_tall h i (if decide (i < height h a)%nat then ElemNode a else prev) l'
  end.

(** The element of [l] with key [k], the first one if there are several. *)
Fixpoint lookup_key (h : list Element) (k : bytes) (l : list addr) : option addr :=
  match l with
  | [] => None
  | a :: l' => if Compare (akey h a) k =? 0 then Some a else lookup_key h k l'
  end.

Definition key_lt (h : list Element) (a b : addr) : Prop :=
  Compare (akey h a) (akey h b) < 0.

(** ** The representation invariant

    [Inv s L]: the elements of the list are [L], in this order. *)
Record Inv (s : state) (L : list addr) : Prop := mkInv {
  inv_sorted : StronglySorted (key_lt (heap s)) L;
  inv_height : forall a, a ∈ L ->
      (1 <= height (heap s) a)%nat /\ Z.of_nat (height (heap s) a) <= maxLevel (sl s);
  inv_head : forall i, (i < length (next (sentinel (sl s))))%nat ->
      slot s Sentinel i = Some (first_tall (heap s) i L);
  inv_link : forall l1 a l2 i, L = l1 ++ a :: l2 -> (i < height (heap s) a)%nat ->
      slot s (ElemNode a) i = Some (first_tall (heap s) i l2);
  inv_sentinel : length (next (sentinel (sl s))) = Z.to_nat DefaultMaxLevel;
  inv_prevs : length (prevNodesCache (sl s)) = Z.to_nat DefaultMaxLevel;
  inv_maxLevel : 1 <= maxLevel (sl s) <= 64;
  inv_probTable :
      (Z.to_nat (Z.min (maxLevel (sl s)) DefaultMaxLevel) <= length (probTable (sl s)))%nat;
  inv_overflow : DefaultMaxLevel < maxLevel (sl s) -> L = [];
  inv_Length : Length (sl s) = wrap64 (Z.of_nat (length L))
}.

(** ** Notions used by the proofs *)

(** The node before the key on level [i], when [lo] holds the elements with
    a smaller key. *)
Definition pred_at (s : state) (lo : list addr) (i : nat) : nodeRef :=
  last_tall (heap s) i Sentinel lo.

(** Where the search stands when [lvl] levels are left: on the sentinel, or
    on an element of the smaller part that takes part in all of them. *)
Definition position (s : state) (lo : list addr) (lvl : nat) (prev : nodeRef)
           (lo1 lo2 : list addr) : Prop :=
  lo = lo1 ++ lo2 /\
  ((prev = Sentinel /\ lo1 = []) \/
   (exists l b, lo1 = l ++ [b] /\ prev = ElemNode b /\ (lvl <= height (heap s) b)%nat)).

(** The candidate, when [hi] holds the elements whose key is not smaller. *)
Definition hit_of (h : list Element) (k : bytes) (hi : list addr) : option addr :=
  match hi with
  | c :: _ => if Compare (akey h c) k <=? 0 then Some c else None
  | [] => None
  end.

(** Two states that differ at most in the contents of forward-pointer
    slots. *)
Record same_shape (s s' : state) : Prop := mkShape {
  ss_heap : length (heap s') = length (heap s);
  ss_height : forall a, height (heap s') a = height (heap s) a;
  ss_key : forall a, akey (heap s') a = akey (heap s) a;
  ss_value : forall a, avalue (heap s') a = avalue (heap s) a;
  ss_sentinel : length (next (sentinel (sl s'))) = length (next (sentinel (sl s)));
  ss_maxLevel : maxLevel (sl s') = maxLevel (sl s);
  ss_Length : Length (sl s') = Length (sl s);
  ss_randSource : randSource (sl s') = randSource (sl s);
  ss_probability : probability (sl s') = probability (sl s);
  ss_probTable : probTable (sl s') = probTable (sl s);
  ss_mutex : mutex (sl s') = mutex (sl s);
  ss_prevs : prevNodesCache (sl s') = prevNodesCache (sl s)
}.

(** What [Set] does once the search has returned. *)
Definition Set_rest (k : bytes) (v : V) (prevs : list (option nodeRef))
           (element : option addr) (hit : bool) : M addr :=
  match element, hit with
  | Some a, true =>
      store_value a v ;;
      ret a
  | _, _ =>
      let* h := randLevel in
      let* nx := make_next h in
      let* a := alloc (mkElement (mkNode (Some ThisList) nx) k v) in
      for_range (length nx) (fun i =>
        let* pi := index prevs i in
        let* ni := deref pi in
        let* succ := NextAt ni i in
        store_next (ElemNode a) i succ ;;
        store_next ni i (Some a)) ;;
      incr_Length ;;
      ret a
  end.

(** What [Remove] does once the search has returned. *)
Definition Remove_rest (prevs : list (option nodeRef))
           (element : option addr) (hit : bool) : M (option addr) :=
  match element, hit with
  | Some a, true =>
      let* e := load a in
      for_range (length (next (node e))) (fun j =>
        let* pj := index prevs j in
        let* nj := deref pj in
        let* succ := NextAt (ElemNode a) j in
        store_next nj j succ) ;;
      decr_Length ;;
      ret (Some a)
  | _, _ => ret None
  end.

(** The splice loop, after [j] rounds: the new element [a] is linked in on
    the levels below [j]. *)
Definition spliced (s0 s3 : state) (lo hi : list addr) (a : addr) (j : nat)
           (sj : state) : Prop :=
  same_shape s3 sj /\
  forall n i,
    slot sj n i =
    if decide (i < j)%nat then
      if decide (n = pred_at s0 lo i) then Some (Some a)
      else if decide (n = ElemNode a) then Some (first_tall (heap s0) i hi)
      else slot s3 n i
    else slot s3 n i.

(** The unlink loop, after [j] rounds: the predecessors of the levels below
    [j] point past the removed element. *)
Definition unlinked (s0 s1 : state) (lo hi : list addr) (j : nat) (sj : state) : Prop :=
  same_shape s1 sj /\
  forall n i,
    slot sj n i =
    if decide (i < j)%nat then
      if decide (n = pred_at s0 lo i) then Some (first_tall (heap s0) i hi)
      else slot s1 n i
    else slot s1 n i.

(** ** Reachable states: a new list, then any calls of the exported
    operations, whichever way each call ends. *)
Inductive reachable : state -> Prop :=
| reach_New src n s :
    NewWithMaxLevel src n = Done s -> reachable s
| reach_Set k v s :
    reachable s -> reachable (snd (Set_ k v s))
| reach_Get k s :
    reachable s -> reachable (snd (Get k s))
| reach_Remove k s :
    reachable s -> reachable (snd (Remove k s))
| reach_SetProbability p s :
    reachable s -> reachable (snd (SetProbability p s)).


(** * Further definitions *)

(** ** The accessors of type.go *)

(** [Element.Key]. *)
Definition Element_Key (a : addr) : M bytes :=
  let* e := load a in ret (key e).

(** [Element.Value]. *)
Definition Element_Value (a : addr) : M V :=
  let* e := load a in ret (value e).

(** Where a search may stand: on nil, or on an element whose key is not
    smaller than the key searched. *)
Definition not_before (s : state) (k : bytes) (n : option addr) : Prop :=
  match n with
  | None => True
  | Some a => exists e, heap s !! a = Some e /\ Compare k (key e) <= 0
  end.

(** ** What no operation ever does *)

(** [stable s s']: every element allocated in [s] is still allocated in
    [s'], with the same key, the same back pointer and a forward array of
    the same length; the sentinel and the scratch buffer have the sizes they
    had, and [maxLevel] is what it was. *)
Record stable (s s' : state) : Prop := mkStable {
  st_heap : forall b e, heap s !! b = Some e ->
      exists e', heap s' !! b = Some e'
                 /\ key e' = key e
                 /\ list_ (node e') = list_ (node e)
                 /\ length (next (node e')) = length (next (node e));
  st_size : (length (heap s) <= length (heap s'))%nat;
  st_sentinel : length (next (sentinel (sl s'))) = length (next (sentinel (sl s)));
  st_prevs : length (prevNodesCache (sl s')) = length (prevNodesCache (sl s));
  st_maxLevel : maxLevel (sl s') = maxLevel (sl s)
}.

(** A computation that is stable from every state, however it ends. *)
Definition keeps {A} (m : M A) : Prop := forall s, stable s (snd (m s)).

(** ** The sanity check of the tests (skiplist_test.go) *)

(** How [checkSanity] ends when it does not panic: it returns, or it stops
    the test with [t.Fatal]. *)
Inductive verdict := Pass | Fatal.

(** The inner loop of [checkSanity], [for next.next[k] != nil], with the
    count [cnt]; [None] stands for a call of [t.Fatalf]. *)
Fixpoint sanity_chain (fuel : nat) (k : nat) (nxt : option addr) (cnt : Z)
  : M (option Z) :=
  let* a := deref nxt in
  let* e := load a in
  let* p := index (next (node e)) k in
  match p with
  | None => ret (Some cnt)
  | Some _ =>
      let* q := NextAt (ElemNode a) k in
      let* qa := deref q in
      let* qe := load qa in
      if negb (Compare (key qe) (key e) >=? 0) then ret None
      else if (length (next (node e)) <? k)%nat then ret None
      else
        let* nxt' := NextAt (ElemNode a) k in
        match fuel with
        | O => diverge
        | S fuel' => sanity_chain fuel' k nxt' (wrap64 (cnt + 1))
        end
  end.

(** One round of the outer loop, for level [k]. *)
Definition sanity_level (fuel : nat) (k : nat) : M verdict :=
  let* v := NextAt Sentinel k in
  match v with
  | None => ret Pass
  | Some a =>
      let* e := load a in
      if (length (next (node e)) <? k)%nat then ret Fatal
      else
        let* r := sanity_chain fuel k (Some a) 1 in
        match r with
        | None => ret Fatal
        | Some cnt =>
            if (k =? 0)%nat then
              let* len := gets (fun s => Length (sl s)) in
              if negb (cnt =? len) then ret Fatal else ret Pass
            else ret Pass
        end
  end.

Fixpoint sanity_levels (fuel : nat) (ks : list nat) : M verdict :=
  match ks with
  | [] => ret Pass
  | k :: ks' =>
      let* r := sanity_level fuel k in
      match r with
      | Fatal => ret Fatal
      | Pass => sanity_levels fuel ks'
      end
  end.

(** [checkSanity]: [for k := range list.next]. *)
Definition checkSanity : M verdict :=
  let* fuel := walk_bound in
  let* n := gets (fun s => length (next (sentinel (sl s)))) in
  sanity_levels fuel (seq 0 n).

(** The count after [n] more rounds of [cnt++]. *)
Fixpoint count_from (cnt : Z) (n : nat) : Z :=
  match n with
  | O => cnt
  | S n' => count_from (wrap64 (cnt + 1)) n'
  end.


(** ** The list as a map *)

(** A call of the API of skiplist.go. *)
Inductive call :=
| CallSet (k : bytes) (v : V)
| CallGet (k : bytes)
| CallRemove (k : bytes)
| CallSetProbability (p : float64).

Definition do_call (c : call) : M unit :=
  match c with
  | CallSet k v => let* _ := Set_ k v in ret tt
  | CallGet k => let* _ := Get k in ret tt
  | CallRemove k => let* _ := Remove k in ret tt
  | CallSetProbability p => SetProbability p
  end.

(** The calls one after the other; a panic ends the sequence. *)
Fixpoint do_calls (cs : list call) : M unit :=
  match cs with
  | [] => ret tt
  | c :: cs' => do_call c ;; do_calls cs'
  end.

(** What a caller reads for a key: [Get], then [Value()] of the element
    when there is one. *)
Definition read (k : bytes) : M (option V) :=
  let* r := Get k in
  match r with
  | None => ret None
  | Some a => let* v := Element_Value a in ret (Some v)
  end.

#[local] Instance byte_eq_dec : EqDecision byte := Byte.byte_eq_dec.

(** The map the calls describe: [Set] binds the key, [Remove] unbinds it,
    the other calls change nothing. *)
Definition map_call (c : call) (m : bytes -> option V) : bytes -> option V :=
  match c with
  | CallSet k v => fun k' => if decide (k' = k) then Some v else m k'
  | CallRemove k => fun k' => if decide (k' = k) then None else m k'
  | CallGet _ | CallSetProbability _ => m
  end.

Fixpoint map_calls (cs : list call) (m : bytes -> option V) : bytes -> option V :=
  match cs with
  | [] => m
  | c :: cs' => map_calls cs' (map_call c m)
  end.

(** The value the chain [L] holds for a key. *)
Definition content (s : state) (L : list addr) (k : bytes) : option V :=
  match lookup_key (heap s) k L with
  | Some a => avalue (heap s) a
  | None => None
  end.

(** ** The keys of the tests (skiplist_test.go) *)

(** Go's conversion [byte(v)] of an unsigned integer: the low 8 bits. *)
Definition byte_of_Z (z : Z) : byte :=
  match Byte.of_N (Z.to_N (z mod 256)) with
  | Some b => b
  | None => x00
  end.

(** [uint64(b)] of a byte. *)
Definition Z_of_byte (b : byte) : Z := Z.of_N (Byte.to_N b).

(** [binary.BigEndian.PutUint64] on a buffer of 8 bytes. *)
Definition PutUint64 (v : Z) : bytes :=
  [byte_of_Z (Z.shiftr v 56); byte_of_Z (Z.shiftr v 48);
   byte_of_Z (Z.shiftr v 40); byte_of_Z (Z.shiftr v 32);
   byte_of_Z (Z.shiftr v 24); byte_of_Z (Z.shiftr v 16);
   byte_of_Z (Z.shiftr v 8); byte_of_Z v].

(** [binary.BigEndian.Uint64]; [None] is the panic of the bounds check on a
    slice of fewer than 8 bytes. *)
Definition Uint64 (b : bytes) : option Z :=
  match b with
  | b0 :: b1 :: b2 :: b3 :: b4 :: b5 :: b6 :: b7 :: _ =>
      Some (Z.lor (Z.lor (Z.lor (Z.lor (Z.lor (Z.lor (Z.lor
        (Z_of_byte b7)
        (Z.shiftl (Z_of_byte b6) 8))
        (Z.shiftl (Z_of_byte b5) 16))
        (Z.shiftl (Z_of_byte b4) 24))
        (Z.shiftl (Z_of_byte b3) 32))
        (Z.shiftl (Z_of_byte b2) 40))
        (Z.shiftl (Z_of_byte b1) 48))
        (Z.shiftl (Z_of_byte b0) 56))
  | _ => None
  end.

(** [orderedKey]: a fresh buffer of 8 bytes, filled by [PutUint64]. *)
Definition orderedKey (i : Z) : bytes := PutUint64 i.

(** [orderedKeyValue]. *)
Definition orderedKeyValue (key : bytes) : option Z := Uint64 key.

(** The big-endian digits, most significant first. *)
Fixpoint digits (n : nat) (i : Z) : bytes :=
  match n with
  | O => []
  | S n' => byte_of_Z (i / 256 ^ Z.of_nat n') :: digits n' i
  end.

(** The result of a three-way comparison as [bytes.Compare] gives it. *)
Definition sign_of (c : comparison) : Z :=
  match c with
  | Lt => -1
  | Eq => 0
  | Gt => 1
  end.


(** The loop of TestChangeLevel,
    [for i = 1; i <= N; i++ { list.Set(orderedKey(i), f(i)) }], as calls. *)
Definition ascending_sets (f : Z -> V) (N : nat) : list call :=
  (fun i => CallSet (orderedKey (Z.of_nat i)) (f (Z.of_nat i))) <$> seq 1 N.
(** * Proofs *)

(** ** [bytes.Compare] is a strict total order *)

Lemma to_N_inj (x y : byte) : Byte.to_N x = Byte.to_N y -> x = y.
Proof.
  intros H. pose proof (Byte.of_to_N x) as Hx. pose proof (Byte.of_to_N y) as Hy.
  rewrite H in Hx. congruence.
Qed.

Lemma Compare_range (a b : bytes) :
  Compare a b = -1 \/ Compare a b = 0 \/ Compare a b = 1.
Proof.
  revert b. induction a as [|x a IH]; intros [|y b]; simpl; auto.
  destruct (N.compare (Byte.to_N x) (Byte.to_N y)); auto.
Qed.

Lemma Compare_refl (a : bytes) : Compare a a = 0.
Proof.
  induction a as [|x a IH]; simpl; [reflexivity|].
  now rewrite N.compare_refl.
Qed.

Lemma Compare_eq (a b : bytes) : Compare a b = 0 -> a = b.
Proof.
  revert b. induction a as [|x a IH]; intros [|y b]; simpl; try discriminate; auto.
  destruct (N.compare (Byte.to_N x) (Byte.to_N y)) eqn:E; try discriminate.
  intros H. apply N.compare_eq in E. apply to_N_inj in E. f_equal; auto.
Qed.

Lemma Compare_antisym (a b : bytes) : Compare b a = - Compare a b.
Proof.
  revert b. induction a as [|x a IH]; intros [|y b]; simpl; auto.
  rewrite (N.compare_antisym (Byte.to_N x) (Byte.to_N y)).
  destruct (N.compare (Byte.to_N x) (Byte.to_N y)); simpl; auto.
Qed.

Lemma Compare_trans (a b c : bytes) :
  Compare a b <= 0 -> Compare b c <= 0 -> Compare a c <= 0.
Proof.
  revert b c. induction a as [|x a IH]; intros [|y b] [|z c]; simpl; try lia.
  destruct (N.compare_spec (Byte.to_N x) (Byte.to_N y)) as [E1|E1|E1];
    destruct (N.compare_spec (Byte.to_N y) (Byte.to_N z)) as [E2|E2|E2];
    destruct (N.compare_spec (Byte.to_N x) (Byte.to_N z)) as [E3|E3|E3];
    try lia; intros; eauto.
Qed.

Lemma Compare_le_lt_trans (a b c : bytes) :
  Compare a b <= 0 -> Compare b c < 0 -> Compare a c < 0.
Proof.
  intros H1 H2.
  assert (H3 : Compare a c <= 0) by (eapply Compare_trans; eauto; lia).
  destruct (Z.eq_dec (Compare a c) 0) as [E|E]; [|lia].
  apply Compare_eq in E. subst c.
  rewrite (Compare_antisym a b) in H2. lia.
Qed.

Lemma Compare_lt_le_trans (a b c : bytes) :
  Compare a b < 0 -> Compare b c <= 0 -> Compare a c < 0.
Proof.
  intros H1 H2.
  assert (H3 : Compare a c <= 0) by (eapply Compare_trans; eauto; lia).
  destruct (Z.eq_dec (Compare a c) 0) as [E|E]; [|lia].
  apply Compare_eq in E. subst c.
  rewrite (Compare_antisym a b) in H2. lia.
Qed.

(** ** Levels of an address list *)

Lemma height_pos_lookup (h : list Element) (a : addr) (i : nat) :
  (i < height h a)%nat ->
  exists e, h !! a = Some e /\ akey h a = key e
            /\ height h a = length (next (node e)).
Proof.
  unfold height, akey. destruct (h !! a) as [e|]; [eauto|lia].
Qed.

Lemma first_tall_ext (h h' : list Element) (i : nat) (l : list addr) :
  (forall a, a ∈ l -> height h' a = height h a) ->
  first_tall h' i l = first_tall h i l.
Proof.
  induction l as [|a l IH]; intros H; simpl; [reflexivity|].
  rewrite (H a) by set_solver. rewrite IH by set_solver. reflexivity.
Qed.

Lemma last_tall_ext (h h' : list Element) (i : nat) (l : list addr) (p : nodeRef) :
  (forall a, a ∈ l -> height h' a = height h a) ->
  last_tall h' i p l = last_tall h i p l.
Proof.
  revert p. induction l as [|a l IH]; intros p H; simpl; [reflexivity|].
  rewrite (H a) by set_solver. rewrite IH by set_solver. reflexivity.
Qed.

Lemma first_tall_app (h : list Element) (i : nat) (l1 l2 : list addr) :
  first_tall h i (l1 ++ l2) =
  match first_tall h i l1 with
  | Some x => Some x
  | None => first_tall h i l2
  end.
Proof.
  induction l1 as [|a l1 IH]; simpl; [reflexivity|].
  destruct (decide (i < height h a)%nat); auto.
Qed.

Lemma first_tall_Some (h : list Element) (i : nat) (l : list addr) (a : addr) :
  first_tall h i l = Some a -> a ∈ l /\ (i < height h a)%nat.
Proof.
  induction l as [|b l IH]; simpl; [discriminate|].
  destruct (decide (i < height h b)%nat).
  - intros [= ->]. split; [set_solver|assumption].
  - intros H. destruct (IH H). split; [set_solver|assumption].
Qed.

Lemma first_tall_None (h : list Element) (i : nat) (l : list addr) :
  first_tall h i l = None <-> (forall a, a ∈ l -> ~ (i < height h a)%nat).
Proof.
  induction l as [|b l IH]; simpl.
  - split; [set_solver|reflexivity].
  - destruct (decide (i < height h b)%nat) as [Hb|Hb].
    + split; [discriminate|]. intros H. exfalso. apply (H b); [set_solver|assumption].
    + rewrite IH. split.
      * intros H a Ha. apply elem_of_cons in Ha as [->|Ha]; auto.
      * intros H a Ha. apply H. set_solver.
Qed.

Lemma first_tall_level_of (h : list Element) (i : nat) (l : list addr) :
  first_tall h i l = head (level_of h i l).
Proof.
  unfold level_of. induction l as [|a l IH]; simpl; [reflexivity|].
  rewrite filter_cons. destruct (decide (i < height h a)%nat); auto.
Qed.

Lemma last_tall_app (h : list Element) (i : nat) (p : nodeRef) (l1 l2 : list addr) :
  last_tall h i p (l1 ++ l2) = last_tall h i (last_tall h i p l1) l2.
Proof.
  revert p. induction l1 as [|a l1 IH]; intros p; simpl; [reflexivity|].
  apply IH.
Qed.

Lemma last_tall_cases (h : list Element) (i : nat) (p : nodeRef) (l : list addr) :
  (first_tall h i l = None /\ last_tall h i p l = p) \/
  (exists u b w, l = u ++ b :: w /\ (i < height h b)%nat /\
                 first_tall h i w = None /\ last_tall h i p l = ElemNode b).
Proof.
  revert p. induction l as [|a l IH]; intros p; simpl; [left; auto|].
  destruct (IH (if decide (i < height h a)%nat then ElemNode a else p))
    as [[Hn Hl]|(u & b & w & -> & Hb & Hw & Hl)].
  - destruct (decide (i < height h a)%nat) as [Ha|Ha].
    + right. exists [], a, l. auto.
    + left. auto.
  - right. exists (a :: u), b, w. repeat split; auto.
Qed.

Lemma last_tall_None (h : list Element) (i : nat) (p : nodeRef) (l : list addr) :
  first_tall h i l = None -> last_tall h i p l = p.
Proof.
  intros H. destruct (last_tall_cases h i p l) as [[_ ?]|(u & b & w & -> & Hb & _)]; auto.
  rewrite first_tall_None in H. exfalso. apply (H b); [set_solver|assumption].
Qed.

Lemma last_tall_elem (h : list Element) (i : nat) (p : nodeRef) (l : list addr) (c : addr) :
  first_tall h i l = Some c ->
  exists b, b ∈ l /\ (i < height h b)%nat /\ last_tall h i p l = ElemNode b.
Proof.
  intros H. destruct (last_tall_cases h i p l) as [[Hn _]|(u & b & w & -> & Hb & _ & Hl)].
  - congruence.
  - exists b. split; [set_solver|auto].
Qed.

(** The last tall node of a duplicate-free list, seen from one of its
    members. *)
Lemma last_tall_at (h : list Element) (i : nat) (p : nodeRef) (l1 l2 : list addr)
      (b : addr) :
  NoDup (l1 ++ b :: l2) -> (i < height h b)%nat ->
  (last_tall h i p (l1 ++ b :: l2) = ElemNode b <-> first_tall h i l2 = None).
Proof.
  intros Hnd Hb.
  replace (l1 ++ b :: l2) with ((l1 ++ [b]) ++ l2) by (rewrite <- app_assoc; reflexivity).
  rewrite last_tall_app.
  assert (Hq : last_tall h i p (l1 ++ [b]) = ElemNode b).
  { rewrite last_tall_app. simpl. destruct (decide (i < height h b)%nat); [reflexivity|lia]. }
  rewrite Hq. split.
  - intros Hl. destruct (first_tall h i l2) as [c|] eqn:Hc; [|reflexivity].
    destruct (last_tall_elem h i (ElemNode b) l2 c Hc) as (b' & Hin & _ & Hl').
    rewrite Hl in Hl'. injection Hl' as Heq. subst b'.
    apply NoDup_app in Hnd as (_ & _ & Hnd). apply NoDup_cons in Hnd as [Hn _].
    exfalso. auto.
  - apply last_tall_None.
Qed.

Lemma last_tall_Sentinel (h : list Element) (i : nat) (l : list addr) :
  last_tall h i Sentinel l = Sentinel <-> first_tall h i l = None.
Proof.
  split; [|apply last_tall_None].
  intros H. destruct (first_tall h i l) as [c|] eqn:Hc; [|reflexivity].
  destruct (last_tall_elem h i Sentinel l c Hc) as (b & _ & _ & Hl). congruence.
Qed.

Lemma last_tall_in (h : list Element) (i : nat) (l : list addr) (b : addr) :
  last_tall h i Sentinel l = ElemNode b -> b ∈ l /\ (i < height h b)%nat.
Proof.
  intros H. destruct (last_tall_cases h i Sentinel l) as [[_ Hl]|(u & b' & w & -> & Hb & _ & Hl)].
  - congruence.
  - rewrite Hl in H. injection H as ->. split; [set_solver|assumption].
Qed.

Lemma NoDup_split_unique (l1 l2 l1' l2' : list addr) (a : addr) :
  NoDup (l1 ++ a :: l2) -> l1 ++ a :: l2 = l1' ++ a :: l2' -> l1 = l1' /\ l2 = l2'.
Proof.
  revert l1'. induction l1 as [|x l1 IH]; intros l1' Hnd Heq.
  - destruct l1' as [|y l1']; simpl in *.
    + injection Heq as ->. auto.
    + injection Heq as <- ->. apply NoDup_cons in Hnd as [Hn _].
      exfalso. apply Hn. set_solver.
  - destruct l1' as [|y l1']; simpl in *.
    + injection Heq as -> <-. apply NoDup_cons in Hnd as [Hn _].
      exfalso. apply Hn. set_solver.
    + injection Heq as <- Heq. apply NoDup_cons in Hnd as [_ Hnd].
      destruct (IH l1' Hnd Heq) as [-> ->]. auto.
Qed.

(** ** Sorted address lists *)

Lemma key_lt_irrefl (h : list Element) (a : addr) : ~ key_lt h a a.
Proof. unfold key_lt. rewrite Compare_refl. lia. Qed.

Lemma sorted_NoDup (h : list Element) (L : list addr) :
  StronglySorted (key_lt h) L -> NoDup L.
Proof.
  induction 1 as [|a l Hs IH Hall]; constructor; auto.
  intros Hin. rewrite Forall_forall in Hall.
  apply (key_lt_irrefl h a). apply Hall. assumption.
Qed.

(** A sorted list splits at any key into the smaller and the others. *)
Lemma sorted_split (h : list Element) (L : list addr) (k : bytes) :
  StronglySorted (key_lt h) L ->
  exists lo hi, L = lo ++ hi /\
    (forall a, a ∈ lo -> Compare (akey h a) k < 0) /\
    (forall a, a ∈ hi -> Compare k (akey h a) <= 0).
Proof.
  induction 1 as [|a l Hs IH Hall].
  - exists [], []. set_solver.
  - destruct (Z_lt_dec (Compare (akey h a) k) 0) as [Hlt|Hge].
    + destruct IH as (lo & hi & -> & Hlo & Hhi).
      exists (a :: lo), hi. split; [reflexivity|]. split; [|assumption].
      intros b Hb. apply elem_of_cons in Hb as [->|Hb]; auto.
    + exists [], (a :: l). split; [reflexivity|]. split; [set_solver|].
      assert (Ha : Compare k (akey h a) <= 0) by (rewrite Compare_antisym; lia).
      intros b Hb. apply elem_of_cons in Hb as [->|Hb]; [assumption|].
      rewrite Forall_forall in Hall. specialize (Hall b Hb). unfold key_lt in Hall.
      eapply Compare_trans; [eassumption|lia].
Qed.

(** ** Running the primitives *)

Lemma bind_Done {A B} (m : M A) (f : A -> M B) (s s' : state) (a : A) :
  m s = (Done a, s') -> bind m f s = f a s'.
Proof. unfold bind. intros ->. reflexivity. Qed.

Lemma bind_Panic {A B} (m : M A) (f : A -> M B) (s s' : state) :
  m s = (Panic, s') -> bind m f s = (Panic, s').
Proof. unfold bind. intros ->. reflexivity. Qed.

Lemma NextAt_slot (n : nodeRef) (i : nat) (s : state) :
  NextAt n i s = match slot s n i with
                 | Some p => (Done p, s)
                 | None => (Panic, s)
                 end.
Proof.
  unfold NextAt, slot, node_at, load_node, bind, index, load, gets, ret, panic.
  destruct n as [|a]; simpl.
  - destruct (next (sentinel (sl s)) !! i); reflexivity.
  - destruct (heap s !! a); simpl; [|reflexivity].
    destruct (next (node e) !! i); reflexivity.
Qed.

Lemma load_Done (s : state) (a : addr) (e : Element) :
  heap s !! a = Some e -> load a s = (Done e, s).
Proof. unfold load. intros ->. reflexivity. Qed.

Lemma slot_same (s s' : state) (n : nodeRef) (i : nat) :
  heap s' = heap s -> sentinel (sl s') = sentinel (sl s) ->
  slot s' n i = slot s n i.
Proof.
  unfold slot, node_at. intros -> ->. reflexivity.
Qed.

(** The invariant reads the heap, the sentinel, [maxLevel], [Length] and the
    sizes of the table and of the scratch buffer, and nothing else. *)
Lemma Inv_same (s s' : state) (L : list addr) :
  heap s' = heap s ->
  sentinel (sl s') = sentinel (sl s) ->
  maxLevel (sl s') = maxLevel (sl s) ->
  Length (sl s') = Length (sl s) ->
  (Z.to_nat (Z.min (maxLevel (sl s)) DefaultMaxLevel) <= length (probTable (sl s')))%nat ->
  length (prevNodesCache (sl s')) = Z.to_nat DefaultMaxLevel ->
  Inv s L -> Inv s' L.
Proof.
  intros Hh Hs Hm Hl Hp Hc [I1 I2 I3 I4 I5 I6 I7 I8 I9 I10].
  constructor; rewrite ?Hh, ?Hs, ?Hm, ?Hl; auto.
  - intros i Hi. rewrite (slot_same s s') by assumption. auto.
  - intros l1 a l2 i HL Hi. rewrite (slot_same s s') by assumption. eauto.
Qed.

Lemma Inv_NoDup (s : state) (L : list addr) : Inv s L -> NoDup L.
Proof. intros HI. eapply sorted_NoDup. apply HI. Qed.

Lemma Inv_lookup (s : state) (L : list addr) (a : addr) :
  Inv s L -> a ∈ L ->
  exists e, heap s !! a = Some e /\ akey (heap s) a = key e
            /\ height (heap s) a = length (next (node e)).
Proof.
  intros HI Ha. destruct (inv_height s L HI a Ha) as [H1 _].
  apply (height_pos_lookup (heap s) a 0). lia.
Qed.

Lemma Inv_lt_heap (s : state) (L : list addr) (a : addr) :
  Inv s L -> a ∈ L -> (a < length (heap s))%nat.
Proof.
  intros HI Ha. destruct (Inv_lookup s L a HI Ha) as (e & He & _).
  eapply lookup_lt_Some. eassumption.
Qed.

Lemma Inv_length (s : state) (L : list addr) :
  Inv s L -> (length L <= length (heap s))%nat.
Proof.
  intros HI.
  assert (Hsub : L ⊆ seq 0 (length (heap s))).
  { intros a Ha. apply elem_of_seq. pose proof (Inv_lt_heap s L a HI Ha). lia. }
  pose proof (submseteq_length L (seq 0 (length (heap s)))) as Hl.
  rewrite length_seq in Hl. apply Hl.
  apply NoDup_submseteq; [eapply Inv_NoDup; eassumption|].
  intros a Ha. apply Hsub. assumption.
Qed.

(** ** The search *)

Section Search.

Variable s : state.
Variable L lo hi : list addr.
Variable k : bytes.
Hypothesis HI : Inv s L.
Hypothesis HL : L = lo ++ hi.
Hypothesis Hlo : forall a, a ∈ lo -> Compare (akey (heap s) a) k < 0.
Hypothesis Hhi : forall a, a ∈ hi -> Compare k (akey (heap s) a) <= 0.

(** The inner loop, started anywhere in the smaller part, stops on the last
    node of the level before the key and returns the first node of the level
    in the other part. *)
Lemma advance_spec (i : nat) :
  forall (lo2 l0 : list addr) (prev : nodeRef) (fuel : nat),
    lo = l0 ++ lo2 -> (length lo2 <= fuel)%nat ->
    advance fuel k i prev (first_tall (heap s) i (lo2 ++ hi)) s
    = (Done (last_tall (heap s) i prev lo2, first_tall (heap s) i hi), s).
Proof.
  induction lo2 as [|b lo2 IH]; intros l0 prev fuel Hsplit Hfuel.
  - simpl. destruct (first_tall (heap s) i hi) as [c|] eqn:Hc.
    + apply first_tall_Some in Hc as [Hin Hc].
      destruct (height_pos_lookup (heap s) c i Hc) as (e & He & Hk & _).
      destruct fuel; simpl; rewrite (bind_Done _ _ s s e (load_Done s c e He));
        specialize (Hhi c Hin); rewrite Hk in Hhi;
        destruct (Z.gtb_spec (Compare k (key e)) 0); try lia; reflexivity.
    + destruct fuel; reflexivity.
  - assert (Hb : b ∈ lo) by (rewrite Hsplit; set_solver).
    assert (Hsplit' : lo = (l0 ++ [b]) ++ lo2) by (rewrite <- app_assoc; assumption).
    simpl in Hfuel. simpl.
    destruct (decide (i < height (heap s) b)%nat) as [Htall|Hshort].
    + destruct (height_pos_lookup (heap s) b i Htall) as (e & He & Hk & _).
      destruct fuel as [|fuel]; [lia|]. simpl.
      rewrite (bind_Done _ _ s s e (load_Done s b e He)).
      specialize (Hlo b Hb). rewrite Hk in Hlo.
      rewrite (Compare_antisym (key e) k).
      destruct (Z.gtb_spec (- Compare (key e) k) 0); [|lia].
      rewrite (bind_Done _ _ s s (first_tall (heap s) i (lo2 ++ hi))).
      * apply (IH (l0 ++ [b])); [assumption|lia].
      * rewrite NextAt_slot.
        rewrite (inv_link s L HI l0 b (lo2 ++ hi) i); [reflexivity| |assumption].
        rewrite HL, Hsplit, <- app_assoc. reflexivity.
    + apply (IH (l0 ++ [b])); [assumption|lia].
Qed.

Lemma position_start (lvl : nat) : position s lo lvl Sentinel [] lo.
Proof. split; [reflexivity|left; auto]. Qed.

Lemma position_slot (i : nat) (prev : nodeRef) (lo1 lo2 : list addr) :
  position s lo (S i) prev lo1 lo2 ->
  (i < length (next (sentinel (sl s))))%nat ->
  slot s prev i = Some (first_tall (heap s) i (lo2 ++ hi)).
Proof.
  intros [Hsplit [[-> ->]|(l & b & -> & -> & Hb)]] Hi.
  - rewrite (inv_head s L HI i Hi). rewrite HL, Hsplit. reflexivity.
  - apply (inv_link s L HI l b (lo2 ++ hi) i); [|lia].
    rewrite HL, Hsplit, <- !app_assoc. reflexivity.
Qed.

Lemma position_last (i : nat) (prev : nodeRef) (lo1 lo2 : list addr) :
  position s lo (S i) prev lo1 lo2 ->
  last_tall (heap s) i prev lo2 = last_tall (heap s) i Sentinel lo.
Proof.
  intros [Hsplit [[-> ->]|(l & b & -> & -> & Hb)]].
  - rewrite Hsplit. reflexivity.
  - rewrite Hsplit, !last_tall_app. simpl.
    destruct (decide (i < height (heap s) b)%nat); [reflexivity|lia].
Qed.

Lemma position_step (i : nat) (prev : nodeRef) (lo1 lo2 : list addr) :
  position s lo (S i) prev lo1 lo2 ->
  exists lo1' lo2', position s lo i (last_tall (heap s) i prev lo2) lo1' lo2'.
Proof.
  intros Hpos.
  destruct (last_tall_cases (heap s) i prev lo2)
    as [[_ ->]|(u & b & w & -> & Hb & _ & ->)].
  - exists lo1, lo2. destruct Hpos as [Hsplit [?|(l & b & ? & ? & ?)]];
      split; auto. right. exists l, b. repeat split; auto. lia.
  - exists (lo1 ++ u ++ [b]), w. destruct Hpos as [Hsplit _]. split.
    + rewrite Hsplit, <- !app_assoc. reflexivity.
    + right. exists (lo1 ++ u), b. rewrite <- app_assoc. repeat split; auto. lia.
Qed.

Lemma Get_levels_spec (fuel : nat) :
  (length L <= fuel)%nat ->
  forall (lvl : nat) (prev : nodeRef) (nxt : option addr) (lo1 lo2 : list addr),
    position s lo lvl prev lo1 lo2 ->
    (lvl <= length (next (sentinel (sl s))))%nat ->
    Get_levels fuel k lvl prev nxt s
    = (Done (match lvl with
             | O => (prev, nxt)
             | S _ => (pred_at s lo 0, first_tall (heap s) 0 hi)
             end), s).
Proof.
  intros Hfuel. induction lvl as [|i IH]; intros prev nxt lo1 lo2 Hpos Hlvl.
  - reflexivity.
  - simpl.
    rewrite (bind_Done _ _ s s (first_tall (heap s) i (lo2 ++ hi)))
      by (rewrite NextAt_slot, (position_slot i prev lo1 lo2 Hpos) by lia; reflexivity).
    rewrite (bind_Done _ _ s s (last_tall (heap s) i prev lo2, first_tall (heap s) i hi)).
    2:{ apply (advance_spec i lo2 lo1); [apply Hpos|].
        destruct Hpos as [Hsplit _]. rewrite HL, Hsplit, !length_app in Hfuel. lia. }
    simpl. destruct (position_step i prev lo1 lo2 Hpos) as (lo1' & lo2' & Hpos').
    rewrite (IH _ _ lo1' lo2' Hpos') by lia.
    destruct i; [|reflexivity].
    rewrite (position_last 0 prev lo1 lo2 Hpos). reflexivity.
Qed.

End Search.

(** ** The predecessor search writes the scratch buffer *)

Lemma eta_prevs (s : state) :
  with_sl s (sl_with_prevs (sl s) (prevNodesCache (sl s))) = s.
Proof. destruct s as [h [? ? ? ? ? ? ? ?]]. reflexivity. Qed.

Lemma Inv_with_prevs (s : state) (L : list addr) (c : list (option nodeRef)) :
  length c = length (prevNodesCache (sl s)) ->
  Inv s L -> Inv (with_sl s (sl_with_prevs (sl s) c)) L.
Proof.
  intros Hc HI. apply (Inv_same s); simpl; try reflexivity; try apply HI.
  rewrite Hc. apply HI.
Qed.

Lemma prev_levels_spec (L lo hi : list addr) (k : bytes) (fuel : nat) :
  L = lo ++ hi -> (length L <= fuel)%nat ->
  forall (lvl : nat) (s : state) (prev : nodeRef) (lo1 lo2 : list addr),
    Inv s L ->
    (forall a, a ∈ lo -> Compare (akey (heap s) a) k < 0) ->
    (forall a, a ∈ hi -> Compare k (akey (heap s) a) <= 0) ->
    position s lo lvl prev lo1 lo2 ->
    (lvl <= length (next (sentinel (sl s))))%nat ->
    exists c,
      prev_levels fuel k lvl prev s = (Done tt, with_sl s (sl_with_prevs (sl s) c))
      /\ length c = length (prevNodesCache (sl s))
      /\ (forall j, (j < lvl)%nat -> c !! j = Some (Some (pred_at s lo j)))
      /\ (forall j, (lvl <= j)%nat -> c !! j = prevNodesCache (sl s) !! j).
Proof.
  intros HL Hfuel. induction lvl as [|i IH]; intros s prev lo1 lo2 HI Hlo Hhi Hpos Hlvl.
  - exists (prevNodesCache (sl s)). rewrite eta_prevs. simpl.
    repeat split; auto. intros j Hj. lia.
  - pose proof (inv_sentinel s L HI) as Hsz. pose proof (inv_prevs s L HI) as Hcz.
    simpl.
    rewrite (bind_Done _ _ s s (first_tall (heap s) i (lo2 ++ hi)))
      by (rewrite NextAt_slot, (position_slot s L lo hi HI HL i prev lo1 lo2 Hpos) by lia;
          reflexivity).
    rewrite (bind_Done _ _ s s (last_tall (heap s) i prev lo2, first_tall (heap s) i hi)).
    2:{ apply (advance_spec s L lo hi k HI HL Hlo Hhi i lo2 lo1); [apply Hpos|].
        destruct Hpos as [Hsplit _]. rewrite HL, Hsplit, !length_app in Hfuel. lia. }
    simpl fst.
    set (p' := last_tall (heap s) i prev lo2).
    set (s1 := with_sl s (sl_with_prevs (sl s) (<[i := Some p']> (prevNodesCache (sl s))))).
    rewrite (bind_Done _ _ s s1 tt).
    2:{ unfold store_prev. destruct (decide (i < length (prevNodesCache (sl s)))%nat);
          [reflexivity|lia]. }
    destruct (position_step s lo i prev lo1 lo2 Hpos) as (lo1' & lo2' & Hpos').
    destruct (IH s1 p' lo1' lo2') as (c & Hrun & Hlen & Hlow & Hhigh).
    + apply Inv_with_prevs; [apply length_insert|assumption].
    + exact Hlo.
    + exact Hhi.
    + exact Hpos'.
    + simpl. lia.
    + exists c. split; [exact Hrun|]. split.
      { rewrite Hlen. simpl. apply length_insert. }
      split.
      * intros j Hj. destruct (decide (j = i)) as [->|Hne].
        -- rewrite (Hhigh i) by lia. simpl.
           rewrite list_lookup_insert_eq by lia.
           unfold p'. rewrite (position_last s lo i prev lo1 lo2 Hpos). reflexivity.
        -- apply (Hlow j). lia.
      * intros j Hj. rewrite (Hhigh j) by lia. simpl.
        apply list_lookup_insert_ne. lia.
Qed.

Lemma getPrevElementNodes_spec (s : state) (L lo hi : list addr) (k : bytes) :
  Inv s L -> L = lo ++ hi ->
  (forall a, a ∈ lo -> Compare (akey (heap s) a) k < 0) ->
  (forall a, a ∈ hi -> Compare k (akey (heap s) a) <= 0) ->
  maxLevel (sl s) <= DefaultMaxLevel ->
  exists c,
    getPrevElementNodes k s = (Done c, with_sl s (sl_with_prevs (sl s) c))
    /\ length c = length (prevNodesCache (sl s))
    /\ (forall j, (j < Z.to_nat (maxLevel (sl s)))%nat ->
                  c !! j = Some (Some (pred_at s lo j))).
Proof.
  intros HI HL Hlo Hhi Hml.
  destruct (prev_levels_spec L lo hi k (length (heap s)) HL (Inv_length s L HI)
              (Z.to_nat (maxLevel (sl s))) s Sentinel [] lo HI Hlo Hhi
              (position_start s lo _))
    as (c & Hrun & Hlen & Hlow & _).
  { rewrite (inv_sentinel s L HI). unfold DefaultMaxLevel in *. lia. }
  exists c. split; [|auto].
  unfold getPrevElementNodes, walk_bound, levels.
  unfold bind at 1. unfold gets at 1. unfold bind at 1. unfold gets at 1.
  rewrite (bind_Done _ _ _ _ _ Hrun). reflexivity.
Qed.

(** A list with more levels than the sentinel has slots: the first step of
    every search indexes the sentinel's forward array out of range. *)
Lemma NextAt_Sentinel_out (s : state) (i : nat) :
  (length (next (sentinel (sl s))) <= i)%nat ->
  NextAt Sentinel i s = (Panic, s).
Proof.
  intros Hi. rewrite NextAt_slot. unfold slot. simpl.
  rewrite lookup_ge_None_2 by assumption. reflexivity.
Qed.

Lemma getPrevElementNodes_Panic (s : state) (k : bytes) :
  (length (next (sentinel (sl s))) < Z.to_nat (maxLevel (sl s)))%nat ->
  getPrevElementNodes k s = (Panic, s).
Proof.
  intros Hlt. unfold getPrevElementNodes, walk_bound, levels.
  unfold bind at 1. unfold gets at 1. unfold bind at 1. unfold gets at 1.
  destruct (Z.to_nat (maxLevel (sl s))) as [|i] eqn:E; [lia|].
  simpl prev_levels.
  rewrite (bind_Panic _ _ s s); [reflexivity|].
  apply bind_Panic. apply NextAt_Sentinel_out. lia.
Qed.

Lemma Get_body_Panic (s : state) (k : bytes) :
  (length (next (sentinel (sl s))) < Z.to_nat (maxLevel (sl s)))%nat ->
  Get_body k s = (Panic, s).
Proof.
  intros Hlt. unfold Get_body, walk_bound, levels.
  unfold bind at 1. unfold gets at 1. unfold bind at 1. unfold gets at 1.
  destruct (Z.to_nat (maxLevel (sl s))) as [|i] eqn:E; [lia|].
  simpl Get_levels.
  rewrite (bind_Panic _ _ s s); [reflexivity|].
  apply bind_Panic. apply NextAt_Sentinel_out. lia.
Qed.

(** ** The lock *)

Lemma with_lock_run {A} (body : M A) (s s' : state) (o : outcome A) :
  mutex (sl s) = false ->
  body (set_mutex true s) = (o, s') ->
  with_lock body s = (o, set_mutex false s').
Proof. unfold with_lock. intros -> ->. reflexivity. Qed.

Lemma set_mutex_restore (s : state) :
  mutex (sl s) = false -> set_mutex false (set_mutex true s) = s.
Proof. destruct s as [h [? ? ? ? ? ? ? ?]]. simpl. intros ->. reflexivity. Qed.

Lemma Inv_set_mutex (s : state) (L : list addr) (b : bool) :
  Inv s L -> Inv (set_mutex b s) L.
Proof.
  intros HI. apply (Inv_same s); simpl; try reflexivity; apply HI.
Qed.

(** ** The candidate *)

Lemma pred_at_slot (s : state) (L lo hi : list addr) (j : nat) :
  Inv s L -> L = lo ++ hi ->
  (j < length (next (sentinel (sl s))))%nat ->
  slot s (pred_at s lo j) j = Some (first_tall (heap s) j hi).
Proof.
  intros HI HL Hj. unfold pred_at.
  destruct (last_tall_cases (heap s) j Sentinel lo)
    as [[Hn ->]|(u & b & w & -> & Hb & Hw & ->)].
  - rewrite (inv_head s L HI j Hj), HL, first_tall_app, Hn. reflexivity.
  - rewrite (inv_link s L HI u b (w ++ hi) j); [|rewrite HL, <- app_assoc; reflexivity|assumption].
    rewrite first_tall_app, Hw. reflexivity.
Qed.

Lemma first_tall_0 (s : state) (L l : list addr) :
  Inv s L -> l ⊆ L -> first_tall (heap s) 0 l = head l.
Proof.
  intros HI Hsub. destruct l as [|a l]; [reflexivity|]. simpl.
  destruct (inv_height s L HI a) as [Ha _]; [set_solver|].
  destruct (decide (0 < height (heap s) a)%nat); [reflexivity|lia].
Qed.

Lemma lookup_key_None (h : list Element) (k : bytes) (l : list addr) :
  (forall a, a ∈ l -> Compare (akey h a) k <> 0) -> lookup_key h k l = None.
Proof.
  induction l as [|a l IH]; intros H; simpl; [reflexivity|].
  destruct (Z.eqb_spec (Compare (akey h a) k) 0) as [E|E].
  - exfalso. apply (H a); [set_solver|assumption].
  - apply IH. intros b Hb. apply H. set_solver.
Qed.

Lemma lookup_key_app_None (h : list Element) (k : bytes) (l1 l2 : list addr) :
  (forall a, a ∈ l1 -> Compare (akey h a) k <> 0) ->
  lookup_key h k (l1 ++ l2) = lookup_key h k l2.
Proof.
  induction l1 as [|a l1 IH]; intros H; simpl; [reflexivity|].
  destruct (Z.eqb_spec (Compare (akey h a) k) 0) as [E|E].
  - exfalso. apply (H a); [set_solver|assumption].
  - apply IH. intros b Hb. apply H. set_solver.
Qed.

Lemma lookup_key_Some (h : list Element) (k : bytes) (l : list addr) (a : addr) :
  lookup_key h k l = Some a -> a ∈ l /\ akey h a = k.
Proof.
  induction l as [|b l IH]; simpl; [discriminate|].
  destruct (Z.eqb_spec (Compare (akey h b) k) 0) as [E|E].
  - intros [= ->]. split; [set_solver|]. apply Compare_eq. assumption.
  - intros H. destruct (IH H). split; [set_solver|assumption].
Qed.

Lemma lookup_key_split (h : list Element) (k : bytes) (lo hi : list addr) :
  StronglySorted (key_lt h) (lo ++ hi) ->
  (forall a, a ∈ lo -> Compare (akey h a) k < 0) ->
  (forall a, a ∈ hi -> Compare k (akey h a) <= 0) ->
  lookup_key h k (lo ++ hi) = hit_of h k hi.
Proof.
  intros Hs Hlo Hhi.
  rewrite lookup_key_app_None by (intros a Ha; specialize (Hlo a Ha); lia).
  destruct hi as [|c hi]; [reflexivity|]. simpl.
  assert (Hc : Compare k (akey h c) <= 0) by (apply Hhi; set_solver).
  rewrite (Compare_antisym (akey h c) k) in Hc.
  destruct (Z.eqb_spec (Compare (akey h c) k) 0) as [E|E];
    destruct (Z.leb_spec (Compare (akey h c) k) 0) as [E'|E']; try lia; try reflexivity.
  apply lookup_key_None. intros b Hb.
  apply StronglySorted_app_1_r in Hs. apply StronglySorted_cons in Hs as [Hall _].
  rewrite Forall_forall in Hall. specialize (Hall b Hb). unfold key_lt in Hall.
  assert (Hkc : Compare k (akey h c) < 0) by (rewrite Compare_antisym; lia).
  pose proof (Compare_lt_le_trans k (akey h c) (akey h b) Hkc ltac:(lia)) as Hkb.
  rewrite (Compare_antisym (akey h b) k) in Hkb. lia.
Qed.

Lemma hit_of_Some (h : list Element) (k : bytes) (hi : list addr) (c : addr) :
  (forall a, a ∈ hi -> Compare k (akey h a) <= 0) ->
  hit_of h k hi = Some c -> exists hi', hi = c :: hi' /\ akey h c = k.
Proof.
  intros Hhi. destruct hi as [|c' hi']; simpl; [discriminate|].
  destruct (Z.leb_spec (Compare (akey h c') k) 0) as [E|E]; [|discriminate].
  intros [= ->]. exists hi'. split; [reflexivity|].
  apply Compare_eq. specialize (Hhi c ltac:(set_solver)).
  rewrite (Compare_antisym (akey h c) k) in Hhi. lia.
Qed.

Lemma matches_spec (s : state) (L hi : list addr) (k : bytes) :
  Inv s L -> hi ⊆ L ->
  matches (head hi) k s = (Done (bool_decide (is_Some (hit_of (heap s) k hi))), s).
Proof.
  intros HI Hsub. destruct hi as [|c hi]; simpl.
  - unfold ret. f_equal. 
  - destruct (Inv_lookup s L c HI ltac:(set_solver)) as (e & He & Hk & _).
    rewrite (bind_Done _ _ s s e (load_Done s c e He)). rewrite Hk. unfold ret.
    destruct (Compare (key e) k <=? 0); reflexivity.
Qed.

(** ** [Get] on a list whose levels fit the sentinel *)

Lemma Get_body_spec (s : state) (L : list addr) (k : bytes) :
  Inv s L -> maxLevel (sl s) <= DefaultMaxLevel ->
  Get_body k s = (Done (lookup_key (heap s) k L), s).
Proof.
  intros HI Hml.
  destruct (sorted_split (heap s) L k (inv_sorted s L HI)) as (lo & hi & HL & Hlo & Hhi).
  pose proof (inv_maxLevel s L HI) as Hrange.
  pose proof (inv_sentinel s L HI) as Hsz.
  unfold Get_body, walk_bound, levels.
  unfold bind at 1. unfold gets at 1. unfold bind at 1. unfold gets at 1.
  rewrite (bind_Done _ _ s s (pred_at s lo 0, first_tall (heap s) 0 hi)).
  2:{ rewrite (Get_levels_spec s L lo hi k HI HL Hlo Hhi (length (heap s))
                 (Inv_length s L HI) _ Sentinel None [] lo (position_start s lo _)).
      - destruct (Z.to_nat (maxLevel (sl s))) eqn:E; [lia|reflexivity].
      - rewrite Hsz. unfold DefaultMaxLevel in *. lia. }
  simpl snd.
  assert (Hsub : hi ⊆ L) by (rewrite HL; set_solver).
  rewrite (first_tall_0 s L hi HI Hsub).
  rewrite (bind_Done _ _ s s _ (matches_spec s L hi k HI Hsub)).
  rewrite HL, (lookup_key_split (heap s) k lo hi) by (rewrite <- ?HL; auto; apply HI).
  destruct hi as [|c hi]; simpl; [reflexivity|].
  destruct (Compare (akey (heap s) c) k <=? 0); reflexivity.
Qed.

Lemma Get_spec (s : state) (L : list addr) (k : bytes) :
  Inv s L -> mutex (sl s) = false -> maxLevel (sl s) <= DefaultMaxLevel ->
  Get k s = (Done (lookup_key (heap s) k L), s).
Proof.
  intros HI Hmx Hml. unfold Get.
  rewrite (with_lock_run _ s (set_mutex true s) (Done (lookup_key (heap s) k L)) Hmx).
  - rewrite set_mutex_restore by assumption. reflexivity.
  - apply (Get_body_spec (set_mutex true s) L k); [apply Inv_set_mutex; assumption|exact Hml].
Qed.

Lemma Get_Panic (s : state) (k : bytes) :
  mutex (sl s) = false ->
  (length (next (sentinel (sl s))) < Z.to_nat (maxLevel (sl s)))%nat ->
  Get k s = (Panic, s).
Proof.
  intros Hmx Hlt. unfold Get.
  rewrite (with_lock_run _ s (set_mutex true s) Panic Hmx).
  - rewrite set_mutex_restore by assumption. reflexivity.
  - apply Get_body_Panic. exact Hlt.
Qed.

(** ** Stores into forward arrays *)

Lemma same_shape_refl (s : state) : same_shape s s.
Proof. constructor; reflexivity. Qed.

Lemma same_shape_trans (s1 s2 s3 : state) :
  same_shape s1 s2 -> same_shape s2 s3 -> same_shape s1 s3.
Proof.
  intros [] []. constructor; try congruence; intros a; etransitivity; eauto.
Qed.

Lemma store_next_spec (s : state) (n : nodeRef) (i : nat) (p : option addr) :
  is_Some (slot s n i) ->
  exists s',
    store_next n i p s = (Done tt, s')
    /\ same_shape s s'
    /\ (forall n' i', slot s' n' i' =
                      if decide (n' = n /\ i' = i) then Some p else slot s n' i').
Proof.
  intros [q Hq]. unfold slot in Hq.
  destruct n as [|a]; simpl in Hq.
  - assert (Hi : (i < length (next (sentinel (sl s))))%nat)
      by (eapply lookup_lt_Some; eassumption).
    eexists. split; [|split].
    + unfold store_next, load_node. unfold bind, gets.
      destruct (decide (i < length (next (sentinel (sl s))))%nat); [|lia].
      unfold modify. reflexivity.
    + constructor; simpl; try reflexivity. apply length_insert.
    + intros n' i'. unfold slot. destruct n' as [|b]; simpl.
      * destruct (decide (Sentinel = Sentinel /\ i' = i)) as [[_ ->]|Hne].
        -- apply list_lookup_insert_eq. assumption.
        -- apply list_lookup_insert_ne. intros ->. apply Hne. auto.
      * destruct (decide (ElemNode b = Sentinel /\ i' = i)) as [[? _]|_];
          [discriminate|reflexivity].
  - destruct (heap s !! a) as [e|] eqn:He; simpl in Hq; [|discriminate].
    assert (Hi : (i < length (next (node e)))%nat)
      by (eapply lookup_lt_Some; eassumption).
    eexists. split; [|split].
    + unfold store_next, load_node.
      rewrite (bind_Done _ _ s s (node e)).
      2:{ rewrite (bind_Done _ _ s s e (load_Done s a e He)). reflexivity. }
      destruct (decide (i < length (next (node e)))%nat); [|lia].
      unfold modify. reflexivity.
    + constructor; simpl; try reflexivity.
      * apply length_alter.
      * intros b. unfold height. rewrite list_lookup_alter.
        case_decide; [subst b|reflexivity].
        rewrite !He. simpl. apply length_insert.
      * intros b. unfold akey. rewrite list_lookup_alter.
        case_decide; [subst b|reflexivity].
        rewrite !He. reflexivity.
      * intros b. unfold avalue. rewrite list_lookup_alter.
        case_decide; [subst b|reflexivity].
        rewrite !He. reflexivity.
    + intros n' i'. unfold slot. destruct n' as [|b]; simpl.
      * destruct (decide (Sentinel = ElemNode a /\ i' = i)) as [[? _]|_];
          [discriminate|reflexivity].
      * rewrite list_lookup_alter.
        case_decide as Hab.
        -- subst b. rewrite !He. simpl.
           destruct (decide (ElemNode a = ElemNode a /\ i' = i)) as [[_ ->]|Hne].
           ++ apply list_lookup_insert_eq. assumption.
           ++ apply list_lookup_insert_ne. intros ->. apply Hne. auto.
        -- destruct (decide (ElemNode b = ElemNode a /\ i' = i)) as [[[= ->] _]|_];
             [congruence|reflexivity].
Qed.

(** A [for ... range] loop whose body keeps an invariant indexed by the
    number of rounds done. *)
Lemma for_each_seq_inv (I : nat -> state -> Prop) (body : nat -> M unit) (n : nat) :
  (forall j s, (j < n)%nat -> I j s ->
               exists s', body j s = (Done tt, s') /\ I (S j) s') ->
  forall (m j : nat) (s : state),
    (j + m = n)%nat -> I j s ->
    exists s', for_each (seq j m) body s = (Done tt, s') /\ I n s'.
Proof.
  intros Hbody. induction m as [|m IH]; intros j s Hjm HI.
  - exists s. simpl. replace n with j by lia. auto.
  - destruct (Hbody j s ltac:(lia) HI) as (s1 & Hrun & HI1).
    destruct (IH (S j) s1 ltac:(lia) HI1) as (s' & Hrun' & HI').
    exists s'. split; [|assumption]. simpl.
    rewrite (bind_Done _ _ s s1 tt Hrun). assumption.
Qed.

Lemma for_range_inv (I : nat -> state -> Prop) (body : nat -> M unit) (n : nat)
      (s : state) :
  I O s ->
  (forall j s, (j < n)%nat -> I j s ->
               exists s', body j s = (Done tt, s') /\ I (S j) s') ->
  exists s', for_range n body s = (Done tt, s') /\ I n s'.
Proof.
  intros H0 Hbody. unfold for_range.
  apply (for_each_seq_inv I body n Hbody n O s); [lia|assumption].
Qed.

(** ** Relinking keeps the invariant *)

Lemma wrap64_add (x y : Z) : wrap64 (wrap64 x + y) = wrap64 (x + y).
Proof.
  unfold wrap64.
  replace ((x + 2 ^ 63) mod 2 ^ 64 - 2 ^ 63 + y + 2 ^ 63)
    with ((x + 2 ^ 63) mod 2 ^ 64 + y) by lia.
  rewrite Zplus_mod_idemp_l. f_equal. f_equal. lia.
Qed.

Lemma wrap64_sub (x y : Z) : wrap64 (wrap64 x - y) = wrap64 (x - y).
Proof. rewrite <- !Z.add_opp_r. apply wrap64_add. Qed.

Lemma wrap64_small (x : Z) : - 2 ^ 63 <= x < 2 ^ 63 -> wrap64 x = x.
Proof. intros H. unfold wrap64. rewrite Z.mod_small; lia. Qed.

Lemma sorted_ext (h h' : list Element) (l : list addr) :
  (forall b, b ∈ l -> akey h' b = akey h b) ->
  StronglySorted (key_lt h) l -> StronglySorted (key_lt h') l.
Proof.
  intros Hk Hs. induction Hs as [|b l Hs IH Hall]; constructor.
  - apply IH. intros c Hc. apply Hk. set_solver.
  - rewrite Forall_forall in *. intros c Hc. unfold key_lt.
    rewrite !Hk by set_solver. apply Hall. assumption.
Qed.

Lemma pred_at_not_in (s : state) (lo : list addr) (i : nat) (b : addr) :
  b ∉ lo -> ElemNode b <> pred_at s lo i.
Proof.
  intros Hb Heq. symmetry in Heq. apply last_tall_in in Heq as [Hin _]. auto.
Qed.

Section Insert.

Variables s s' : state.
Variables lo hi : list addr.
Variable a : addr.
Variable k : bytes.
Variable hgt : nat.

Hypothesis HI : Inv s (lo ++ hi).
Hypothesis Hfresh : height (heap s) a = O.
Hypothesis Hlo : forall b, b ∈ lo -> Compare (akey (heap s) b) k < 0.
Hypothesis Hhi : forall b, b ∈ hi -> Compare k (akey (heap s) b) < 0.
Hypothesis Hhgt : (1 <= hgt)%nat /\ Z.of_nat hgt <= maxLevel (sl s).
Hypothesis Hheight_a : height (heap s') a = hgt.
Hypothesis Hheight : forall b, b <> a -> height (heap s') b = height (heap s) b.
Hypothesis Hkey_a : akey (heap s') a = k.
Hypothesis Hkey : forall b, b <> a -> akey (heap s') b = akey (heap s) b.
Hypothesis Hslot : forall n i,
  slot s' n i =
  if decide (i < hgt)%nat then
    if decide (n = pred_at s lo i) then Some (Some a)
    else if decide (n = ElemNode a) then Some (first_tall (heap s) i hi)
    else slot s n i
  else slot s n i.
Hypothesis Hsentinel :
  length (next (sentinel (sl s'))) = length (next (sentinel (sl s))).
Hypothesis Hprevs : length (prevNodesCache (sl s')) = Z.to_nat DefaultMaxLevel.
Hypothesis HmaxLevel : maxLevel (sl s') = maxLevel (sl s).
Hypothesis HprobTable : length (probTable (sl s')) = length (probTable (sl s)).
Hypothesis HLength : Length (sl s') = wrap64 (Length (sl s) + 1).
Hypothesis Hfit : maxLevel (sl s) <= DefaultMaxLevel.

Lemma insert_fresh : a ∉ lo ++ hi.
Proof.
  intros Hin. destruct (inv_height s _ HI a Hin) as [H1 _]. lia.
Qed.

Lemma insert_other (b : addr) : b ∈ lo ++ hi -> b <> a.
Proof. intros Hb ->. apply insert_fresh. assumption. Qed.

Lemma insert_first_tall (i : nat) (l : list addr) :
  l ⊆ lo ++ hi -> first_tall (heap s') i l = first_tall (heap s) i l.
Proof.
  intros Hsub. apply first_tall_ext. intros b Hb. apply Hheight, insert_other. auto.
Qed.

Lemma insert_first_tall_new (i : nat) (l1 l2 : list addr) :
  l1 ⊆ lo ++ hi -> l2 ⊆ lo ++ hi ->
  first_tall (heap s') i (l1 ++ a :: l2) =
  match first_tall (heap s) i l1 with
  | Some x => Some x
  | None => if decide (i < hgt)%nat then Some a else first_tall (heap s) i l2
  end.
Proof.
  intros H1 H2. rewrite first_tall_app. simpl.
  rewrite Hheight_a, !insert_first_tall by assumption. reflexivity.
Qed.

Lemma insert_sorted : StronglySorted (key_lt (heap s')) (lo ++ a :: hi).
Proof.
  pose proof (inv_sorted s _ HI) as Hs.
  assert (Hs' : StronglySorted (key_lt (heap s')) (lo ++ hi)).
  { eapply sorted_ext; [|exact Hs]. intros b Hb. apply Hkey, insert_other. assumption. }
  apply StronglySorted_app in Hs' as (Hcross & Hslo & Hshi).
  apply StronglySorted_app_2; [|assumption|].
  - intros x1 x2 H1 H2. apply elem_of_cons in H2 as [->|H2]; [|auto].
    unfold key_lt. rewrite Hkey_a, Hkey by (apply insert_other; set_solver). auto.
  - constructor; [assumption|]. rewrite Forall_forall. intros b Hb.
    unfold key_lt. rewrite Hkey_a, Hkey by (apply insert_other; set_solver). auto.
Qed.

Lemma insert_Inv : Inv s' (lo ++ a :: hi).
Proof.
  pose proof insert_fresh as Hnotin.
  pose proof (Inv_NoDup s _ HI) as Hnd.
  pose proof insert_sorted as Hsorted.
  pose proof (sorted_NoDup _ _ Hsorted) as Hnd'.
  assert (Hlo_sub : lo ⊆ lo ++ hi) by set_solver.
  assert (Hhi_sub : hi ⊆ lo ++ hi) by set_solver.
  constructor.
  - exact Hsorted.
  - intros b Hb. rewrite HmaxLevel.
    destruct (decide (b = a)) as [->|Hne].
    + rewrite Hheight_a. exact Hhgt.
    + rewrite Hheight by assumption. apply (inv_height s _ HI). set_solver.
  - intros i Hi. rewrite Hsentinel in Hi.
    rewrite Hslot, (insert_first_tall_new i lo hi Hlo_sub Hhi_sub).
    rewrite (inv_head s _ HI i Hi), first_tall_app.
    destruct (decide (i < hgt)%nat) as [Hlt|Hge]; [|reflexivity].
    destruct (decide (Sentinel = pred_at s lo i)) as [Heq|Hne].
    + symmetry in Heq. apply last_tall_Sentinel in Heq. rewrite Heq. reflexivity.
    + destruct (first_tall (heap s) i lo) as [x|] eqn:Hx.
      * destruct (decide (Sentinel = ElemNode a)); [discriminate|reflexivity].
      * exfalso. apply Hne. symmetry. apply last_tall_Sentinel. assumption.
  - intros l1 b l2 i Hsplit Hi.
    assert (Hb : b ∈ lo ++ a :: hi) by (rewrite Hsplit; set_solver).
    rewrite Hslot.
    destruct (decide (b = a)) as [->|Hne].
    + destruct (NoDup_split_unique lo hi l1 l2 a Hnd' Hsplit) as [<- <-].
      rewrite Hheight_a in Hi.
      destruct (decide (i < hgt)%nat); [|lia].
      destruct (decide (ElemNode a = pred_at s lo i)) as [Heq|_].
      { exfalso. revert Heq. apply pred_at_not_in. set_solver. }
      destruct (decide (ElemNode a = ElemNode a)); [|congruence].
      rewrite insert_first_tall by assumption. reflexivity.
    + rewrite Hheight in Hi by assumption.
      assert (Hb' : b ∈ lo \/ b ∈ hi) by set_solver.
      destruct Hb' as [Hblo|Hbhi].
      * apply list_elem_of_split in Hblo as (u & w & Hlo_eq).
        assert (Hsplit' : lo ++ a :: hi = u ++ b :: (w ++ a :: hi))
          by (rewrite Hlo_eq, <- app_assoc; reflexivity).
        rewrite Hsplit in Hsplit'.
        assert (Hnd2 : NoDup (l1 ++ b :: l2)) by (rewrite <- Hsplit; exact Hnd').
        destruct (NoDup_split_unique l1 l2 u (w ++ a :: hi) b Hnd2 Hsplit') as [-> ->].
        assert (Hw_sub : w ⊆ lo ++ hi) by (rewrite Hlo_eq; set_solver).
        rewrite (insert_first_tall_new i w hi Hw_sub Hhi_sub).
        assert (Hold : slot s (ElemNode b) i = Some (first_tall (heap s) i (w ++ hi))).
        { apply (inv_link s _ HI u b (w ++ hi) i); [|assumption].
          rewrite Hlo_eq, <- app_assoc. reflexivity. }
        assert (Hndlo : NoDup (u ++ b :: w)).
        { rewrite <- Hlo_eq. apply NoDup_app in Hnd as [? _]. assumption. }
        pose proof (last_tall_at (heap s) i Sentinel u w b Hndlo Hi) as Hat.
        rewrite <- Hlo_eq in Hat. fold (pred_at s lo i) in Hat.
        rewrite first_tall_app in Hold.
        destruct (decide (i < hgt)%nat) as [Hlt|Hge]; [|exact Hold].
        destruct (decide (ElemNode b = pred_at s lo i)) as [Heq|Hneq].
        -- symmetry in Heq. apply Hat in Heq. rewrite Heq. reflexivity.
        -- destruct (decide (ElemNode b = ElemNode a)) as [[= ->]|_]; [congruence|].
           destruct (first_tall (heap s) i w) as [x|] eqn:Hx; [exact Hold|].
           exfalso. apply Hneq. symmetry. apply Hat. reflexivity.
      * apply list_elem_of_split in Hbhi as (u & w & Hhi_eq).
        assert (Hsplit' : lo ++ a :: hi = (lo ++ a :: u) ++ b :: w)
          by (rewrite Hhi_eq, <- app_assoc; reflexivity).
        rewrite Hsplit in Hsplit'.
        assert (Hnd2 : NoDup (l1 ++ b :: l2)) by (rewrite <- Hsplit; exact Hnd').
        destruct (NoDup_split_unique l1 l2 (lo ++ a :: u) w b Hnd2 Hsplit') as [-> ->].
        assert (Hw_sub : w ⊆ lo ++ hi) by (rewrite Hhi_eq; set_solver).
        rewrite (insert_first_tall i w Hw_sub).
        assert (Hold : slot s (ElemNode b) i = Some (first_tall (heap s) i w)).
        { apply (inv_link s _ HI (lo ++ u) b w i); [|assumption].
          rewrite Hhi_eq, <- app_assoc. reflexivity. }
        assert (Hbnotlo : b ∉ lo).
        { apply NoDup_app in Hnd as (_ & Hdisj & _). intros Hin.
          apply (Hdisj b Hin). rewrite Hhi_eq. set_solver. }
        destruct (decide (i < hgt)%nat) as [Hlt|Hge]; [|exact Hold].
        destruct (decide (ElemNode b = pred_at s lo i)) as [Heq|_].
        { exfalso. revert Heq. apply pred_at_not_in. assumption. }
        destruct (decide (ElemNode b = ElemNode a)) as [[= ->]|_]; [congruence|].
        exact Hold.
  - rewrite Hsentinel. apply HI.
  - exact Hprevs.
  - rewrite HmaxLevel. apply HI.
  - rewrite HmaxLevel, HprobTable. apply HI.
  - rewrite HmaxLevel. lia.
  - rewrite HLength, (inv_Length s _ HI), wrap64_add. f_equal.
    rewrite !length_app. simpl. lia.
Qed.

End Insert.

Section Unlink.

Variables s s' : state.
Variables lo hi : list addr.
Variable a : addr.

Hypothesis HI : Inv s (lo ++ a :: hi).
Hypothesis Hheight : forall b, height (heap s') b = height (heap s) b.
Hypothesis Hkey : forall b, akey (heap s') b = akey (heap s) b.
Hypothesis Hslot : forall n i,
  slot s' n i =
  if decide (i < height (heap s) a)%nat then
    if decide (n = pred_at s lo i) then Some (first_tall (heap s) i hi)
    else slot s n i
  else slot s n i.
Hypothesis Hsentinel :
  length (next (sentinel (sl s'))) = length (next (sentinel (sl s))).
Hypothesis Hprevs : length (prevNodesCache (sl s')) = Z.to_nat DefaultMaxLevel.
Hypothesis HmaxLevel : maxLevel (sl s') = maxLevel (sl s).
Hypothesis HprobTable : length (probTable (sl s')) = length (probTable (sl s)).
Hypothesis HLength : Length (sl s') = wrap64 (Length (sl s) - 1).

Lemma unlink_first_tall (i : nat) (l : list addr) :
  first_tall (heap s') i l = first_tall (heap s) i l.
Proof. apply first_tall_ext. intros b _. apply Hheight. Qed.

Lemma unlink_sorted : StronglySorted (key_lt (heap s')) (lo ++ hi).
Proof.
  pose proof (inv_sorted s _ HI) as Hs.
  apply (sorted_ext (heap s)); [intros b _; apply Hkey|].
  apply StronglySorted_app in Hs as (Hcross & Hslo & Hshi).
  apply StronglySorted_cons in Hshi as [_ Hshi].
  apply StronglySorted_app_2; [|assumption|assumption].
  intros x1 x2 H1 H2. apply Hcross; set_solver.
Qed.

Lemma unlink_Inv : Inv s' (lo ++ hi).
Proof.
  pose proof (Inv_NoDup s _ HI) as Hnd.
  pose proof unlink_sorted as Hsorted.
  pose proof (sorted_NoDup _ _ Hsorted) as Hnd'.
  constructor.
  - exact Hsorted.
  - intros b Hb. rewrite HmaxLevel, Hheight. apply (inv_height s _ HI). set_solver.
  - intros i Hi. rewrite Hsentinel in Hi.
    rewrite Hslot, unlink_first_tall, (inv_head s _ HI i Hi), !first_tall_app.
    simpl.
    destruct (decide (i < height (heap s) a)%nat) as [Hlt|Hge]; [|reflexivity].
    destruct (decide (Sentinel = pred_at s lo i)) as [Heq|Hne].
    + symmetry in Heq. apply last_tall_Sentinel in Heq. rewrite Heq. reflexivity.
    + destruct (first_tall (heap s) i lo) as [x|] eqn:Hx; [reflexivity|].
      exfalso. apply Hne. symmetry. apply last_tall_Sentinel. assumption.
  - intros l1 b l2 i Hsplit Hi. rewrite Hheight in Hi.
    assert (Hb : b ∈ lo ++ hi) by (rewrite Hsplit; set_solver).
    rewrite Hslot, unlink_first_tall.
    assert (Hnd2 : NoDup (l1 ++ b :: l2)) by (rewrite <- Hsplit; exact Hnd').
    apply elem_of_app in Hb as [Hblo|Hbhi].
    + apply list_elem_of_split in Hblo as (u & w & Hlo_eq).
      assert (Hsplit' : lo ++ hi = u ++ b :: (w ++ hi))
        by (rewrite Hlo_eq, <- app_assoc; reflexivity).
      rewrite Hsplit in Hsplit'.
      destruct (NoDup_split_unique l1 l2 u (w ++ hi) b Hnd2 Hsplit') as [-> ->].
      assert (Hold : slot s (ElemNode b) i
                     = Some (first_tall (heap s) i (w ++ a :: hi))).
      { apply (inv_link s _ HI u b (w ++ a :: hi) i); [|assumption].
        rewrite Hlo_eq, <- app_assoc. reflexivity. }
      assert (Hndlo : NoDup (u ++ b :: w)).
      { rewrite <- Hlo_eq. apply NoDup_app in Hnd as [? _]. assumption. }
      pose proof (last_tall_at (heap s) i Sentinel u w b Hndlo Hi) as Hat.
      rewrite <- Hlo_eq in Hat. fold (pred_at s lo i) in Hat.
      rewrite first_tall_app in Hold. simpl in Hold. rewrite first_tall_app.
      destruct (decide (i < height (heap s) a)%nat) as [Hlt|Hge]; [|exact Hold].
      destruct (decide (ElemNode b = pred_at s lo i)) as [Heq|Hneq].
      * symmetry in Heq. apply Hat in Heq. rewrite Heq. reflexivity.
      * destruct (first_tall (heap s) i w) as [x|] eqn:Hx; [exact Hold|].
        exfalso. apply Hneq. symmetry. apply Hat. reflexivity.
    + apply list_elem_of_split in Hbhi as (u & w & Hhi_eq).
      assert (Hsplit' : lo ++ hi = (lo ++ u) ++ b :: w)
        by (rewrite Hhi_eq, <- app_assoc; reflexivity).
      rewrite Hsplit in Hsplit'.
      destruct (NoDup_split_unique l1 l2 (lo ++ u) w b Hnd2 Hsplit') as [-> ->].
      assert (Hold : slot s (ElemNode b) i = Some (first_tall (heap s) i w)).
      { apply (inv_link s _ HI (lo ++ a :: u) b w i); [|assumption].
        rewrite Hhi_eq, <- app_assoc. reflexivity. }
      assert (Hbnotlo : b ∉ lo).
      { apply NoDup_app in Hnd as (_ & Hdisj & _). intros Hin.
        apply (Hdisj b Hin). rewrite Hhi_eq. set_solver. }
      destruct (decide (i < height (heap s) a)%nat) as [Hlt|Hge]; [|exact Hold].
      destruct (decide (ElemNode b = pred_at s lo i)) as [Heq|_]; [|exact Hold].
      exfalso. revert Heq. apply pred_at_not_in. assumption.
  - rewrite Hsentinel. apply HI.
  - exact Hprevs.
  - rewrite HmaxLevel. apply HI.
  - rewrite HmaxLevel, HprobTable. apply HI.
  - rewrite HmaxLevel. intros Hbig.
    pose proof (inv_overflow s _ HI Hbig) as Hnil.
    destruct lo; discriminate.
  - rewrite HLength, (inv_Length s _ HI), wrap64_sub. f_equal.
    rewrite !length_app. simpl. lia.
Qed.

End Unlink.

(** ** The height draw *)

Lemma randLevel_loop_spec (s : state) (r : float64) :
  (Z.to_nat (maxLevel (sl s)) <= length (probTable (sl s)))%nat ->
  forall (n : nat) (level : Z),
    1 <= level <= maxLevel (sl s) ->
    maxLevel (sl s) - level <= Z.of_nat n ->
    exists l, randLevel_loop n r level s = (Done l, s)
              /\ level <= l <= maxLevel (sl s).
Proof.
  intros Htab. induction n as [|n IH]; intros level Hlevel Hn.
  - assert (level = maxLevel (sl s)) as -> by lia.
    exists (maxLevel (sl s)). split; [|lia].
    simpl. unfold bind at 1. unfold gets at 1.
    rewrite Z.ltb_irrefl. reflexivity.
  - simpl. unfold bind at 1. unfold gets at 1.
    destruct (Z.ltb_spec level (maxLevel (sl s))) as [Hlt|Hge].
    + unfold bind at 1. unfold gets at 1.
      destruct (lookup_lt_is_Some_2 (probTable (sl s)) (Z.to_nat level) ltac:(lia))
        as [p Hp].
      unfold bind, index. rewrite Hp. unfold ret at 1.
      destruct (PrimFloat.ltb r p).
      * destruct (IH (level + 1) ltac:(lia) ltac:(lia)) as (l & Hrun & Hl).
        exists l. split; [exact Hrun|lia].
      * exists level. split; [reflexivity|lia].
    + exists level. split; [reflexivity|lia].
Qed.

Lemma randLevel_spec (s : state) :
  1 <= maxLevel (sl s) ->
  (Z.to_nat (maxLevel (sl s)) <= length (probTable (sl s)))%nat ->
  exists h src,
    randLevel s = (Done h, with_sl s (sl_with_randSource (sl s) src))
    /\ 1 <= h <= maxLevel (sl s).
Proof.
  intros Hml Htab.
  set (src := snd (Int63 (randSource (sl s)))).
  set (s1 := with_sl s (sl_with_randSource (sl s) src)).
  destruct (randLevel_loop_spec s1
              (PrimFloat.div (float64_of_int (fst (Int63 (randSource (sl s))))) two63)
              Htab (Z.to_nat (maxLevel (sl s))) 1 ltac:(simpl; lia) ltac:(simpl; lia))
    as (l & Hrun & Hl).
  exists l, src. split; [|exact Hl].
  unfold randLevel. unfold bind at 1. unfold gets at 1. simpl.
  unfold bind at 1. unfold modify at 1.
  unfold bind at 1. unfold levels, gets at 1.
  exact Hrun.
Qed.

(** ** Allocation *)

Lemma height_alloc (h : list Element) (e : Element) (b : addr) :
  height (h ++ [e]) b =
  if decide (b = length h) then length (next (node e)) else height h b.
Proof.
  unfold height. destruct (decide (b = length h)) as [->|Hne].
  - rewrite list_lookup_middle by reflexivity. reflexivity.
  - destruct (decide (b < length h)%nat).
    + rewrite lookup_app_l by assumption. reflexivity.
    + rewrite !lookup_ge_None_2; [reflexivity|lia|rewrite length_app; simpl; lia].
Qed.

Lemma akey_alloc (h : list Element) (e : Element) (b : addr) :
  akey (h ++ [e]) b = if decide (b = length h) then key e else akey h b.
Proof.
  unfold akey. destruct (decide (b = length h)) as [->|Hne].
  - rewrite list_lookup_middle by reflexivity. reflexivity.
  - destruct (decide (b < length h)%nat).
    + rewrite lookup_app_l by assumption. reflexivity.
    + rewrite !lookup_ge_None_2; [reflexivity|lia|rewrite length_app; simpl; lia].
Qed.

Lemma avalue_alloc (h : list Element) (e : Element) (b : addr) :
  avalue (h ++ [e]) b = if decide (b = length h) then Some (value e) else avalue h b.
Proof.
  unfold avalue. destruct (decide (b = length h)) as [->|Hne].
  - rewrite list_lookup_middle by reflexivity. reflexivity.
  - destruct (decide (b < length h)%nat).
    + rewrite lookup_app_l by assumption. reflexivity.
    + rewrite !lookup_ge_None_2; [reflexivity|lia|rewrite length_app; simpl; lia].
Qed.

Lemma slot_alloc (s : state) (e : Element) (n : nodeRef) (i : nat) :
  slot (with_heap s (heap s ++ [e])) n i =
  if decide (n = ElemNode (length (heap s))) then next (node e) !! i else slot s n i.
Proof.
  unfold slot. destruct n as [|b]; simpl.
  - destruct (decide (Sentinel = ElemNode (length (heap s)))); [discriminate|reflexivity].
  - destruct (decide (ElemNode b = ElemNode (length (heap s)))) as [[= ->]|Hne].
    + rewrite list_lookup_middle by reflexivity. reflexivity.
    + assert (b <> length (heap s)) by congruence.
      destruct (decide (b < length (heap s))%nat).
      * rewrite lookup_app_l by assumption. reflexivity.
      * rewrite !lookup_ge_None_2; [reflexivity|lia|rewrite length_app; simpl; lia].
Qed.

Lemma height_fresh (h : list Element) : height h (length h) = O.
Proof. unfold height. rewrite lookup_ge_None_2 by lia. reflexivity. Qed.

(** ** The common start of [Set] and [Remove] *)

Lemma Set_body_unfold (k : bytes) (v : V) :
  Set_body k v =
  (let* prevs := getPrevElementNodes k in
   let* p0 := index prevs 0 in
   let* n0 := deref p0 in
   let* element := Next n0 in
   let* hit := matches element k in
   Set_rest k v prevs element hit).
Proof. reflexivity. Qed.

Lemma Remove_body_unfold (k : bytes) :
  Remove_body k =
  (let* prevs := getPrevElementNodes k in
   let* p0 := index prevs 0 in
   let* n0 := deref p0 in
   let* element := Next n0 in
   let* hit := matches element k in
   Remove_rest prevs element hit).
Proof. reflexivity. Qed.

Lemma locate_spec {A} (rest : list (option nodeRef) -> option addr -> bool -> M A)
      (s : state) (L lo hi : list addr) (k : bytes) :
  Inv s L -> L = lo ++ hi ->
  (forall a, a ∈ lo -> Compare (akey (heap s) a) k < 0) ->
  (forall a, a ∈ hi -> Compare k (akey (heap s) a) <= 0) ->
  maxLevel (sl s) <= DefaultMaxLevel ->
  exists c,
    (let* prevs := getPrevElementNodes k in
     let* p0 := index prevs 0 in
     let* n0 := deref p0 in
     let* element := Next n0 in
     let* hit := matches element k in
     rest prevs element hit) s
    = rest c (head hi) (bool_decide (is_Some (hit_of (heap s) k hi)))
           (with_sl s (sl_with_prevs (sl s) c))
    /\ length c = length (prevNodesCache (sl s))
    /\ (forall j, (j < Z.to_nat (maxLevel (sl s)))%nat ->
                  c !! j = Some (Some (pred_at s lo j))).
Proof.
  intros HI HL Hlo Hhi Hml.
  destruct (getPrevElementNodes_spec s L lo hi k HI HL Hlo Hhi Hml)
    as (c & Hrun & Hlen & Hc).
  pose proof (inv_maxLevel s L HI) as Hrange.
  exists c. split; [|auto].
  set (s1 := with_sl s (sl_with_prevs (sl s) c)).
  assert (HI1 : Inv s1 L) by (apply Inv_with_prevs; assumption).
  assert (Hsub : hi ⊆ L) by (rewrite HL; set_solver).
  rewrite (bind_Done _ _ s s1 c Hrun).
  unfold bind at 1. unfold index. rewrite (Hc O) by lia. unfold ret at 1.
  unfold bind at 1. unfold deref, ret at 1.
  rewrite (bind_Done _ _ s1 s1 (head hi)).
  2:{ unfold Next. rewrite NextAt_slot.
      rewrite (slot_same s s1) by reflexivity.
      rewrite (pred_at_slot s L lo hi 0 HI HL)
        by (rewrite (inv_sentinel s L HI); unfold DefaultMaxLevel; lia).
      rewrite (first_tall_0 s L hi HI Hsub). reflexivity. }
  rewrite (bind_Done _ _ s1 s1 _ (matches_spec s1 L hi k HI1 Hsub)).
  reflexivity.
Qed.

Lemma Set_body_Panic (s : state) (k : bytes) (v : V) :
  (length (next (sentinel (sl s))) < Z.to_nat (maxLevel (sl s)))%nat ->
  Set_body k v s = (Panic, s).
Proof.
  intros Hlt. rewrite Set_body_unfold.
  apply bind_Panic, getPrevElementNodes_Panic. exact Hlt.
Qed.

Lemma Remove_body_Panic (s : state) (k : bytes) :
  (length (next (sentinel (sl s))) < Z.to_nat (maxLevel (sl s)))%nat ->
  Remove_body k s = (Panic, s).
Proof.
  intros Hlt. rewrite Remove_body_unfold.
  apply bind_Panic, getPrevElementNodes_Panic. exact Hlt.
Qed.

(** ** [Set] on a key that is present *)

Lemma Inv_obs (s s' : state) (L : list addr) :
  (forall a, height (heap s') a = height (heap s) a) ->
  (forall a, akey (heap s') a = akey (heap s) a) ->
  (forall n i, slot s' n i = slot s n i) ->
  length (next (sentinel (sl s'))) = length (next (sentinel (sl s))) ->
  maxLevel (sl s') = maxLevel (sl s) ->
  Length (sl s') = Length (sl s) ->
  length (probTable (sl s')) = length (probTable (sl s)) ->
  length (prevNodesCache (sl s')) = length (prevNodesCache (sl s)) ->
  Inv s L -> Inv s' L.
Proof.
  intros Hh Hk Hs Hsz Hm Hl Hp Hc [I1 I2 I3 I4 I5 I6 I7 I8 I9 I10].
  assert (Hft : forall i l, first_tall (heap s') i l = first_tall (heap s) i l)
    by (intros; apply first_tall_ext; auto).
  constructor; rewrite ?Hm, ?Hl, ?Hsz, ?Hp, ?Hc; auto.
  - apply (sorted_ext (heap s)); auto.
  - intros a Ha. rewrite Hh. auto.
  - intros i Hi. rewrite Hs, Hft. auto.
  - intros l1 a l2 i HL Hi. rewrite Hs, Hft. rewrite Hh in Hi. eauto.
Qed.

Lemma store_value_spec (s : state) (a : addr) (v : V) (e : Element) :
  heap s !! a = Some e ->
  store_value a v s
  = (Done tt, with_heap s (alter (fun e => with_value e v) a (heap s))).
Proof.
  intros He. unfold store_value.
  rewrite (bind_Done _ _ s s e (load_Done s a e He)). reflexivity.
Qed.

Lemma height_store_value (h : list Element) (a : addr) (v : V) (b : addr) :
  height (alter (fun e => with_value e v) a h) b = height h b.
Proof.
  unfold height. rewrite list_lookup_alter. case_decide; [subst b|reflexivity].
  destruct (h !! a); reflexivity.
Qed.

Lemma akey_store_value (h : list Element) (a : addr) (v : V) (b : addr) :
  akey (alter (fun e => with_value e v) a h) b = akey h b.
Proof.
  unfold akey. rewrite list_lookup_alter. case_decide; [subst b|reflexivity].
  destruct (h !! a); reflexivity.
Qed.

Lemma slot_store_value (s : state) (a : addr) (v : V) (n : nodeRef) (i : nat) :
  slot (with_heap s (alter (fun e => with_value e v) a (heap s))) n i = slot s n i.
Proof.
  unfold slot. destruct n as [|b]; simpl; [reflexivity|].
  rewrite list_lookup_alter. case_decide; [subst b|reflexivity].
  destruct (heap s !! a); reflexivity.
Qed.

Lemma avalue_store_value (h : list Element) (a : addr) (v : V) (b : addr) :
  avalue (alter (fun e => with_value e v) a h) b =
  if decide (b = a) then (fun _ => v) <$> avalue h a else avalue h b.
Proof.
  unfold avalue. rewrite list_lookup_alter.
  destruct (decide (b = a)) as [->|Hne].
  - case_decide; [|congruence]. destruct (h !! a); reflexivity.
  - case_decide; [congruence|reflexivity].
Qed.

Lemma Inv_store_value (s : state) (L : list addr) (a : addr) (v : V) :
  Inv s L -> Inv (with_heap s (alter (fun e => with_value e v) a (heap s))) L.
Proof.
  intros HI. apply (Inv_obs s); simpl; try reflexivity; try assumption.
  - intros b. apply height_store_value.
  - intros b. apply akey_store_value.
  - intros n i. apply slot_store_value.
Qed.

(** The state after [Set] on a present key: the value of the element and
    the scratch buffer change, nothing else. *)
Lemma Set_body_hit (s : state) (L : list addr) (k : bytes) (v : V) (a : addr) :
  Inv s L -> maxLevel (sl s) <= DefaultMaxLevel ->
  lookup_key (heap s) k L = Some a ->
  exists c,
    Set_body k v s
    = (Done a, with_heap (with_sl s (sl_with_prevs (sl s) c))
                         (alter (fun e => with_value e v) a (heap s)))
    /\ length c = length (prevNodesCache (sl s)).
Proof.
  intros HI Hml Hfind.
  destruct (sorted_split (heap s) L k (inv_sorted s L HI)) as (lo & hi & HL & Hlo & Hhi).
  rewrite HL, (lookup_key_split (heap s) k lo hi) in Hfind
    by (rewrite <- ?HL; auto; apply HI).
  destruct (hit_of_Some (heap s) k hi a Hhi Hfind) as (hi' & -> & Hka).
  destruct (locate_spec (Set_rest k v) s L lo (a :: hi') k HI HL Hlo Hhi Hml)
    as (c & Hrun & Hlen & _).
  exists c. split; [|exact Hlen].
  rewrite Set_body_unfold, Hrun, Hfind. simpl.
  destruct (Inv_lookup s L a HI ltac:(rewrite HL; set_solver)) as (e & He & _).
  rewrite (bind_Done _ _ _ _ tt
             (store_value_spec (with_sl s (sl_with_prevs (sl s) c)) a v e He)).
  reflexivity.
Qed.

(** ** [Set] on a key that is absent *)

Lemma splice_step (s0 s3 : state) (L lo hi : list addr) (a : addr) (hgt : nat)
      (c : list (option nodeRef)) (j : nat) (sj : state) :
  Inv s0 L -> L = lo ++ hi ->
  a = length (heap s0) ->
  (forall n i, slot s3 n i =
     if decide (n = ElemNode a) then replicate hgt (@None addr) !! i else slot s0 n i) ->
  (forall i, (i < hgt)%nat -> c !! i = Some (Some (pred_at s0 lo i))) ->
  (hgt <= length (next (sentinel (sl s0))))%nat ->
  (j < hgt)%nat ->
  spliced s0 s3 lo hi a j sj ->
  exists s',
    (let* pi := index c j in
     let* ni := deref pi in
     let* succ := NextAt ni j in
     store_next (ElemNode a) j succ ;;
     store_next ni j (Some a)) sj = (Done tt, s')
    /\ spliced s0 s3 lo hi a (S j) s'.
Proof.
  intros HI HL Ha Hs3 Hc Hsz Hj [Hshape Hslots].
  set (P := pred_at s0 lo j).
  assert (HPa : P <> ElemNode a).
  { intros Heq. symmetry in Heq. revert Heq. apply pred_at_not_in.
    intros Hin. pose proof (Inv_lt_heap s0 L a HI ltac:(rewrite HL; set_solver)). lia. }
  assert (HslotP : slot sj P j = Some (first_tall (heap s0) j hi)).
  { rewrite Hslots. destruct (decide (j < j)%nat); [lia|].
    rewrite Hs3. destruct (decide (P = ElemNode a)); [contradiction|].
    apply (pred_at_slot s0 L lo hi j HI HL). lia. }
  assert (Hslota : slot sj (ElemNode a) j = Some None).
  { rewrite Hslots. destruct (decide (j < j)%nat); [lia|].
    rewrite Hs3. destruct (decide (ElemNode a = ElemNode a)); [|congruence].
    apply lookup_replicate_2. assumption. }
  destruct (store_next_spec sj (ElemNode a) j (first_tall (heap s0) j hi))
    as (s1 & Hrun1 & Hshape1 & Hslots1); [rewrite Hslota; eauto|].
  destruct (store_next_spec s1 P j (Some a)) as (s2 & Hrun2 & Hshape2 & Hslots2).
  { rewrite Hslots1. destruct (decide (P = ElemNode a /\ j = j)) as [[? _]|_];
      [contradiction|]. rewrite HslotP. eauto. }
  exists s2. split.
  - unfold bind at 1. unfold index. rewrite (Hc j Hj). unfold ret at 1.
    unfold bind at 1. unfold deref, ret at 1.
    fold P. rewrite (bind_Done _ _ sj sj (first_tall (heap s0) j hi))
      by (rewrite NextAt_slot, HslotP; reflexivity).
    rewrite (bind_Done _ _ sj s1 tt Hrun1). exact Hrun2.
  - split.
    + eapply same_shape_trans; [exact Hshape|].
      eapply same_shape_trans; eassumption.
    + intros n i. rewrite Hslots2, Hslots1, Hslots.
      destruct (decide (i = j)) as [->|Hne].
      * fold P.
        destruct (decide (j < S j)%nat); [|lia].
        destruct (decide (j < j)%nat); [lia|].
        destruct (decide (n = P)) as [->|HnP].
        -- destruct (decide (P = P /\ j = j)) as [_|Hno]; [reflexivity|].
           exfalso. apply Hno. auto.
        -- destruct (decide (n = P /\ j = j)) as [[? _]|_]; [contradiction|].
           destruct (decide (n = ElemNode a)) as [->|Hna].
           ++ destruct (decide (ElemNode a = ElemNode a /\ j = j)) as [_|Hno];
                [reflexivity|]. exfalso. apply Hno. auto.
           ++ destruct (decide (n = ElemNode a /\ j = j)) as [[? _]|_];
                [contradiction|reflexivity].
      * destruct (decide (n = P /\ i = j)) as [[_ ?]|_]; [contradiction|].
        destruct (decide (n = ElemNode a /\ i = j)) as [[_ ?]|_]; [contradiction|].
        destruct (decide (i < j)%nat); destruct (decide (i < S j)%nat);
          try lia; reflexivity.
Qed.

Lemma Set_body_miss (s : state) (L lo hi : list addr) (k : bytes) (v : V) :
  Inv s L -> L = lo ++ hi ->
  (forall b, b ∈ lo -> Compare (akey (heap s) b) k < 0) ->
  (forall b, b ∈ hi -> Compare k (akey (heap s) b) < 0) ->
  maxLevel (sl s) <= DefaultMaxLevel ->
  exists s',
    Set_body k v s = (Done (length (heap s)), s')
    /\ Inv s' (lo ++ length (heap s) :: hi)
    /\ akey (heap s') (length (heap s)) = k
    /\ avalue (heap s') (length (heap s)) = Some v
    /\ (forall b, b <> length (heap s) ->
          akey (heap s') b = akey (heap s) b /\
          avalue (heap s') b = avalue (heap s) b /\
          height (heap s') b = height (heap s) b)
    /\ (1 <= height (heap s') (length (heap s)))%nat
    /\ Z.of_nat (height (heap s') (length (heap s))) <= maxLevel (sl s)
    /\ maxLevel (sl s') = maxLevel (sl s)
    /\ mutex (sl s') = mutex (sl s)
    /\ probability (sl s') = probability (sl s)
    /\ probTable (sl s') = probTable (sl s).
Proof.
  intros HI HL Hlo Hhi Hml.
  pose proof (inv_maxLevel s L HI) as Hrange.
  pose proof (inv_sentinel s L HI) as Hsz.
  pose proof (inv_prevs s L HI) as Hcz.
  pose proof (inv_probTable s L HI) as Htab.
  rewrite Z.min_l in Htab by assumption.
  assert (Hhi' : forall b, b ∈ hi -> Compare k (akey (heap s) b) <= 0)
    by (intros b Hb; specialize (Hhi b Hb); lia).
  destruct (locate_spec (Set_rest k v) s L lo hi k HI HL Hlo Hhi' Hml)
    as (c & Hrun & Hlen & Hc).
  assert (Hmiss : hit_of (heap s) k hi = None).
  { destruct hi as [|x hi']; [reflexivity|]. simpl.
    specialize (Hhi x ltac:(set_solver)). rewrite (Compare_antisym (akey (heap s) x) k) in Hhi.
    destruct (Z.leb_spec (Compare (akey (heap s) x) k) 0); [lia|reflexivity]. }
  rewrite Set_body_unfold, Hrun, Hmiss. clear Hrun.
  set (s1 := with_sl s (sl_with_prevs (sl s) c)).
  destruct (randLevel_spec s1 ltac:(simpl; lia) ltac:(simpl; lia)) as (h & src & Hrl & Hh).
  simpl in Hh.
  set (s2 := with_sl s1 (sl_with_randSource (sl s1) src)) in *.
  set (hgt := Z.to_nat h).
  set (a := length (heap s)).
  set (enew := mkElement (mkNode (Some ThisList) (replicate hgt None)) k v).
  set (s3 := with_heap s2 (heap s2 ++ [enew])).
  assert (Hs3 : forall n i, slot s3 n i =
            if decide (n = ElemNode a) then replicate hgt (@None addr) !! i
            else slot s n i).
  { intros n i. unfold s3. rewrite slot_alloc. simpl. fold a.
    destruct (decide (n = ElemNode a)); [reflexivity|].
    apply slot_same; reflexivity. }
  assert (Hloop : exists s4,
            for_range hgt (fun i =>
              let* pi := index c i in
              let* ni := deref pi in
              let* succ := NextAt ni i in
              store_next (ElemNode a) i succ ;;
              store_next ni i (Some a)) s3 = (Done tt, s4)
            /\ spliced s s3 lo hi a hgt s4).
  { apply (for_range_inv (spliced s s3 lo hi a)).
    - split; [apply same_shape_refl|]. intros n i.
      destruct (decide (i < 0)%nat); [lia|reflexivity].
    - intros j sj Hj Hsp.
      refine (splice_step s s3 L lo hi a hgt c j sj HI HL eq_refl Hs3 _ _ Hj Hsp).
      + intros i Hi. apply Hc. unfold hgt in Hi. lia.
      + rewrite Hsz. unfold hgt, DefaultMaxLevel in *. lia. }
  destruct Hloop as (s4 & Hloop & Hshape & Hslots).
  set (s5 := with_sl s4 (sl_with_Length (sl s4) (wrap64 (Length (sl s4) + 1)))).
  assert (Hrest : Set_rest k v c (head hi) (bool_decide (is_Some (@None addr))) s1
                  = (Done a, s5)).
  { assert (Hgo : forall el, Set_rest k v c el false s1 = (Done a, s5)).
    { intros el. replace (Set_rest k v c el false) with (Set_rest k v c None false)
        by (destruct el; reflexivity).
      unfold Set_rest.
      rewrite (bind_Done _ _ s1 s2 h Hrl).
      unfold bind at 1. unfold make_next.
      destruct (Z.ltb_spec h 0); [lia|]. unfold ret at 1.
      unfold bind at 1. unfold alloc at 1.
      rewrite length_replicate.
      fold hgt. change (length (heap s2)) with a. fold enew. fold s3.
      rewrite (bind_Done _ _ s3 s4 tt Hloop). reflexivity. }
    apply Hgo. }
  exists s5. split; [exact Hrest|].
  assert (Hha : height (heap s5) a = hgt).
  { simpl. rewrite (ss_height s3 s4 Hshape). unfold s3. simpl.
    rewrite height_alloc. destruct (decide (a = length (heap s))); [|contradiction].
    simpl. apply length_replicate. }
  assert (Hho : forall b, b <> a -> height (heap s5) b = height (heap s) b).
  { intros b Hb. simpl. rewrite (ss_height s3 s4 Hshape). unfold s3. simpl.
    rewrite height_alloc. destruct (decide (b = length (heap s))); [contradiction|reflexivity]. }
  assert (Hka : akey (heap s5) a = k).
  { simpl. rewrite (ss_key s3 s4 Hshape). unfold s3. simpl.
    rewrite akey_alloc. destruct (decide (a = length (heap s))); [reflexivity|contradiction]. }
  assert (Hko : forall b, b <> a -> akey (heap s5) b = akey (heap s) b).
  { intros b Hb. simpl. rewrite (ss_key s3 s4 Hshape). unfold s3. simpl.
    rewrite akey_alloc. destruct (decide (b = length (heap s))); [contradiction|reflexivity]. }
  assert (Hva : avalue (heap s5) a = Some v).
  { simpl. rewrite (ss_value s3 s4 Hshape). unfold s3. simpl.
    rewrite avalue_alloc. destruct (decide (a = length (heap s))); [reflexivity|contradiction]. }
  assert (Hvo : forall b, b <> a -> avalue (heap s5) b = avalue (heap s) b).
  { intros b Hb. simpl. rewrite (ss_value s3 s4 Hshape). unfold s3. simpl.
    rewrite avalue_alloc. destruct (decide (b = length (heap s))); [contradiction|reflexivity]. }
  assert (Hhgt : (1 <= hgt)%nat /\ Z.of_nat hgt <= maxLevel (sl s))
    by (unfold hgt; lia).
  split; [|split; [exact Hka|split; [exact Hva|split; [|split; [|split; [|split; [|split; [|split]]]]]]]].
  - subst L. apply (insert_Inv s s5 lo hi a k hgt); auto.
    + apply height_fresh.
    + intros n i. rewrite (slot_same s4 s5) by reflexivity. rewrite Hslots.
      destruct (decide (i < hgt)%nat) as [Hlt|Hge].
      * destruct (decide (n = pred_at s lo i)); [reflexivity|].
        destruct (decide (n = ElemNode a)) as [|Hna]; [reflexivity|].
        rewrite Hs3. destruct (decide (n = ElemNode a)); [contradiction|reflexivity].
      * rewrite Hs3. destruct (decide (n = ElemNode a)) as [->|]; [|reflexivity].
        rewrite (proj1 (lookup_replicate_None hgt (@None nat) i)) by lia.
        unfold slot, node_at. rewrite lookup_ge_None_2 by (unfold a; lia). reflexivity.
    + simpl. rewrite (ss_sentinel s3 s4 Hshape). reflexivity.
    + simpl. rewrite (ss_prevs s3 s4 Hshape). simpl. rewrite Hlen. exact Hcz.
    + simpl. rewrite (ss_maxLevel s3 s4 Hshape). reflexivity.
    + simpl. rewrite (ss_probTable s3 s4 Hshape). reflexivity.
    + simpl. rewrite (ss_Length s3 s4 Hshape). reflexivity.
  - intros b Hb. auto.
  - rewrite Hha. lia.
  - rewrite Hha. lia.
  - simpl. rewrite (ss_maxLevel s3 s4 Hshape). reflexivity.
  - simpl. rewrite (ss_mutex s3 s4 Hshape). reflexivity.
  - simpl. rewrite (ss_probability s3 s4 Hshape). reflexivity.
  - simpl. rewrite (ss_probTable s3 s4 Hshape). reflexivity.
Qed.

(** ** [Remove] *)

Lemma Remove_body_miss (s : state) (L : list addr) (k : bytes) :
  Inv s L -> maxLevel (sl s) <= DefaultMaxLevel ->
  lookup_key (heap s) k L = None ->
  exists c,
    Remove_body k s = (Done None, with_sl s (sl_with_prevs (sl s) c))
    /\ length c = length (prevNodesCache (sl s)).
Proof.
  intros HI Hml Hfind.
  destruct (sorted_split (heap s) L k (inv_sorted s L HI)) as (lo & hi & HL & Hlo & Hhi).
  rewrite HL, (lookup_key_split (heap s) k lo hi) in Hfind
    by (rewrite <- ?HL; auto; apply HI).
  destruct (locate_spec Remove_rest s L lo hi k HI HL Hlo Hhi Hml)
    as (c & Hrun & Hlen & _).
  exists c. split; [|exact Hlen].
  rewrite Remove_body_unfold, Hrun, Hfind.
  destruct (head hi); reflexivity.
Qed.

Lemma unlink_step (s0 s1 : state) (L lo hi : list addr) (a : addr)
      (c : list (option nodeRef)) (j : nat) (sj : state) :
  Inv s0 L -> L = lo ++ a :: hi ->
  (forall n i, slot s1 n i = slot s0 n i) ->
  (forall i, (i < height (heap s0) a)%nat -> c !! i = Some (Some (pred_at s0 lo i))) ->
  (height (heap s0) a <= length (next (sentinel (sl s0))))%nat ->
  (j < height (heap s0) a)%nat ->
  unlinked s0 s1 lo hi j sj ->
  exists s',
    (let* pj := index c j in
     let* nj := deref pj in
     let* succ := NextAt (ElemNode a) j in
     store_next nj j succ) sj = (Done tt, s')
    /\ unlinked s0 s1 lo hi (S j) s'.
Proof.
  intros HI HL Hs1 Hc Hsz Hj [Hshape Hslots].
  set (P := pred_at s0 lo j).
  pose proof (Inv_NoDup s0 L HI) as Hnd. rewrite HL in Hnd.
  assert (Hanotlo : a ∉ lo).
  { apply NoDup_app in Hnd as (_ & Hdisj & _). intros Hin.
    apply (Hdisj a Hin). set_solver. }
  assert (HPa : ElemNode a <> P) by (apply pred_at_not_in; assumption).
  assert (Hslota : slot sj (ElemNode a) j = Some (first_tall (heap s0) j hi)).
  { rewrite Hslots. destruct (decide (j < j)%nat); [lia|].
    rewrite Hs1. apply (inv_link s0 L HI lo a hi j HL Hj). }
  assert (HslotP : is_Some (slot sj P j)).
  { rewrite Hslots. destruct (decide (j < j)%nat); [lia|].
    rewrite Hs1. unfold P.
    rewrite (pred_at_slot s0 L lo (a :: hi) j HI HL) by lia. eauto. }
  destruct (store_next_spec sj P j (first_tall (heap s0) j hi) HslotP)
    as (s2 & Hrun2 & Hshape2 & Hslots2).
  exists s2. split.
  - unfold bind at 1. unfold index. rewrite (Hc j Hj). unfold ret at 1.
    unfold bind at 1. unfold deref, ret at 1.
    rewrite (bind_Done _ _ sj sj (first_tall (heap s0) j hi))
      by (rewrite NextAt_slot, Hslota; reflexivity).
    exact Hrun2.
  - split; [eapply same_shape_trans; eassumption|].
    intros n i. rewrite Hslots2, Hslots. fold P.
    destruct (decide (i = j)) as [->|Hne].
    + fold P.
      destruct (decide (j < S j)%nat); [|lia].
      destruct (decide (j < j)%nat); [lia|].
      destruct (decide (n = P)) as [->|HnP].
      * destruct (decide (P = P /\ j = j)) as [_|Hno]; [reflexivity|].
        exfalso. apply Hno. auto.
      * destruct (decide (n = P /\ j = j)) as [[? _]|_]; [contradiction|reflexivity].
    + destruct (decide (n = P /\ i = j)) as [[_ ?]|_]; [contradiction|].
      destruct (decide (i < j)%nat); destruct (decide (i < S j)%nat);
        try lia; reflexivity.
Qed.

Lemma Remove_body_hit (s : state) (L lo hi : list addr) (k : bytes) (a : addr) :
  Inv s L -> L = lo ++ a :: hi ->
  (forall b, b ∈ lo -> Compare (akey (heap s) b) k < 0) ->
  akey (heap s) a = k ->
  maxLevel (sl s) <= DefaultMaxLevel ->
  exists s',
    Remove_body k s = (Done (Some a), s')
    /\ Inv s' (lo ++ hi)
    /\ (forall b, akey (heap s') b = akey (heap s) b /\
                  avalue (heap s') b = avalue (heap s) b /\
                  height (heap s') b = height (heap s) b)
    /\ (forall i, slot s' (ElemNode a) i = slot s (ElemNode a) i)
    /\ maxLevel (sl s') = maxLevel (sl s)
    /\ mutex (sl s') = mutex (sl s)
    /\ probability (sl s') = probability (sl s)
    /\ probTable (sl s') = probTable (sl s)
    /\ Length (sl s') = wrap64 (Length (sl s) - 1).
Proof.
  intros HI HL Hlo Hka Hml.
  pose proof (inv_maxLevel s L HI) as Hrange.
  pose proof (inv_sentinel s L HI) as Hsz.
  pose proof (inv_prevs s L HI) as Hcz.
  pose proof (inv_sorted s L HI) as Hsorted.
  assert (HaL : a ∈ L) by (rewrite HL; set_solver).
  destruct (inv_height s L HI a HaL) as [Hha1 Hha2].
  assert (Hhi : forall b, b ∈ a :: hi -> Compare k (akey (heap s) b) <= 0).
  { intros b Hb. apply elem_of_cons in Hb as [->|Hb].
    - rewrite Hka, Compare_refl. lia.
    - rewrite HL in Hsorted. apply StronglySorted_app_1_r in Hsorted.
      apply StronglySorted_cons in Hsorted as [Hall _].
      rewrite Forall_forall in Hall. specialize (Hall b Hb).
      unfold key_lt in Hall. rewrite Hka in Hall. lia. }
  destruct (locate_spec Remove_rest s L lo (a :: hi) k HI HL Hlo Hhi Hml)
    as (c & Hrun & Hlen & Hc).
  assert (Hhit : hit_of (heap s) k (a :: hi) = Some a).
  { simpl. rewrite Hka, Compare_refl. reflexivity. }
  rewrite Remove_body_unfold, Hrun, Hhit. clear Hrun. simpl head.
  set (s1 := with_sl s (sl_with_prevs (sl s) c)).
  destruct (Inv_lookup s L a HI HaL) as (e & He & _ & Hhe).
  assert (Hloop : exists s2,
            for_range (height (heap s) a) (fun j =>
              let* pj := index c j in
              let* nj := deref pj in
              let* succ := NextAt (ElemNode a) j in
              store_next nj j succ) s1 = (Done tt, s2)
            /\ unlinked s s1 lo hi (height (heap s) a) s2).
  { apply (for_range_inv (unlinked s s1 lo hi)).
    - split; [apply same_shape_refl|]. intros n i.
      destruct (decide (i < 0)%nat); [lia|reflexivity].
    - intros j sj Hj Hun.
      refine (unlink_step s s1 L lo hi a c j sj HI HL _ _ _ Hj Hun).
      + intros n i. apply slot_same; reflexivity.
      + intros i Hi. apply Hc. lia.
      + rewrite Hsz. unfold DefaultMaxLevel in *. lia. }
  destruct Hloop as (s2 & Hloop & Hshape & Hslots).
  set (s3 := with_sl s2 (sl_with_Length (sl s2) (wrap64 (Length (sl s2) - 1)))).
  exists s3. split.
  { match goal with
    | |- context [bool_decide ?P] => change (bool_decide P) with true
    end.
    unfold Remove_rest. change (head (a :: hi)) with (Some a). cbv iota beta.
    rewrite (bind_Done _ _ s1 s1 e (load_Done s1 a e He)).
    rewrite <- Hhe.
    rewrite (bind_Done _ _ s1 s2 tt Hloop). reflexivity. }
  assert (Hslot3 : forall n i,
            slot s3 n i =
            if decide (i < height (heap s) a)%nat then
              if decide (n = pred_at s lo i) then Some (first_tall (heap s) i hi)
              else slot s n i
            else slot s n i).
  { intros n i. rewrite (slot_same s2 s3) by reflexivity. rewrite Hslots.
    rewrite (slot_same s s1) by reflexivity. reflexivity. }
  split; [|split; [|split; [|split; [|split; [|split; [|split]]]]]].
  - subst L. apply (unlink_Inv s s3 lo hi a); auto.
    + intros b. simpl. rewrite (ss_height s1 s2 Hshape). reflexivity.
    + intros b. simpl. rewrite (ss_key s1 s2 Hshape). reflexivity.
    + simpl. rewrite (ss_sentinel s1 s2 Hshape). reflexivity.
    + simpl. rewrite (ss_prevs s1 s2 Hshape). simpl. rewrite Hlen. exact Hcz.
    + simpl. rewrite (ss_maxLevel s1 s2 Hshape). reflexivity.
    + simpl. rewrite (ss_probTable s1 s2 Hshape). reflexivity.
    + simpl. rewrite (ss_Length s1 s2 Hshape). reflexivity.
  - intros b. simpl.
    rewrite (ss_key s1 s2 Hshape), (ss_value s1 s2 Hshape), (ss_height s1 s2 Hshape).
    auto.
  - intros i. rewrite Hslot3.
    pose proof (Inv_NoDup s L HI) as Hnd. rewrite HL in Hnd.
    assert (Hanotlo : a ∉ lo).
    { apply NoDup_app in Hnd as (_ & Hdisj & _). intros Hin.
      apply (Hdisj a Hin). set_solver. }
    destruct (decide (i < height (heap s) a)%nat); [|reflexivity].
    destruct (decide (ElemNode a = pred_at s lo i)) as [Heq|]; [|reflexivity].
    exfalso. revert Heq. apply pred_at_not_in. assumption.
  - simpl. rewrite (ss_maxLevel s1 s2 Hshape). reflexivity.
  - simpl. rewrite (ss_mutex s1 s2 Hshape). reflexivity.
  - simpl. rewrite (ss_probability s1 s2 Hshape). reflexivity.
  - simpl. rewrite (ss_probTable s1 s2 Hshape). reflexivity.
  - simpl. rewrite (ss_Length s1 s2 Hshape). reflexivity.
Qed.

(** ** Walking the chains *)

Lemma level_of_cons (h : list Element) (i : nat) (a : addr) (l : list addr) :
  level_of h i (a :: l) =
  if decide (i < height h a)%nat then a :: level_of h i l else level_of h i l.
Proof. unfold level_of. rewrite filter_cons. reflexivity. Qed.

Lemma walk_spec (s : state) (L : list addr) (i : nat) :
  Inv s L ->
  forall (l l0 : list addr) (fuel : nat),
    L = l0 ++ l -> (length l <= fuel)%nat ->
    walk fuel i (first_tall (heap s) i l) s = (Done (level_of (heap s) i l), s).
Proof.
  intros HI. induction l as [|b l IH]; intros l0 fuel HL Hfuel.
  - destruct fuel; reflexivity.
  - simpl in Hfuel. rewrite level_of_cons. simpl.
    assert (HL' : L = (l0 ++ [b]) ++ l) by (rewrite <- app_assoc; exact HL).
    destruct (decide (i < height (heap s) b)%nat) as [Hb|Hb].
    + destruct fuel as [|fuel]; [lia|]. simpl.
      rewrite (bind_Done _ _ s s (first_tall (heap s) i l))
        by (rewrite NextAt_slot, (inv_link s L HI l0 b l i HL Hb); reflexivity).
      rewrite (bind_Done _ _ s s (level_of (heap s) i l))
        by (apply (IH (l0 ++ [b])); [exact HL'|lia]).
      reflexivity.
    + apply (IH (l0 ++ [b])); [exact HL'|lia].
Qed.

Lemma chain_spec (s : state) (L : list addr) (i : nat) :
  Inv s L -> (i < length (next (sentinel (sl s))))%nat ->
  chain i s = (Done (level_of (heap s) i L), s).
Proof.
  intros HI Hi. unfold chain, walk_bound.
  unfold bind at 1. unfold gets at 1.
  rewrite (bind_Done _ _ s s (first_tall (heap s) i L))
    by (rewrite NextAt_slot, (inv_head s L HI i Hi); reflexivity).
  apply (walk_spec s L i HI L []); [reflexivity|]. apply (Inv_length s L HI).
Qed.

Lemma level_of_0 (s : state) (L : list addr) :
  Inv s L -> level_of (heap s) 0 L = L.
Proof.
  intros HI. unfold level_of.
  assert (H : forall a, a ∈ L -> (0 < height (heap s) a)%nat).
  { intros a Ha. destruct (inv_height s L HI a Ha). lia. }
  clear HI. induction L as [|a L IH]; [reflexivity|].
  rewrite filter_cons_True by (apply H; set_solver).
  f_equal. apply IH. intros b Hb. apply H. set_solver.
Qed.

Lemma iterate_from_walk (fuel : nat) (c : option addr) (s : state) :
  iterate_from fuel c s = walk fuel 0 c s.
Proof.
  revert c s. induction fuel as [|fuel IH]; intros [a|] s; try reflexivity.
  simpl. unfold Element_Next, Next, bind.
  destruct (NextAt (ElemNode a) 0 s) as [[nx| |] s1]; try reflexivity.
  rewrite IH. reflexivity.
Qed.

Lemma iterate_chain (s : state) : iterate s = chain 0 s.
Proof.
  unfold iterate, chain, Front, Next, walk_bound, bind, gets.
  destruct (NextAt Sentinel 0 s) as [[c| |] s1]; try reflexivity.
  apply iterate_from_walk.
Qed.

Lemma iterate_spec (s : state) (L : list addr) :
  Inv s L -> iterate s = (Done L, s).
Proof.
  intros HI. rewrite iterate_chain, (chain_spec s L 0 HI).
  - rewrite (level_of_0 s L HI). reflexivity.
  - rewrite (inv_sentinel s L HI). unfold DefaultMaxLevel. lia.
Qed.

(** ** The operations under the lock *)

Lemma Set_Panic (s : state) (k : bytes) (v : V) :
  mutex (sl s) = false ->
  (length (next (sentinel (sl s))) < Z.to_nat (maxLevel (sl s)))%nat ->
  Set_ k v s = (Panic, s).
Proof.
  intros Hmx Hlt. unfold Set_.
  rewrite (with_lock_run _ s (set_mutex true s) Panic Hmx).
  - rewrite set_mutex_restore by assumption. reflexivity.
  - apply Set_body_Panic. exact Hlt.
Qed.

Lemma Remove_Panic (s : state) (k : bytes) :
  mutex (sl s) = false ->
  (length (next (sentinel (sl s))) < Z.to_nat (maxLevel (sl s)))%nat ->
  Remove k s = (Panic, s).
Proof.
  intros Hmx Hlt. unfold Remove.
  rewrite (with_lock_run _ s (set_mutex true s) Panic Hmx).
  - rewrite set_mutex_restore by assumption. reflexivity.
  - apply Remove_body_Panic. exact Hlt.
Qed.

Lemma set_mutex_prevs (s : state) (c : list (option nodeRef)) :
  mutex (sl s) = false ->
  set_mutex false (with_sl (set_mutex true s)
                           (sl_with_prevs (sl (set_mutex true s)) c))
  = with_sl s (sl_with_prevs (sl s) c).
Proof. destruct s as [h [? ? ? ? ? ? ? ?]]. simpl. intros ->. reflexivity. Qed.

(** [Set] on a present key, as a whole. *)
Lemma Set_hit (s : state) (L : list addr) (k : bytes) (v : V) (a : addr) :
  Inv s L -> mutex (sl s) = false -> maxLevel (sl s) <= DefaultMaxLevel ->
  lookup_key (heap s) k L = Some a ->
  exists c,
    Set_ k v s
    = (Done a, with_heap (with_sl s (sl_with_prevs (sl s) c))
                         (alter (fun e => with_value e v) a (heap s)))
    /\ length c = length (prevNodesCache (sl s)).
Proof.
  intros HI Hmx Hml Hfind.
  destruct (Set_body_hit (set_mutex true s) L k v a
              (Inv_set_mutex s L true HI) Hml Hfind) as (c & Hrun & Hlen).
  exists c. split; [|exact Hlen].
  unfold Set_. rewrite (with_lock_run _ s _ _ Hmx Hrun).
  f_equal. destruct s as [h [? ? ? ? ? ? ? ?]]. simpl in *. subst. reflexivity.
Qed.

(** [Set] on an absent key, as a whole. *)
Lemma Set_miss (s : state) (L lo hi : list addr) (k : bytes) (v : V) :
  Inv s L -> mutex (sl s) = false -> maxLevel (sl s) <= DefaultMaxLevel ->
  L = lo ++ hi ->
  (forall b, b ∈ lo -> Compare (akey (heap s) b) k < 0) ->
  (forall b, b ∈ hi -> Compare k (akey (heap s) b) < 0) ->
  exists s',
    Set_ k v s = (Done (length (heap s)), s')
    /\ Inv s' (lo ++ length (heap s) :: hi)
    /\ mutex (sl s') = false
    /\ maxLevel (sl s') = maxLevel (sl s)
    /\ akey (heap s') (length (heap s)) = k
    /\ avalue (heap s') (length (heap s)) = Some v
    /\ (forall b, b <> length (heap s) ->
          akey (heap s') b = akey (heap s) b /\
          avalue (heap s') b = avalue (heap s) b /\
          height (heap s') b = height (heap s) b)
    /\ (1 <= height (heap s') (length (heap s)))%nat
    /\ Z.of_nat (height (heap s') (length (heap s))) <= maxLevel (sl s).
Proof.
  intros HI Hmx Hml HL Hlo Hhi.
  destruct (Set_body_miss (set_mutex true s) L lo hi k v
              (Inv_set_mutex s L true HI) HL Hlo Hhi Hml)
    as (s' & Hrun & HI' & Hka & Hva & Hoth & Hh1 & Hh2 & Hml' & _).
  exists (set_mutex false s'). split; [|split; [|split; [|split]]].
  - unfold Set_. rewrite (with_lock_run _ s _ _ Hmx Hrun). reflexivity.
  - apply Inv_set_mutex. exact HI'.
  - reflexivity.
  - simpl. exact Hml'.
  - simpl. auto.
Qed.

Lemma Remove_miss (s : state) (L : list addr) (k : bytes) :
  Inv s L -> mutex (sl s) = false -> maxLevel (sl s) <= DefaultMaxLevel ->
  lookup_key (heap s) k L = None ->
  exists c,
    Remove k s = (Done None, with_sl s (sl_with_prevs (sl s) c))
    /\ length c = length (prevNodesCache (sl s)).
Proof.
  intros HI Hmx Hml Hfind.
  destruct (Remove_body_miss (set_mutex true s) L k
              (Inv_set_mutex s L true HI) Hml Hfind) as (c & Hrun & Hlen).
  exists c. split; [|exact Hlen].
  unfold Remove. rewrite (with_lock_run _ s _ _ Hmx Hrun).
  rewrite set_mutex_prevs by assumption. reflexivity.
Qed.

Lemma Remove_hit (s : state) (L lo hi : list addr) (k : bytes) (a : addr) :
  Inv s L -> mutex (sl s) = false -> maxLevel (sl s) <= DefaultMaxLevel ->
  L = lo ++ a :: hi ->
  (forall b, b ∈ lo -> Compare (akey (heap s) b) k < 0) ->
  akey (heap s) a = k ->
  exists s',
    Remove k s = (Done (Some a), s')
    /\ Inv s' (lo ++ hi)
    /\ mutex (sl s') = false
    /\ maxLevel (sl s') = maxLevel (sl s)
    /\ (forall b, akey (heap s') b = akey (heap s) b /\
                  avalue (heap s') b = avalue (heap s) b /\
                  height (heap s') b = height (heap s) b)
    /\ (forall i, slot s' (ElemNode a) i = slot s (ElemNode a) i)
    /\ Length (sl s') = wrap64 (Length (sl s) - 1).
Proof.
  intros HI Hmx Hml HL Hlo Hka.
  destruct (Remove_body_hit (set_mutex true s) L lo hi k a
              (Inv_set_mutex s L true HI) HL Hlo Hka Hml)
    as (s' & Hrun & HI' & Hoth & Hsl & Hml' & _ & _ & _ & HLen).
  exists (set_mutex false s'). split; [|split; [|split; [|split; [|split; [|split]]]]].
  - unfold Remove. rewrite (with_lock_run _ s _ _ Hmx Hrun). reflexivity.
  - apply Inv_set_mutex. exact HI'.
  - reflexivity.
  - simpl. exact Hml'.
  - simpl. exact Hoth.
  - intros i. rewrite (slot_same s' (set_mutex false s')) by reflexivity.
    rewrite Hsl. apply slot_same; reflexivity.
  - simpl. exact HLen.
Qed.

(** A sorted list split around a key it holds. *)
Lemma lookup_key_split_at (s : state) (L : list addr) (k : bytes) (a : addr) :
  Inv s L -> lookup_key (heap s) k L = Some a ->
  exists lo hi, L = lo ++ a :: hi
    /\ (forall b, b ∈ lo -> Compare (akey (heap s) b) k < 0)
    /\ akey (heap s) a = k.
Proof.
  intros HI Hfind.
  destruct (sorted_split (heap s) L k (inv_sorted s L HI)) as (lo & hi & HL & Hlo & Hhi).
  rewrite HL, (lookup_key_split (heap s) k lo hi) in Hfind
    by (rewrite <- ?HL; auto; apply HI).
  destruct (hit_of_Some (heap s) k hi a Hhi Hfind) as (hi' & -> & Hka).
  exists lo, hi'. auto.
Qed.

Lemma lookup_key_split_miss (s : state) (L : list addr) (k : bytes) :
  Inv s L -> lookup_key (heap s) k L = None ->
  exists lo hi, L = lo ++ hi
    /\ (forall b, b ∈ lo -> Compare (akey (heap s) b) k < 0)
    /\ (forall b, b ∈ hi -> Compare k (akey (heap s) b) < 0).
Proof.
  intros HI Hfind.
  destruct (sorted_split (heap s) L k (inv_sorted s L HI)) as (lo & hi & HL & Hlo & Hhi).
  exists lo, hi. split; [exact HL|]. split; [exact Hlo|].
  intros b Hb. specialize (Hhi b Hb).
  destruct (Z.eq_dec (Compare k (akey (heap s) b)) 0) as [E|E]; [|lia].
  exfalso. apply Compare_eq in E.
  assert (Hcontra : lookup_key (heap s) k L <> None).
  { clear Hfind. rewrite HL. intros Hnone.
    assert (Hin : b ∈ lo ++ hi) by set_solver.
    revert Hnone Hin. generalize (lo ++ hi). intros l.
    induction l as [|x l IH]; simpl; intros Hnone Hin; [set_solver|].
    destruct (Z.eqb_spec (Compare (akey (heap s) x) k) 0) as [|Hx]; [discriminate|].
    apply elem_of_cons in Hin as [->|Hin]; [|auto].
    apply Hx. rewrite <- E. apply Compare_refl. }
  contradiction.
Qed.

(** ** The invariant holds in every reachable state *)

Lemma probabilityTable_loop_length (p : float64) (n : nat) (i : Z) (t : list float64) :
  length (probabilityTable_loop p n i t) = (length t + n)%nat.
Proof.
  revert i t. induction n as [|n IH]; intros i t; simpl; [lia|].
  rewrite IH, length_app. simpl. lia.
Qed.

Lemma probabilityTable_length (p : float64) (m : Z) :
  length (probabilityTable p m) = Z.to_nat m.
Proof. unfold probabilityTable. rewrite probabilityTable_loop_length. reflexivity. Qed.

Lemma Inv_New (src : Source) (n : Z) (s : state) :
  NewWithMaxLevel src n = Done s -> Inv s [] /\ mutex (sl s) = false.
Proof.
  unfold NewWithMaxLevel.
  destruct (Z.ltb_spec n 1); [discriminate|].
  destruct (Z.gtb_spec n 64); [discriminate|].
  cbn [orb]. intros [= <-]. split; [|reflexivity].
  constructor; cbn [heap sl sentinel maxLevel Length probTable prevNodesCache next].
  - constructor.
  - intros a Ha. set_solver.
  - intros i Hi. unfold slot, node_at.
    cbn [heap sl sentinel next first_tall]. simpl in Hi.
    do 18 (destruct i as [|i]; [reflexivity|]). lia.
  - intros l1 a l2 i Hnil. destruct l1; discriminate.
  - reflexivity.
  - reflexivity.
  - lia.
  - rewrite probabilityTable_length. unfold DefaultMaxLevel. lia.
  - intros _. reflexivity.
  - reflexivity.
Qed.

Lemma Inv_SetProbability (s : state) (L : list addr) (p : float64) :
  Inv s L -> Inv (snd (SetProbability p s)) L.
Proof.
  intros HI. apply (Inv_same s); simpl; try reflexivity; try apply HI.
  rewrite probabilityTable_length.
  pose proof (inv_maxLevel s L HI). lia.
Qed.

Lemma Inv_overflow_Panic (s : state) (L : list addr) :
  Inv s L -> ~ maxLevel (sl s) <= DefaultMaxLevel ->
  (length (next (sentinel (sl s))) < Z.to_nat (maxLevel (sl s)))%nat.
Proof.
  intros HI Hbig. rewrite (inv_sentinel s L HI). unfold DefaultMaxLevel in *. lia.
Qed.

Theorem reachable_Inv (s : state) :
  reachable s -> exists L, Inv s L /\ mutex (sl s) = false.
Proof.
  induction 1 as [src n s Hnew|k v s Hr [L [HI Hmx]]|k s Hr [L [HI Hmx]]
                 |k s Hr [L [HI Hmx]]|p s Hr [L [HI Hmx]]].
  - exists []. eapply Inv_New. eassumption.
  - destruct (Z_le_dec (maxLevel (sl s)) DefaultMaxLevel) as [Hml|Hbig].
    + destruct (lookup_key (heap s) k L) as [a|] eqn:Hfind.
      * destruct (Set_hit s L k v a HI Hmx Hml Hfind) as (c & -> & Hlen).
        exists L. cbn [snd]. split; [|exact Hmx].
        apply (Inv_store_value (with_sl s (sl_with_prevs (sl s) c))).
        apply Inv_with_prevs; assumption.
      * destruct (lookup_key_split_miss s L k HI Hfind) as (lo & hi & HL & Hlo & Hhi).
        destruct (Set_miss s L lo hi k v HI Hmx Hml HL Hlo Hhi)
          as (s' & -> & HI' & Hmx' & _).
        eexists. cbn [snd]. split; [exact HI'|exact Hmx'].
    + rewrite (Set_Panic s k v Hmx (Inv_overflow_Panic s L HI Hbig)). eauto.
  - destruct (Z_le_dec (maxLevel (sl s)) DefaultMaxLevel) as [Hml|Hbig].
    + rewrite (Get_spec s L k HI Hmx Hml). eauto.
    + rewrite (Get_Panic s k Hmx (Inv_overflow_Panic s L HI Hbig)). eauto.
  - destruct (Z_le_dec (maxLevel (sl s)) DefaultMaxLevel) as [Hml|Hbig].
    + destruct (lookup_key (heap s) k L) as [a|] eqn:Hfind.
      * destruct (lookup_key_split_at s L k a HI Hfind) as (lo & hi & HL & Hlo & Hka).
        destruct (Remove_hit s L lo hi k a HI Hmx Hml HL Hlo Hka)
          as (s' & -> & HI' & Hmx' & _).
        eexists. cbn [snd]. split; [exact HI'|exact Hmx'].
      * destruct (Remove_miss s L k HI Hmx Hml Hfind) as (c & -> & Hlen).
        exists L. cbn [snd]. split; [|exact Hmx].
        apply Inv_with_prevs; assumption.
    + rewrite (Remove_Panic s k Hmx (Inv_overflow_Panic s L HI Hbig)). eauto.
  - exists L. split; [apply Inv_SetProbability; exact HI|exact Hmx].
Qed.

(** ** Keys of a sorted chain *)

Lemma sorted_key_inj (h : list Element) (L : list addr) (a b : addr) :
  StronglySorted (key_lt h) L -> a ∈ L -> b ∈ L -> akey h a = akey h b -> a = b.
Proof.
  induction 1 as [|x l Hs IH Hall]; intros Ha Hb Heq; [set_solver|].
  rewrite Forall_forall in Hall.
  apply elem_of_cons in Ha as [->|Ha]; apply elem_of_cons in Hb as [->|Hb]; auto.
  - exfalso. specialize (Hall b Hb). unfold key_lt in Hall.
    rewrite Heq, Compare_refl in Hall. lia.
  - exfalso. specialize (Hall a Ha). unfold key_lt in Hall.
    rewrite Heq, Compare_refl in Hall. lia.
Qed.

Lemma sorted_keys_NoDup (h : list Element) (L : list addr) :
  StronglySorted (key_lt h) L -> NoDup (akey h <$> L).
Proof.
  induction 1 as [|x l Hs IH Hall]; [constructor|].
  rewrite Forall_forall in Hall. rewrite fmap_cons. constructor; [|exact IH].
  intros Hin. apply list_elem_of_fmap in Hin as (b & Heq & Hb).
  specialize (Hall b Hb). unfold key_lt in Hall.
  rewrite Heq, Compare_refl in Hall. lia.
Qed.

Lemma lookup_key_found (h : list Element) (k : bytes) (L : list addr) (a : addr) :
  StronglySorted (key_lt h) L -> a ∈ L -> akey h a = k ->
  lookup_key h k L = Some a.
Proof.
  intros Hs Ha Hk.
  destruct (lookup_key h k L) as [b|] eqn:Hfind.
  - apply lookup_key_Some in Hfind as [Hb Hkb]. f_equal.
    apply (sorted_key_inj h L b a Hs Hb Ha). congruence.
  - exfalso. revert Hfind Ha. clear Hs. induction L as [|x l IH]; simpl; [set_solver|].
    destruct (Z.eqb_spec (Compare (akey h x) k) 0) as [|Hx]; [discriminate|].
    intros Hnone Hin. apply elem_of_cons in Hin as [->|Hin]; [|auto].
    apply Hx. rewrite Hk. apply Compare_refl.
Qed.

Lemma lookup_key_absent (h : list Element) (k : bytes) (L : list addr) :
  (forall a, a ∈ L -> akey h a <> k) -> lookup_key h k L = None.
Proof.
  intros H. apply lookup_key_None. intros a Ha Hc.
  apply (H a Ha). apply Compare_eq. exact Hc.
Qed.

Lemma lookup_key_ext (h h' : list Element) (k : bytes) (L : list addr) :
  (forall a, a ∈ L -> akey h' a = akey h a) ->
  lookup_key h' k L = lookup_key h k L.
Proof.
  induction L as [|x l IH]; intros H; simpl; [reflexivity|].
  rewrite (H x) by set_solver. rewrite IH by (intros a Ha; apply H; set_solver).
  reflexivity.
Qed.

Lemma level_of_ext (h h' : list Element) (i : nat) (l : list addr) :
  (forall a, a ∈ l -> height h' a = height h a) ->
  level_of h' i l = level_of h i l.
Proof.
  induction l as [|a l IH]; intros H; [reflexivity|].
  rewrite !level_of_cons, (H a) by set_solver.
  rewrite IH by (intros b Hb; apply H; set_solver). reflexivity.
Qed.

Lemma level_of_below (h : list Element) (j : nat) (l : list addr) :
  level_of h (S j) l = filter (fun a => (S j < height h a)%nat) (level_of h j l).
Proof.
  induction l as [|a l IH]; [reflexivity|].
  rewrite !level_of_cons.
  destruct (decide (S j < height h a)%nat) as [Hs|Hs];
    destruct (decide (j < height h a)%nat) as [Hj|Hj]; try lia.
  - rewrite filter_cons_True by assumption. rewrite IH. reflexivity.
  - rewrite filter_cons_False by assumption. exact IH.
  - exact IH.
Qed.

Lemma level_of_sorted (h : list Element) (i : nat) (l : list addr) :
  StronglySorted (key_lt h) l -> StronglySorted (key_lt h) (level_of h i l).
Proof.
  induction 1 as [|a l Hs IH Hall]; [constructor|].
  rewrite level_of_cons. destruct (decide (i < height h a)%nat); [|exact IH].
  constructor; [exact IH|]. rewrite Forall_forall in *.
  intros b Hb. apply Hall. unfold level_of in Hb.
  apply list_elem_of_filter in Hb as [_ Hb]. exact Hb.
Qed.

Lemma Inv_fits_nonempty (s : state) (L : list addr) (a : addr) :
  Inv s L -> a ∈ L -> maxLevel (sl s) <= DefaultMaxLevel.
Proof.
  intros HI Ha. destruct (Z_le_dec (maxLevel (sl s)) DefaultMaxLevel) as [|Hbig]; [assumption|].
  rewrite (inv_overflow s L HI) in Ha by lia. set_solver.
Qed.

Lemma iterate_inj (s : state) (L l : list addr) :
  Inv s L -> iterate s = (Done l, s) -> l = L.
Proof. intros HI Hit. rewrite (iterate_spec s L HI) in Hit. congruence. Qed.

(** * The claims *)

(** ** Construction *)

Lemma NewWithMaxLevel_Done (src : Source) (n : Z) :
  1 <= n <= 64 ->
  NewWithMaxLevel src n =
  Done (mkState []
     (mkSkipList (mkNode None (replicate (Z.to_nat DefaultMaxLevel) None))
        n 0 src DefaultProbability
        (probabilityTable DefaultProbability DefaultMaxLevel)
        false (replicate (Z.to_nat DefaultMaxLevel) None))).
Proof.
  intros Hn. unfold NewWithMaxLevel.
  destruct (Z.ltb_spec n 1); [lia|]. destruct (Z.gtb_spec n 64); [lia|]. reflexivity.
Qed.

Lemma probabilityTable_loop_lookup (p : float64) (n : nat) (i : Z)
      (t : list float64) (j : nat) :
  (j < n)%nat ->
  probabilityTable_loop p n i t !! (length t + j)%nat
  = Some (Pow p (float64_of_int (i + Z.of_nat j - 1))).
Proof.
  revert i t j. induction n as [|n IH]; intros i t j Hj; [lia|]. simpl.
  destruct j as [|j].
  - assert (Hkeep : forall m i' t', (length t < length t')%nat ->
              probabilityTable_loop p m i' t' !! length t = t' !! length t).
    { induction m as [|m IHm]; intros i' t' Hlt; [reflexivity|]. simpl.
      rewrite IHm by (rewrite length_app; simpl; lia).
      apply lookup_app_l. exact Hlt. }
    rewrite Nat.add_0_r, Hkeep by (rewrite length_app; simpl; lia).
    rewrite list_lookup_middle by reflexivity. do 3 f_equal. lia.
  - replace (length t + S j)%nat with (length (t ++ [Pow p (float64_of_int (i - 1))]) + j)%nat
      by (rewrite length_app; simpl; lia).
    rewrite IH by lia. do 3 f_equal. lia.
Qed.

Lemma probabilityTable_lookup (p : float64) (m : Z) (j : nat) :
  (j < Z.to_nat m)%nat ->
  probabilityTable p m !! j = Some (Pow p (float64_of_int (Z.of_nat j))).
Proof.
  intros Hj. unfold probabilityTable.
  pose proof (probabilityTable_loop_lookup p (Z.to_nat m) 1 [] j Hj) as H.
  simpl in H. rewrite H. do 3 f_equal. lia.
Qed.

(** C2: [NewWithMaxLevel(n)] sizes the sentinel's forward array, the scratch
    buffer and the probability table by [DefaultMaxLevel] (18), not by [n]:
    for every n in [1, 64] each of the three has exactly 18 entries, whatever
    n is, while [maxLevel] is n. Entry i of the table is probability^i. *)
Theorem NewWithMaxLevel_sizes (src : Source) (n : Z) :
  1 <= n <= 64 ->
  exists s,
    NewWithMaxLevel src n = Done s
    /\ maxLevel (sl s) = n
    /\ length (next (sentinel (sl s))) = 18%nat
    /\ length (prevNodesCache (sl s)) = 18%nat
    /\ length (probTable (sl s)) = 18%nat
    /\ (forall i, (i < 18)%nat ->
          probTable (sl s) !! i
          = Some (Pow (probability (sl s)) (float64_of_int (Z.of_nat i)))).
Proof.
  intros Hn. eexists. split; [apply NewWithMaxLevel_Done; exact Hn|].
  cbn [sl maxLevel sentinel next prevNodesCache probTable probability].
  split; [reflexivity|]. split; [apply length_replicate|].
  split; [apply length_replicate|]. split; [apply probabilityTable_length|].
  intros i Hi. apply probabilityTable_lookup. unfold DefaultMaxLevel. lia.
Qed.

(** ** Lists with more levels than the sentinel has slots *)

Lemma New_overflow (src : Source) (n : Z) :
  DefaultMaxLevel < n <= 64 ->
  exists s,
    NewWithMaxLevel src n = Done s
    /\ mutex (sl s) = false
    /\ (length (next (sentinel (sl s))) < Z.to_nat (maxLevel (sl s)))%nat.
Proof.
  intros Hn. unfold DefaultMaxLevel in Hn.
  eexists. split; [apply NewWithMaxLevel_Done; lia|].
  cbn [sl mutex sentinel next maxLevel]. split; [reflexivity|].
  rewrite length_replicate. unfold DefaultMaxLevel. lia.
Qed.

(** C1: on a list built by [NewWithMaxLevel(n)] with 18 < n <= 64 every call
    of [Set] panics: the predecessor search indexes the sentinel's forward
    array, which has 18 slots, at n-1. The list is left as it was. *)
Theorem Set_panics_above_DefaultMaxLevel (src : Source) (n : Z) (k : bytes) (v : V) :
  DefaultMaxLevel < n <= 64 ->
  exists s, NewWithMaxLevel src n = Done s /\ Set_ k v s = (Panic, s).
Proof.
  intros Hn. destruct (New_overflow src n Hn) as (s & Hnew & Hmx & Hlt).
  exists s. split; [exact Hnew|]. apply Set_Panic; assumption.
Qed.

(** C3: on a list built by [NewWithMaxLevel(n)] with 18 < n <= 64 every call
    of [Get] panics instead of returning absent. *)
Theorem Get_panics_above_DefaultMaxLevel (src : Source) (n : Z) (k : bytes) :
  DefaultMaxLevel < n <= 64 ->
  exists s, NewWithMaxLevel src n = Done s /\ Get k s = (Panic, s).
Proof.
  intros Hn. destruct (New_overflow src n Hn) as (s & Hnew & Hmx & Hlt).
  exists s. split; [exact Hnew|]. apply Get_Panic; assumption.
Qed.

(** C4: on a list built by [NewWithMaxLevel(n)] with 18 < n <= 64, [Set]
    panics and the [Get] that follows panics too: no value comes back. *)
Theorem Set_then_Get_panics_above_DefaultMaxLevel
        (src : Source) (n : Z) (k : bytes) (v : V) :
  DefaultMaxLevel < n <= 64 ->
  exists s,
    NewWithMaxLevel src n = Done s
    /\ fst (Set_ k v s) = Panic
    /\ fst (Get k (snd (Set_ k v s))) = Panic.
Proof.
  intros Hn. destruct (New_overflow src n Hn) as (s & Hnew & Hmx & Hlt).
  exists s. split; [exact Hnew|].
  rewrite (Set_Panic s k v Hmx Hlt). cbn [fst snd].
  rewrite (Get_Panic s k Hmx Hlt). auto.
Qed.

(** C9: on a list built by [NewWithMaxLevel(n)] with 18 < n <= 64 every call
    of [Remove] panics instead of returning absent. *)
Theorem Remove_panics_above_DefaultMaxLevel (src : Source) (n : Z) (k : bytes) :
  DefaultMaxLevel < n <= 64 ->
  exists s, NewWithMaxLevel src n = Done s /\ Remove k s = (Panic, s).
Proof.
  intros Hn. destruct (New_overflow src n Hn) as (s & Hnew & Hmx & Hlt).
  exists s. split; [exact Hnew|]. apply Remove_Panic; assumption.
Qed.

(** ** Invariants of every reachable state *)

(** C6: in every reachable state the iteration [Front(); Next(); ...] ends
    and yields the elements in strictly ascending key order, so no two of
    them have the same key. *)
Theorem level0_strictly_ascending (s : state) :
  reachable s ->
  exists l,
    iterate s = (Done l, s)
    /\ StronglySorted (key_lt (heap s)) l
    /\ NoDup (akey (heap s) <$> l).
Proof.
  intros Hr. destruct (reachable_Inv s Hr) as (L & HI & _).
  exists L. split; [apply iterate_spec; exact HI|].
  split; [apply HI|]. apply sorted_keys_NoDup. apply HI.
Qed.

(** C7: in every reachable state [Length] is the number of elements the
    iteration over level 0 yields, as a 64-bit [int]; it is that number
    itself as long as the heap holds fewer than 2^63 elements. *)
Theorem Length_counts_level0 (s : state) :
  reachable s ->
  exists l,
    iterate s = (Done l, s)
    /\ Length (sl s) = wrap64 (Z.of_nat (length l))
    /\ (Z.of_nat (length (heap s)) < 2 ^ 63 -> Length (sl s) = Z.of_nat (length l)).
Proof.
  intros Hr. destruct (reachable_Inv s Hr) as (L & HI & _).
  exists L. split; [apply iterate_spec; exact HI|].
  split; [apply HI|]. intros Hmem.
  rewrite (inv_Length s L HI). apply wrap64_small.
  pose proof (Inv_length s L HI). lia.
Qed.

(** C8: in every reachable state and for every level i >= 1 of the sentinel,
    the walk along level i ends; the chain it yields is the chain of level
    i-1 restricted to the elements higher than i (a subsequence of it), has
    strictly ascending keys, and holds exactly the elements of the level-0
    chain whose height exceeds i. *)
Theorem levels_consistent (s : state) (i : nat) :
  reachable s ->
  (1 <= i < length (next (sentinel (sl s))))%nat ->
  exists l0 below here,
    iterate s = (Done l0, s)
    /\ chain (i - 1) s = (Done below, s)
    /\ chain i s = (Done here, s)
    /\ here = filter (fun a => (i < height (heap s) a)%nat) below
    /\ sublist here below
    /\ StronglySorted (key_lt (heap s)) here
    /\ (forall a, a ∈ here <-> a ∈ l0 /\ (i < height (heap s) a)%nat).
Proof.
  intros Hr Hi. destruct (reachable_Inv s Hr) as (L & HI & _).
  exists L, (level_of (heap s) (i - 1) L), (level_of (heap s) i L).
  split; [apply iterate_spec; exact HI|].
  split; [apply chain_spec; [exact HI|lia]|].
  split; [apply chain_spec; [exact HI|lia]|].
  assert (Hbelow : level_of (heap s) i L
                   = filter (fun a => (i < height (heap s) a)%nat)
                            (level_of (heap s) (i - 1) L)).
  { destruct i as [|j]; [lia|]. replace (S j - 1)%nat with j by lia.
    apply level_of_below. }
  split; [exact Hbelow|].
  split; [rewrite Hbelow; apply sublist_filter|].
  split; [apply level_of_sorted; apply HI|].
  intros a. unfold level_of. rewrite list_elem_of_filter. tauto.
Qed.

(** C10: in every reachable state [Get] gives back the state it was called
    in, whole: heap, sentinel, count, probability and table, scratch buffer
    and lock. *)
Theorem Get_leaves_state_unchanged (s : state) (k : bytes) :
  reachable s -> snd (Get k s) = s.
Proof.
  intros Hr. destruct (reachable_Inv s Hr) as (L & HI & Hmx).
  destruct (Z_le_dec (maxLevel (sl s)) DefaultMaxLevel) as [Hml|Hbig].
  - rewrite (Get_spec s L k HI Hmx Hml). reflexivity.
  - rewrite (Get_Panic s k Hmx (Inv_overflow_Panic s L HI Hbig)). reflexivity.
Qed.

(** C5: in a reachable state whose level-0 chain [l] holds an element [a]
    with key [k], [Set(k, v2)] returns [a]; the heap afterwards is the heap
    before with the value of [a] replaced by [v2] (key, height and forward
    array of [a] and every other element are as before); the sentinel, the
    count and every forward pointer are unchanged; the chains of all levels
    are the same; and [a] is the one element of the chain with key [k]. *)
Theorem Set_present_updates_in_place
        (s : state) (k : bytes) (v2 : V) (l : list addr) (a : addr) :
  reachable s ->
  iterate s = (Done l, s) -> a ∈ l -> akey (heap s) a = k ->
  exists s',
    Set_ k v2 s = (Done a, s')
    /\ heap s' = alter (fun e => with_value e v2) a (heap s)
    /\ avalue (heap s') a = Some v2
    /\ (forall b, akey (heap s') b = akey (heap s) b
                  /\ height (heap s') b = height (heap s) b)
    /\ (forall n i, slot s' n i = slot s n i)
    /\ sentinel (sl s') = sentinel (sl s)
    /\ Length (sl s') = Length (sl s)
    /\ iterate s' = (Done l, s')
    /\ (forall i, (i < length (next (sentinel (sl s))))%nat ->
          exists li, chain i s = (Done li, s) /\ chain i s' = (Done li, s'))
    /\ (forall b, b ∈ l -> akey (heap s') b = k -> b = a).
Proof.
  intros Hr Hit Ha Hk. destruct (reachable_Inv s Hr) as (L & HI & Hmx).
  pose proof (iterate_inj s L l HI Hit) as ->.
  pose proof (Inv_fits_nonempty s L a HI Ha) as Hml.
  pose proof (lookup_key_found (heap s) k L a (inv_sorted s L HI) Ha Hk) as Hfind.
  destruct (Set_hit s L k v2 a HI Hmx Hml Hfind) as (c & Hrun & Hlen).
  set (s' := with_heap (with_sl s (sl_with_prevs (sl s) c))
                       (alter (fun e => with_value e v2) a (heap s))) in *.
  assert (HI' : Inv s' L).
  { apply (Inv_store_value (with_sl s (sl_with_prevs (sl s) c))).
    apply Inv_with_prevs; assumption. }
  assert (Hslot : forall n i, slot s' n i = slot s n i).
  { intros n i. unfold s'.
    rewrite (slot_store_value (with_sl s (sl_with_prevs (sl s) c))).
    apply slot_same; reflexivity. }
  assert (Hobs : forall b, akey (heap s') b = akey (heap s) b
                           /\ height (heap s') b = height (heap s) b).
  { intros b. unfold s'. cbn [heap with_heap].
    rewrite akey_store_value, height_store_value. auto. }
  exists s'. split; [exact Hrun|]. split; [reflexivity|].
  split.
  { unfold s'. cbn [heap with_heap]. rewrite avalue_store_value.
    destruct (decide (a = a)) as [_|]; [|congruence].
    destruct (Inv_lookup s L a HI Ha) as (e & He & _).
    unfold avalue. rewrite He. reflexivity. }
  split; [exact Hobs|]. split; [exact Hslot|].
  split; [reflexivity|]. split; [reflexivity|].
  split; [apply iterate_spec; exact HI'|].
  split.
  { intros i Hi. exists (level_of (heap s) i L).
    split; [apply chain_spec; assumption|].
    rewrite (chain_spec s' L i HI' Hi). f_equal. f_equal.
    apply level_of_ext. intros b _. apply Hobs. }
  intros b Hb Hkb.
  apply (sorted_key_inj (heap s) L b a (inv_sorted s L HI) Hb Ha).
  destruct (Hobs b) as [<- _]. congruence.
Qed.

(** ** Lists whose levels fit the sentinel

    [NewWithMaxLevel(n)] with n <= 18 gives a list whose [maxLevel] is at
    most the number of slots of the sentinel; on the states reachable from
    it the operations return, and return what they should. *)

(** X2: the height draw returns a level between 1 and [maxLevel], and reads the
    probability table within its bounds. *)
Theorem randLevel_in_range (s : state) :
  reachable s -> maxLevel (sl s) <= DefaultMaxLevel ->
  exists h s', randLevel s = (Done h, s') /\ 1 <= h <= maxLevel (sl s).
Proof.
  intros Hr Hml. destruct (reachable_Inv s Hr) as (L & HI & _).
  pose proof (inv_maxLevel s L HI) as Hrange.
  pose proof (inv_probTable s L HI) as Htab.
  rewrite Z.min_l in Htab by assumption.
  destruct (randLevel_spec s ltac:(lia) Htab) as (h & src & Hrun & Hh).
  eauto.
Qed.

(** X1: [Set] returns an element, with the key and the value given, whose height
    is between 1 and [maxLevel]. *)
Theorem Set_completes (s : state) (k : bytes) (v : V) :
  reachable s -> maxLevel (sl s) <= DefaultMaxLevel ->
  exists a s',
    Set_ k v s = (Done a, s')
    /\ akey (heap s') a = k
    /\ avalue (heap s') a = Some v
    /\ (1 <= height (heap s') a)%nat
    /\ Z.of_nat (height (heap s') a) <= maxLevel (sl s).
Proof.
  intros Hr Hml. destruct (reachable_Inv s Hr) as (L & HI & Hmx).
  destruct (lookup_key (heap s) k L) as [a|] eqn:Hfind.
  - destruct (Set_hit s L k v a HI Hmx Hml Hfind) as (c & Hrun & Hlen).
    apply lookup_key_Some in Hfind as [Ha Hk].
    destruct (Inv_lookup s L a HI Ha) as (e & He & _).
    destruct (inv_height s L HI a Ha) as [Hh1 Hh2].
    eexists a, _. split; [exact Hrun|]. cbn [heap with_heap with_sl].
    rewrite akey_store_value, avalue_store_value, height_store_value.
    destruct (decide (a = a)) as [_|]; [|congruence].
    unfold avalue. rewrite He. auto.
  - destruct (lookup_key_split_miss s L k HI Hfind) as (lo & hi & HL & Hlo & Hhi).
    destruct (Set_miss s L lo hi k v HI Hmx Hml HL Hlo Hhi)
      as (s' & Hrun & _ & _ & _ & Hka & Hva & _ & Hh1 & Hh2).
    exists (length (heap s)), s'. auto.
Qed.

(** X3: [Get] returns an element exactly when the level-0 chain holds an element
    with the key searched, and then returns that element; the key of the
    element returned is the key searched. *)
Theorem Get_finds_exact_key (s : state) (k : bytes) (l : list addr) :
  reachable s -> maxLevel (sl s) <= DefaultMaxLevel ->
  iterate s = (Done l, s) ->
  exists r,
    Get k s = (Done r, s)
    /\ (forall a, r = Some a <-> a ∈ l /\ akey (heap s) a = k).
Proof.
  intros Hr Hml Hit. destruct (reachable_Inv s Hr) as (L & HI & Hmx).
  pose proof (iterate_inj s L l HI Hit) as ->.
  exists (lookup_key (heap s) k L). split; [apply Get_spec; assumption|].
  intros a. split.
  - apply lookup_key_Some.
  - intros [Ha Hk]. apply lookup_key_found; [apply HI|assumption|assumption].
Qed.

(** X4: [Set(k, v)] and then [Get(k)]: the element [Set] returned, holding [v]. *)
Theorem Set_then_Get (s : state) (k : bytes) (v : V) :
  reachable s -> maxLevel (sl s) <= DefaultMaxLevel ->
  exists a s',
    Set_ k v s = (Done a, s')
    /\ Get k s' = (Done (Some a), s')
    /\ avalue (heap s') a = Some v.
Proof.
  intros Hr Hml. destruct (reachable_Inv s Hr) as (L & HI & Hmx).
  destruct (lookup_key (heap s) k L) as [a|] eqn:Hfind.
  - destruct (Set_hit s L k v a HI Hmx Hml Hfind) as (c & Hrun & Hlen).
    set (s' := with_heap (with_sl s (sl_with_prevs (sl s) c))
                         (alter (fun e => with_value e v) a (heap s))) in *.
    assert (HI' : Inv s' L).
    { apply (Inv_store_value (with_sl s (sl_with_prevs (sl s) c))).
      apply Inv_with_prevs; assumption. }
    exists a, s'. split; [exact Hrun|]. split.
    + rewrite (Get_spec s' L k HI' Hmx Hml). do 2 f_equal.
      unfold s'. cbn [heap with_heap with_sl].
      rewrite (lookup_key_ext (heap s)); [exact Hfind|].
      intros b _. apply akey_store_value.
    + apply lookup_key_Some in Hfind as [Ha _].
      destruct (Inv_lookup s L a HI Ha) as (e & He & _).
      unfold s'. cbn [heap with_heap with_sl]. rewrite avalue_store_value.
      destruct (decide (a = a)) as [_|]; [|congruence].
      unfold avalue. rewrite He. reflexivity.
  - destruct (lookup_key_split_miss s L k HI Hfind) as (lo & hi & HL & Hlo & Hhi).
    destruct (Set_miss s L lo hi k v HI Hmx Hml HL Hlo Hhi)
      as (s' & Hrun & HI' & Hmx' & Hml' & Hka & Hva & _).
    exists (length (heap s)), s'. split; [exact Hrun|]. split; [|exact Hva].
    rewrite (Get_spec s' _ k HI' Hmx') by (rewrite Hml'; exact Hml).
    do 2 f_equal. apply lookup_key_found; [apply HI'|set_solver|exact Hka].
Qed.

(** X5: [Remove(k)] and then [Get(k)]: absent. *)
Theorem Remove_then_Get (s : state) (k : bytes) :
  reachable s -> maxLevel (sl s) <= DefaultMaxLevel ->
  exists r s', Remove k s = (Done r, s') /\ Get k s' = (Done None, s').
Proof.
  intros Hr Hml. destruct (reachable_Inv s Hr) as (L & HI & Hmx).
  destruct (lookup_key (heap s) k L) as [a|] eqn:Hfind.
  - destruct (lookup_key_split_at s L k a HI Hfind) as (lo & hi & HL & Hlo & Hka).
    destruct (Remove_hit s L lo hi k a HI Hmx Hml HL Hlo Hka)
      as (s' & Hrun & HI' & Hmx' & Hml' & Hobs & _).
    exists (Some a), s'. split; [exact Hrun|].
    rewrite (Get_spec s' _ k HI' Hmx') by (rewrite Hml'; exact Hml).
    do 2 f_equal. apply lookup_key_absent. intros b Hb Hkb.
    destruct (Hobs b) as [Hkey _]. rewrite Hkey in Hkb.
    pose proof (inv_sorted s L HI) as Hs.
    assert (HbL : b ∈ L) by (rewrite HL; set_solver).
    assert (HaL : a ∈ L) by (rewrite HL; set_solver).
    assert (b = a) by (apply (sorted_key_inj (heap s) L b a Hs HbL HaL); congruence).
    subst b. pose proof (Inv_NoDup s L HI) as Hnd. rewrite HL in Hnd.
    apply NoDup_app in Hnd as (_ & Hdisj & Hnd).
    apply NoDup_cons in Hnd as [Hnotin _].
    apply elem_of_app in Hb as [Hb|Hb]; [|contradiction].
    apply (Hdisj a Hb). set_solver.
  - destruct (Remove_miss s L k HI Hmx Hml Hfind) as (c & Hrun & Hlen).
    eexists None, _. split; [exact Hrun|].
    rewrite (Get_spec _ L k (Inv_with_prevs s L c Hlen HI) Hmx Hml).
    cbn [heap with_sl]. rewrite Hfind. reflexivity.
Qed.

(** X6: [Remove] of a key the chain holds returns its element, takes it out of
    the chain of every level and takes one off the count. *)
Theorem Remove_present (s : state) (k : bytes) (l : list addr) (a : addr) :
  reachable s ->
  iterate s = (Done l, s) -> a ∈ l -> akey (heap s) a = k ->
  exists s' lo hi,
    l = lo ++ a :: hi
    /\ Remove k s = (Done (Some a), s')
    /\ iterate s' = (Done (lo ++ hi), s')
    /\ (forall i, (i < length (next (sentinel (sl s))))%nat ->
          chain i s' = (Done (level_of (heap s) i (lo ++ hi)), s'))
    /\ Length (sl s') = wrap64 (Length (sl s) - 1).
Proof.
  intros Hr Hit Ha Hk. destruct (reachable_Inv s Hr) as (L & HI & Hmx).
  pose proof (iterate_inj s L l HI Hit) as ->.
  pose proof (Inv_fits_nonempty s L a HI Ha) as Hml.
  pose proof (lookup_key_found (heap s) k L a (inv_sorted s L HI) Ha Hk) as Hfind.
  destruct (lookup_key_split_at s L k a HI Hfind) as (lo & hi & HL & Hlo & Hka).
  destruct (Remove_hit s L lo hi k a HI Hmx Hml HL Hlo Hka)
    as (s' & Hrun & HI' & Hmx' & Hml' & Hobs & _ & HLen).
  exists s', lo, hi. split; [exact HL|]. split; [exact Hrun|].
  split; [apply iterate_spec; exact HI'|]. split; [|exact HLen].
  intros i Hi. rewrite (chain_spec s' (lo ++ hi) i HI').
  - do 2 f_equal. apply level_of_ext. intros b _. apply Hobs.
  - rewrite (inv_sentinel s' _ HI'), <- (inv_sentinel s L HI). exact Hi.
Qed.

(** X7: [Remove] of a key the chain does not hold returns absent and changes
    nothing but the scratch buffer. *)
Theorem Remove_absent (s : state) (k : bytes) (l : list addr) :
  reachable s -> maxLevel (sl s) <= DefaultMaxLevel ->
  iterate s = (Done l, s) ->
  (forall a, a ∈ l -> akey (heap s) a <> k) ->
  exists c, Remove k s = (Done None, with_sl s (sl_with_prevs (sl s) c)).
Proof.
  intros Hr Hml Hit Habs. destruct (reachable_Inv s Hr) as (L & HI & Hmx).
  pose proof (iterate_inj s L l HI Hit) as ->.
  destruct (Remove_miss s L k HI Hmx Hml (lookup_key_absent (heap s) k L Habs))
    as (c & Hrun & _).
  eauto.
Qed.

(** * Further properties *)

(** ** [Get] compares for equality, whatever the state *)

Lemma advance_Done (k : bytes) (i : nat) :
  forall (fuel : nat) (prev : nodeRef) (nxt : option addr) (s s' : state)
         (p : nodeRef) (n : option addr),
    advance fuel k i prev nxt s = (Done (p, n), s') ->
    s' = s /\ not_before s k n.
Proof.
  induction fuel as [|fuel IH]; intros prev [a|] s s' p n Hrun; simpl in Hrun;
    try (injection Hrun as <- <- <-; split; [reflexivity|exact I]).
  - unfold bind, load in Hrun. destruct (heap s !! a) as [e|] eqn:He; [|discriminate].
    destruct (Z.gtb_spec (Compare k (key e)) 0); [discriminate|].
    injection Hrun as <- <- <-. split; [reflexivity|]. exists e. auto.
  - unfold bind at 1 in Hrun. unfold load in Hrun.
    destruct (heap s !! a) as [e|] eqn:He; [|discriminate].
    destruct (Z.gtb_spec (Compare k (key e)) 0).
    + unfold bind in Hrun. rewrite NextAt_slot in Hrun.
      destruct (slot s (ElemNode a) i) as [nx|]; [|discriminate].
      apply (IH _ _ _ _ _ _ Hrun).
    + injection Hrun as <- <- <-. split; [reflexivity|]. exists e. auto.
Qed.

Lemma Get_levels_Done (k : bytes) (fuel : nat) :
  forall (lvl : nat) (prev : nodeRef) (nxt : option addr) (s s' : state)
         (p : nodeRef) (n : option addr),
    not_before s k nxt ->
    Get_levels fuel k lvl prev nxt s = (Done (p, n), s') ->
    s' = s /\ not_before s k n.
Proof.
  induction lvl as [|i IH]; intros prev nxt s s' p n Hnxt Hrun; simpl in Hrun.
  - injection Hrun as <- <- <-. auto.
  - unfold bind at 1 in Hrun. rewrite NextAt_slot in Hrun.
    destruct (slot s prev i) as [nx|]; [|discriminate].
    unfold bind at 1 in Hrun.
    destruct (advance fuel k i prev nx s) as [[[p1 n1]| |] s1] eqn:Hadv;
      try discriminate.
    destruct (advance_Done k i fuel prev nx s s1 p1 n1 Hadv) as [-> Hn1].
    apply (IH _ _ _ _ _ _ Hn1 Hrun).
Qed.

Lemma Get_body_exact (s s' : state) (k : bytes) (a : addr) :
  Get_body k s = (Done (Some a), s') ->
  s' = s /\ exists e, heap s !! a = Some e /\ key e = k.
Proof.
  unfold Get_body, walk_bound, levels.
  unfold bind at 1. unfold gets at 1. unfold bind at 1. unfold gets at 1.
  unfold bind at 1.
  destruct (Get_levels (length (heap s)) k (Z.to_nat (maxLevel (sl s))) Sentinel None s)
    as [[[p n]| |] s1] eqn:Hlv; try discriminate.
  destruct (Get_levels_Done k _ _ Sentinel None s s1 p n I Hlv) as [-> Hn].
  cbn [snd]. destruct n as [c|]; simpl.
  - destruct Hn as (e & He & Hle).
    unfold bind at 1. rewrite (bind_Done _ _ s s e (load_Done s c e He)).
    unfold ret at 1.
    destruct (Z.leb_spec (Compare (key e) k) 0) as [Hge|]; [|discriminate].
    intros [= <- <-]. split; [reflexivity|]. exists e. split; [exact He|].
    apply Compare_eq. pose proof (Compare_antisym k (key e)). lia.
  - discriminate.
Qed.

(** X9: whatever the state, sorted or not, reachable or not: when [Get(k)]
    returns an element, the key of that element is [k], byte for byte, and
    the state is the one [Get] was called in. The test
    [bytes.Compare(next.key, key) <= 0] after the search is an equality
    test, because the search stops only on a key that is not smaller. *)
Theorem Get_returns_exact_key (s s' : state) (k : bytes) (a : addr) :
  Get k s = (Done (Some a), s') ->
  s' = s /\ Element_Key a s = (Done k, s).
Proof.
  unfold Get, with_lock. destruct (mutex (sl s)) eqn:Hmx; [discriminate|].
  destruct (Get_body k (set_mutex true s)) as [o s1] eqn:Hbody.
  intros [= -> <-].
  destruct (Get_body_exact _ _ k a Hbody) as [-> (e & He & Hk)].
  split; [apply set_mutex_restore; exact Hmx|].
  unfold Element_Key. rewrite (bind_Done _ _ s s e (load_Done s a e He)).
  rewrite Hk. reflexivity.
Qed.

(** ** What no operation ever does *)

Lemma stable_refl (s : state) : stable s s.
Proof. constructor; eauto. Qed.

Lemma stable_trans (s1 s2 s3 : state) :
  stable s1 s2 -> stable s2 s3 -> stable s1 s3.
Proof.
  intros [H1 Z1 S1 P1 M1] [H2 Z2 S2 P2 M2]. constructor; try congruence; [|lia].
  intros b e He. destruct (H1 b e He) as (e1 & He1 & K1 & B1 & L1).
  destruct (H2 b e1 He1) as (e2 & He2 & K2 & B2 & L2).
  exists e2. repeat split; congruence.
Qed.

Lemma keeps_ret {A} (a : A) : keeps (ret a).
Proof. intros s. apply stable_refl. Qed.

Lemma keeps_panic {A} : keeps (@panic A).
Proof. intros s. apply stable_refl. Qed.

Lemma keeps_diverge {A} : keeps (@diverge A).
Proof. intros s. apply stable_refl. Qed.

Lemma keeps_gets {A} (f : state -> A) : keeps (gets f).
Proof. intros s. apply stable_refl. Qed.

Lemma keeps_bind {A B} (m : M A) (f : A -> M B) :
  keeps m -> (forall a, keeps (f a)) -> keeps (bind m f).
Proof.
  intros Hm Hf s. unfold bind. specialize (Hm s).
  destruct (m s) as [[a| |] s1]; simpl in *; try exact Hm.
  eapply stable_trans; [exact Hm|apply Hf].
Qed.

Lemma keeps_load (a : addr) : keeps (load a).
Proof. intros s. unfold load. destruct (heap s !! a); apply stable_refl. Qed.

Lemma keeps_index {A} (xs : list A) (i : nat) : keeps (index xs i).
Proof. unfold index. destruct (xs !! i); [apply keeps_ret|apply keeps_panic]. Qed.

Lemma keeps_deref {A} (p : option A) : keeps (deref p).
Proof. destruct p; [apply keeps_ret|apply keeps_panic]. Qed.

Lemma keeps_load_node (n : nodeRef) : keeps (load_node n).
Proof.
  destruct n; simpl; [apply keeps_gets|].
  apply keeps_bind; [apply keeps_load|intros; apply keeps_ret].
Qed.

Lemma keeps_NextAt (n : nodeRef) (i : nat) : keeps (NextAt n i).
Proof.
  apply keeps_bind; [apply keeps_load_node|intros; apply keeps_index].
Qed.

Lemma keeps_Next (n : nodeRef) : keeps (Next n).
Proof. apply keeps_NextAt. Qed.

Lemma stable_alter (s : state) (a : addr) (f : Element -> Element) :
  (forall e, heap s !! a = Some e ->
             key (f e) = key e /\ list_ (node (f e)) = list_ (node e)
             /\ length (next (node (f e))) = length (next (node e))) ->
  stable s (with_heap s (alter f a (heap s))).
Proof.
  intros Hf. constructor; simpl; try reflexivity.
  - intros b e He. rewrite list_lookup_alter. case_decide as Hab.
    + subst b. rewrite He. simpl. exists (f e). split; [reflexivity|]. apply Hf. exact He.
    + exists e. auto.
  - rewrite length_alter. lia.
Qed.

Lemma keeps_store_next (n : nodeRef) (i : nat) (p : option addr) :
  keeps (store_next n i p).
Proof.
  intros s. unfold store_next, bind.
  pose proof (keeps_load_node n s) as Hk.
  destruct (load_node n s) as [[en| |] s1] eqn:Hl; try exact Hk. clear Hk.
  assert (Hs1 : s1 = s /\ node_at s n = Some en).
  { destruct n as [|a]; simpl in Hl.
    - unfold gets in Hl. injection Hl as <- <-. auto.
    - unfold bind, load in Hl. simpl. destruct (heap s !! a); [|discriminate].
      injection Hl as <- <-. auto. }
  destruct Hs1 as [-> Hen].
  destruct (decide (i < length (next en))%nat); [|apply stable_refl].
  destruct n as [|a]; unfold modify; cbn [snd].
  - simpl in Hen. injection Hen as <-.
    constructor; simpl; try reflexivity; eauto. apply length_insert.
  - apply stable_alter. intros e He. simpl in Hen. rewrite He in Hen.
    injection Hen as <-. simpl. rewrite length_insert. auto.
Qed.

Lemma keeps_store_value (a : addr) (v : V) : keeps (store_value a v).
Proof.
  apply keeps_bind; [apply keeps_load|]. intros _ s. unfold modify. cbn [snd].
  apply stable_alter. intros e _. auto.
Qed.

Lemma keeps_alloc (e : Element) : keeps (alloc e).
Proof.
  intros s. unfold alloc. cbn [snd]. constructor; simpl; try reflexivity.
  - intros b e0 He0. exists e0. split; [|auto].
    apply lookup_app_l_Some. exact He0.
  - rewrite length_app. lia.
Qed.

Lemma keeps_store_prev (i : nat) (prev : nodeRef) : keeps (store_prev i prev).
Proof.
  intros s. unfold store_prev.
  destruct (decide (i < length (prevNodesCache (sl s)))%nat); [|apply stable_refl].
  cbn [snd]. constructor; simpl; try reflexivity; eauto. apply length_insert.
Qed.

Lemma keeps_make_next (n : Z) : keeps (make_next n).
Proof. unfold make_next. destruct (n <? 0); [apply keeps_panic|apply keeps_ret]. Qed.

Lemma keeps_incr_Length : keeps incr_Length.
Proof. intros s. constructor; simpl; try reflexivity; eauto. Qed.

Lemma keeps_decr_Length : keeps decr_Length.
Proof. intros s. constructor; simpl; try reflexivity; eauto. Qed.

Lemma keeps_set_randSource (src : Source) :
  keeps (modify (fun s => with_sl s (sl_with_randSource (sl s) src))).
Proof. intros s. constructor; simpl; try reflexivity; eauto. Qed.

Lemma keeps_SetProbability (p : float64) : keeps (SetProbability p).
Proof. intros s. constructor; simpl; try reflexivity; eauto. Qed.

Lemma keeps_with_lock {A} (body : M A) : keeps body -> keeps (with_lock body).
Proof.
  intros Hb s. unfold with_lock. destruct (mutex (sl s)); [apply stable_refl|].
  specialize (Hb (set_mutex true s)).
  destruct (body (set_mutex true s)) as [o s1]. cbn [snd] in *.
  destruct Hb as [H1 Z1 S1 P1 M1]. constructor; simpl in *; auto.
Qed.

Lemma keeps_for_each (l : list nat) (body : nat -> M unit) :
  (forall i, keeps (body i)) -> keeps (for_each l body).
Proof.
  intros Hb. induction l as [|i l IH]; simpl; [apply keeps_ret|].
  apply keeps_bind; [apply Hb|intros _; exact IH].
Qed.

Create HintDb keeps.

#[local] Hint Resolve keeps_ret keeps_panic keeps_diverge keeps_gets keeps_load
  keeps_index keeps_deref keeps_NextAt keeps_Next keeps_store_next keeps_store_value
  keeps_alloc keeps_store_prev keeps_make_next keeps_incr_Length
  keeps_decr_Length keeps_set_randSource : keeps.

Ltac keeps_step :=
  first
    [ solve [auto with keeps]
    | apply keeps_for_each; intros ?
    | apply keeps_bind; [|intros ?] ].

Lemma keeps_advance (k : bytes) (i : nat) (fuel : nat) :
  forall prev nxt, keeps (advance fuel k i prev nxt).
Proof.
  induction fuel as [|fuel IH]; intros prev [a|]; simpl; auto with keeps.
  - keeps_step; [solve [auto with keeps]|]. destruct (Compare k (key a0) >? 0); auto with keeps.
  - keeps_step; [solve [auto with keeps]|].
    destruct (Compare k (key a0) >? 0); [|auto with keeps].
    keeps_step; [solve [auto with keeps]|]. apply IH.
Qed.

Lemma keeps_Get_levels (k : bytes) (fuel : nat) :
  forall lvl prev nxt, keeps (Get_levels fuel k lvl prev nxt).
Proof.
  induction lvl as [|i IH]; intros prev nxt; simpl; [solve [auto with keeps]|].
  keeps_step; [solve [auto with keeps]|]. keeps_step; [apply keeps_advance|]. apply IH.
Qed.

Lemma keeps_prev_levels (k : bytes) (fuel : nat) :
  forall lvl prev, keeps (prev_levels fuel k lvl prev).
Proof.
  induction lvl as [|i IH]; intros prev; simpl; [solve [auto with keeps]|].
  keeps_step; [solve [auto with keeps]|]. keeps_step; [apply keeps_advance|].
  keeps_step; [solve [auto with keeps]|]. apply IH.
Qed.

Lemma keeps_getPrevElementNodes (k : bytes) : keeps (getPrevElementNodes k).
Proof.
  unfold getPrevElementNodes, walk_bound, levels.
  do 2 (keeps_step; [solve [auto with keeps]|]).
  keeps_step; [apply keeps_prev_levels|auto with keeps].
Qed.

Lemma keeps_matches (element : option addr) (k : bytes) : keeps (matches element k).
Proof.
  destruct element; simpl; [|auto with keeps].
  keeps_step; auto with keeps.
Qed.

Lemma keeps_randLevel_loop (r : float64) :
  forall n level, keeps (randLevel_loop n r level).
Proof.
  induction n as [|n IH]; intros level; simpl.
  - keeps_step; [solve [auto with keeps]|]. destruct (level <? a); [|auto with keeps].
    do 2 (keeps_step; [solve [auto with keeps]|]).
    destruct (PrimFloat.ltb r a1); auto with keeps.
  - keeps_step; [solve [auto with keeps]|]. destruct (level <? a); [|auto with keeps].
    do 2 (keeps_step; [solve [auto with keeps]|]).
    destruct (PrimFloat.ltb r a1); [apply IH|auto with keeps].
Qed.

Lemma keeps_randLevel : keeps randLevel.
Proof.
  unfold randLevel. keeps_step; [solve [auto with keeps]|]. simpl.
  keeps_step; [solve [auto with keeps]|].
  unfold levels. keeps_step; [solve [auto with keeps]|]. apply keeps_randLevel_loop.
Qed.

Lemma keeps_Set_body (k : bytes) (v : V) : keeps (Set_body k v).
Proof.
  unfold Set_body.
  keeps_step; [apply keeps_getPrevElementNodes|].
  do 3 (keeps_step; [solve [auto with keeps]|]).
  keeps_step; [apply keeps_matches|].
  assert (Hins : keeps
    (let* h := randLevel in
     let* nx := make_next h in
     let* a4 := alloc (mkElement (mkNode (Some ThisList) nx) k v) in
     for_range (length nx) (fun i =>
       let* pi := index a i in
       let* ni := deref pi in
       let* succ := NextAt ni i in
       store_next (ElemNode a4) i succ ;;
       store_next ni i (Some a4)) ;;
     incr_Length ;;
     ret a4)).
  { keeps_step; [apply keeps_randLevel|].
    do 2 (keeps_step; [solve [auto with keeps]|]).
    keeps_step; [|repeat keeps_step].
    unfold for_range. repeat keeps_step. }
  destruct a2 as [el|]; [|exact Hins].
  destruct a3; [|exact Hins].
  repeat keeps_step.
Qed.

Lemma keeps_Remove_body (k : bytes) : keeps (Remove_body k).
Proof.
  unfold Remove_body.
  keeps_step; [apply keeps_getPrevElementNodes|].
  do 3 (keeps_step; [solve [auto with keeps]|]).
  keeps_step; [apply keeps_matches|].
  destruct a2 as [el|]; [|auto with keeps].
  destruct a3; [|auto with keeps].
  keeps_step; [solve [auto with keeps]|].
  keeps_step; [|repeat keeps_step].
  unfold for_range. repeat keeps_step.
Qed.

Lemma keeps_Get_body (k : bytes) : keeps (Get_body k).
Proof.
  unfold Get_body, walk_bound, levels.
  do 2 (keeps_step; [solve [auto with keeps]|]).
  keeps_step; [apply keeps_Get_levels|].
  keeps_step; [apply keeps_matches|].
  destruct a2; auto with keeps.
Qed.

(** X10: from any state whatever, and however the call ends, [Set], [Get],
    [Remove] and [SetProbability] leave every element that was allocated
    allocated, with its key, its back pointer and the length of its forward
    array; they leave the number of slots of the sentinel and of the scratch
    buffer, and [maxLevel]. Keys are immutable, heights are fixed at
    creation, and nothing is ever freed or resized. *)
Theorem operations_keep_elements (s : state) (k : bytes) (v : V) (p : float64) :
  stable s (snd (Set_ k v s))
  /\ stable s (snd (Get k s))
  /\ stable s (snd (Remove k s))
  /\ stable s (snd (SetProbability p s)).
Proof.
  split; [apply keeps_with_lock, keeps_Set_body|].
  split; [apply keeps_with_lock, keeps_Get_body|].
  split; [apply keeps_with_lock, keeps_Remove_body|].
  apply keeps_SetProbability.
Qed.

(** ** Reading an element *)

Lemma Element_Key_akey (s : state) (a : addr) (i : nat) :
  (i < height (heap s) a)%nat ->
  Element_Key a s = (Done (akey (heap s) a), s).
Proof.
  intros Hi. destruct (height_pos_lookup (heap s) a i Hi) as (e & He & Hk & _).
  unfold Element_Key. rewrite (bind_Done _ _ s s e (load_Done s a e He)), Hk.
  reflexivity.
Qed.

Lemma Element_Value_avalue (s : state) (a : addr) (v : V) :
  avalue (heap s) a = Some v -> Element_Value a s = (Done v, s).
Proof.
  unfold avalue. destruct (heap s !! a) as [e|] eqn:He; [|discriminate].
  intros [= <-]. unfold Element_Value.
  rewrite (bind_Done _ _ s s e (load_Done s a e He)). reflexivity.
Qed.

Lemma Inv_allocated (s : state) (L : list addr) (a : addr) :
  Inv s L -> a ∈ L -> (0 < height (heap s) a)%nat.
Proof. intros HI Ha. destruct (inv_height s L HI a Ha). lia. Qed.

(** ** Other keys *)

Lemma lookup_key_skip (h h' : list Element) (k' : bytes) (lo hi : list addr) (a : addr) :
  (forall b, b ∈ lo ++ hi -> akey h' b = akey h b) ->
  akey h' a <> k' ->
  lookup_key h' k' (lo ++ a :: hi) = lookup_key h k' (lo ++ hi).
Proof.
  intros Hk Ha. induction lo as [|x lo IH]; simpl.
  - destruct (Z.eqb_spec (Compare (akey h' a) k') 0) as [E|_].
    + exfalso. apply Ha. apply Compare_eq. exact E.
    + apply lookup_key_ext. intros b Hb. apply Hk. exact Hb.
  - rewrite (Hk x) by set_solver.
    destruct (Compare (akey h x) k' =? 0); [reflexivity|].
    apply IH. intros b Hb. apply Hk. set_solver.
Qed.

(** X11: on a reachable state of a list with maxLevel <= 18, [Set(k, v)]
    changes nothing for any other key [k']: [Get(k')] returns after the call
    what it returned before, the same element or absent, and the value of
    that element is the one it had. *)
Theorem Set_leaves_other_keys (s : state) (k k' : bytes) (v : V) :
  reachable s -> maxLevel (sl s) <= DefaultMaxLevel -> k' <> k ->
  exists a s' r,
    Set_ k v s = (Done a, s')
    /\ Get k' s = (Done r, s)
    /\ Get k' s' = (Done r, s')
    /\ (forall b, r = Some b -> avalue (heap s') b = avalue (heap s) b).
Proof.
  intros Hr Hml Hne. destruct (reachable_Inv s Hr) as (L & HI & Hmx).
  pose proof (Get_spec s L k' HI Hmx Hml) as Hget.
  destruct (lookup_key (heap s) k L) as [a|] eqn:Hfind.
  - destruct (Set_hit s L k v a HI Hmx Hml Hfind) as (c & Hrun & Hlen).
    set (s' := with_heap (with_sl s (sl_with_prevs (sl s) c))
                         (alter (fun e => with_value e v) a (heap s))) in *.
    assert (HI' : Inv s' L).
    { apply (Inv_store_value (with_sl s (sl_with_prevs (sl s) c))).
      apply Inv_with_prevs; assumption. }
    exists a, s', (lookup_key (heap s) k' L).
    split; [exact Hrun|]. split; [exact Hget|]. split.
    + rewrite (Get_spec s' L k' HI' Hmx Hml). do 2 f_equal.
      unfold s'. cbn [heap with_heap with_sl].
      apply lookup_key_ext. intros b _. apply akey_store_value.
    + intros b Hb. apply lookup_key_Some in Hb as [_ Hkb].
      apply lookup_key_Some in Hfind as [_ Hka].
      unfold s'. cbn [heap with_heap with_sl]. rewrite avalue_store_value.
      destruct (decide (b = a)) as [->|]; [congruence|reflexivity].
  - destruct (lookup_key_split_miss s L k HI Hfind) as (lo & hi & HL & Hlo & Hhi).
    destruct (Set_miss s L lo hi k v HI Hmx Hml HL Hlo Hhi)
      as (s' & Hrun & HI' & Hmx' & Hml' & Hka & Hva & Hoth & _).
    exists (length (heap s)), s', (lookup_key (heap s) k' L).
    split; [exact Hrun|]. split; [exact Hget|]. split.
    + rewrite (Get_spec s' _ k' HI' Hmx') by (rewrite Hml'; exact Hml).
      do 2 f_equal. rewrite HL. apply lookup_key_skip; [|congruence].
      intros b Hb. apply Hoth. intros ->.
      pose proof (Inv_lt_heap s L _ HI ltac:(rewrite HL; exact Hb)). lia.
    + intros b Hb. apply lookup_key_Some in Hb as [Hb _].
      apply Hoth. intros ->. pose proof (Inv_lt_heap s L _ HI Hb). lia.
Qed.

(** X12: on a reachable state of a list with maxLevel <= 18, [Remove(k)]
    changes nothing for any other key [k']: [Get(k')] returns after the call
    what it returned before, and the value of that element is the one it
    had. *)
Theorem Remove_leaves_other_keys (s : state) (k k' : bytes) :
  reachable s -> maxLevel (sl s) <= DefaultMaxLevel -> k' <> k ->
  exists o s' r,
    Remove k s = (Done o, s')
    /\ Get k' s = (Done r, s)
    /\ Get k' s' = (Done r, s')
    /\ (forall b, r = Some b -> avalue (heap s') b = avalue (heap s) b).
Proof.
  intros Hr Hml Hne. destruct (reachable_Inv s Hr) as (L & HI & Hmx).
  pose proof (Get_spec s L k' HI Hmx Hml) as Hget.
  destruct (lookup_key (heap s) k L) as [a|] eqn:Hfind.
  - destruct (lookup_key_split_at s L k a HI Hfind) as (lo & hi & HL & Hlo & Hka).
    destruct (Remove_hit s L lo hi k a HI Hmx Hml HL Hlo Hka)
      as (s' & Hrun & HI' & Hmx' & Hml' & Hobs & _).
    exists (Some a), s', (lookup_key (heap s) k' L).
    split; [exact Hrun|]. split; [exact Hget|]. split.
    + rewrite (Get_spec s' _ k' HI' Hmx') by (rewrite Hml'; exact Hml).
      do 2 f_equal. rewrite HL. symmetry.
      apply (lookup_key_skip (heap s') (heap s) k' lo hi a).
      * intros b _. symmetry. apply Hobs.
      * congruence.
    + intros b _. apply Hobs.
  - destruct (Remove_miss s L k HI Hmx Hml Hfind) as (c & Hrun & Hlen).
    eexists None, _, (lookup_key (heap s) k' L).
    split; [exact Hrun|]. split; [exact Hget|]. split.
    + rewrite (Get_spec _ L k' (Inv_with_prevs s L c Hlen HI) Hmx Hml). reflexivity.
    + reflexivity.
Qed.

(** ** Insertion *)

(** X13: on a reachable state of a list with maxLevel <= 18 whose chain [l]
    holds no element with key [k], [Set(k, v)] returns a newly allocated
    element with key [k] and value [v]; the chain afterwards is [l] with that
    element put between the elements with smaller keys and those with
    greater keys; [Length] grows by one (as a 64-bit int); and every other
    element keeps its key, value and height. *)
Theorem Set_absent_inserts (s : state) (k : bytes) (v : V) (l : list addr) :
  reachable s -> maxLevel (sl s) <= DefaultMaxLevel ->
  iterate s = (Done l, s) ->
  (forall b, b ∈ l -> akey (heap s) b <> k) ->
  exists a s' lo hi,
    l = lo ++ hi
    /\ Set_ k v s = (Done a, s')
    /\ a = length (heap s)
    /\ a ∉ l
    /\ iterate s' = (Done (lo ++ a :: hi), s')
    /\ (forall b, b ∈ lo -> Compare (akey (heap s) b) k < 0)
    /\ (forall b, b ∈ hi -> Compare k (akey (heap s) b) < 0)
    /\ Element_Key a s' = (Done k, s')
    /\ Element_Value a s' = (Done v, s')
    /\ Length (sl s') = wrap64 (Length (sl s) + 1)
    /\ (forall b, b <> a ->
          akey (heap s') b = akey (heap s) b /\
          avalue (heap s') b = avalue (heap s) b /\
          height (heap s') b = height (heap s) b).
Proof.
  intros Hr Hml Hit Habs. destruct (reachable_Inv s Hr) as (L & HI & Hmx).
  pose proof (iterate_inj s L l HI Hit) as ->.
  pose proof (lookup_key_absent (heap s) k L Habs) as Hfind.
  destruct (lookup_key_split_miss s L k HI Hfind) as (lo & hi & HL & Hlo & Hhi).
  destruct (Set_miss s L lo hi k v HI Hmx Hml HL Hlo Hhi)
    as (s' & Hrun & HI' & Hmx' & Hml' & Hka & Hva & Hoth & Hh1 & Hh2).
  exists (length (heap s)), s', lo, hi.
  split; [exact HL|]. split; [exact Hrun|]. split; [reflexivity|].
  split. { intros Hin. pose proof (Inv_lt_heap s L _ HI Hin). lia. }
  split; [apply iterate_spec; exact HI'|].
  split; [exact Hlo|]. split; [exact Hhi|].
  split. { rewrite (Element_Key_akey s' _ 0) by lia. rewrite Hka. reflexivity. }
  split; [apply Element_Value_avalue; exact Hva|].
  split; [|exact Hoth].
  rewrite (inv_Length s' _ HI'), (inv_Length s L HI), wrap64_add. f_equal.
  rewrite HL, !length_app. simpl. lia.
Qed.

(** ** The element a removal returns *)

(** X14: [Remove] does not touch the element it unlinks. In a reachable
    state whose chain holds [a] with key [k], after [Remove(k)] the element
    [a] is no longer in the chain, but it is still allocated with its key,
    its value and every forward pointer it had: [a.Next()] returns what it
    returned before, an element of the new chain or nil, so an iteration
    standing on [a] goes on into the rest of the list. *)
Theorem Remove_leaves_element_intact (s : state) (k : bytes) (l : list addr) (a : addr) :
  reachable s ->
  iterate s = (Done l, s) -> a ∈ l -> akey (heap s) a = k ->
  exists s' l' c,
    Remove k s = (Done (Some a), s')
    /\ iterate s' = (Done l', s')
    /\ a ∉ l'
    /\ Element_Key a s' = (Done k, s')
    /\ avalue (heap s') a = avalue (heap s) a
    /\ (forall i, slot s' (ElemNode a) i = slot s (ElemNode a) i)
    /\ Element_Next a s = (Done c, s)
    /\ Element_Next a s' = (Done c, s')
    /\ (forall c', c = Some c' -> c' ∈ l').
Proof.
  intros Hr Hit Ha Hk. destruct (reachable_Inv s Hr) as (L & HI & Hmx).
  pose proof (iterate_inj s L l HI Hit) as ->.
  pose proof (Inv_fits_nonempty s L a HI Ha) as Hml.
  pose proof (lookup_key_found (heap s) k L a (inv_sorted s L HI) Ha Hk) as Hfind.
  destruct (lookup_key_split_at s L k a HI Hfind) as (lo & hi & HL & Hlo & Hka).
  destruct (Remove_hit s L lo hi k a HI Hmx Hml HL Hlo Hka)
    as (s' & Hrun & HI' & Hmx' & Hml' & Hobs & Hslots & HLen).
  pose proof (Inv_allocated s L a HI Ha) as Hha.
  assert (Hnext : slot s (ElemNode a) 0 = Some (head hi)).
  { rewrite (inv_link s L HI lo a hi 0 HL Hha).
    rewrite (first_tall_0 s L hi HI) by (rewrite HL; set_solver). reflexivity. }
  exists s', (lo ++ hi), (head hi).
  split; [exact Hrun|]. split; [apply iterate_spec; exact HI'|].
  split.
  { pose proof (Inv_NoDup s L HI) as Hnd. rewrite HL in Hnd.
    apply NoDup_app in Hnd as (_ & Hdisj & Hnd).
    apply NoDup_cons in Hnd as [Hnotin _].
    intros Hin. apply elem_of_app in Hin as [Hin|Hin]; [|contradiction].
    apply (Hdisj a Hin). set_solver. }
  split.
  { rewrite (Element_Key_akey s' a 0).
    - destruct (Hobs a) as [-> _]. rewrite Hka. reflexivity.
    - destruct (Hobs a) as (_ & _ & ->). exact Hha. }
  split; [apply Hobs|]. split; [exact Hslots|].
  split; [unfold Element_Next, Next; rewrite NextAt_slot, Hnext; reflexivity|].
  split; [unfold Element_Next, Next; rewrite NextAt_slot, Hslots, Hnext; reflexivity|].
  intros c' Hc. destruct hi as [|x hi']; [discriminate|].
  injection Hc as ->. set_solver.
Qed.

(** ** Iteration *)

(** X15: in every reachable state [Front] returns the first element of the
    iteration, nil when the list is empty; every other element of the list
    has a greater key. *)
Theorem Front_is_least (s : state) :
  reachable s ->
  exists l,
    iterate s = (Done l, s)
    /\ Front s = (Done (head l), s)
    /\ (forall a b, head l = Some a -> b ∈ l -> b <> a ->
                    Compare (akey (heap s) a) (akey (heap s) b) < 0).
Proof.
  intros Hr. destruct (reachable_Inv s Hr) as (L & HI & _).
  exists L. split; [apply iterate_spec; exact HI|]. split.
  - unfold Front, Next. rewrite NextAt_slot, (inv_head s L HI 0).
    + rewrite (first_tall_0 s L L HI) by set_solver. reflexivity.
    + rewrite (inv_sentinel s L HI). unfold DefaultMaxLevel. lia.
  - intros a b Hhead Hb Hne. pose proof (inv_sorted s L HI) as Hs.
    destruct L as [|x L']; [discriminate|]. injection Hhead as ->.
    apply StronglySorted_cons in Hs as [Hall _]. rewrite Forall_forall in Hall.
    apply elem_of_cons in Hb as [->|Hb]; [contradiction|]. apply Hall. exact Hb.
Qed.

(** X16: in every reachable state, for an element [a] of the list,
    [a.Next()] returns the element of the list with the least key greater
    than the key of [a], and nil when no element has a greater key. *)
Theorem Next_is_least_greater (s : state) (l : list addr) (a : addr) :
  reachable s -> iterate s = (Done l, s) -> a ∈ l ->
  exists r,
    Element_Next a s = (Done r, s)
    /\ match r with
       | Some c =>
           c ∈ l
           /\ Compare (akey (heap s) a) (akey (heap s) c) < 0
           /\ (forall b, b ∈ l ->
                 Compare (akey (heap s) a) (akey (heap s) b) < 0 ->
                 Compare (akey (heap s) c) (akey (heap s) b) <= 0)
       | None =>
           forall b, b ∈ l -> Compare (akey (heap s) b) (akey (heap s) a) <= 0
       end.
Proof.
  intros Hr Hit Ha. destruct (reachable_Inv s Hr) as (L & HI & _).
  pose proof (iterate_inj s L l HI Hit) as ->.
  pose proof (inv_sorted s L HI) as Hs.
  pose proof (Inv_allocated s L a HI Ha) as Hha.
  apply list_elem_of_split in Ha as (l1 & l2 & HL).
  exists (head l2). split.
  - unfold Element_Next, Next.
    rewrite NextAt_slot, (inv_link s L HI l1 a l2 0 HL Hha).
    rewrite (first_tall_0 s L l2 HI) by (rewrite HL; set_solver). reflexivity.
  - rewrite HL in Hs. apply StronglySorted_app in Hs as (Hcross & _ & Hs2).
    apply StronglySorted_cons in Hs2 as [Hall Hs2]. rewrite Forall_forall in Hall.
    assert (Hbefore : forall b, b ∈ l1 ->
              Compare (akey (heap s) b) (akey (heap s) a) < 0).
    { intros b Hb. apply (Hcross b a Hb). set_solver. }
    destruct l2 as [|c l2']; simpl.
    + intros b Hb. rewrite HL in Hb. apply elem_of_app in Hb as [Hb|Hb].
      * specialize (Hbefore b Hb). lia.
      * apply elem_of_cons in Hb as [->|Hb]; [rewrite Compare_refl; lia|set_solver].
    + split; [rewrite HL; set_solver|]. split; [apply Hall; set_solver|].
      intros b Hb Hab. rewrite HL in Hb. apply elem_of_app in Hb as [Hb|Hb].
      * specialize (Hbefore b Hb).
        rewrite (Compare_antisym (akey (heap s) b) (akey (heap s) a)) in Hab. lia.
      * apply elem_of_cons in Hb as [->|Hb]; [rewrite Compare_refl in Hab; lia|].
        apply elem_of_cons in Hb as [->|Hb]; [rewrite Compare_refl; lia|].
        apply StronglySorted_cons in Hs2 as [Hall2 _]. rewrite Forall_forall in Hall2.
        specialize (Hall2 b Hb). unfold key_lt in Hall2. lia.
Qed.

(** ** [SetProbability] *)

(** X17: in every reachable state [SetProbability(p)] returns; it sets the
    probability to [p] and replaces the table by one with exactly [maxLevel]
    entries, entry i being Pow(p, i); the heap, the sentinel, the count, the
    random source, the lock and the scratch buffer are as before, so the
    iteration and every [Get] give what they gave. *)
Theorem SetProbability_changes_only_the_table (s : state) (p : float64) :
  reachable s ->
  exists s',
    SetProbability p s = (Done tt, s')
    /\ probability (sl s') = p
    /\ length (probTable (sl s')) = Z.to_nat (maxLevel (sl s))
    /\ (forall i, (i < Z.to_nat (maxLevel (sl s)))%nat ->
          probTable (sl s') !! i = Some (Pow p (float64_of_int (Z.of_nat i))))
    /\ heap s' = heap s
    /\ sentinel (sl s') = sentinel (sl s)
    /\ maxLevel (sl s') = maxLevel (sl s)
    /\ Length (sl s') = Length (sl s)
    /\ randSource (sl s') = randSource (sl s)
    /\ mutex (sl s') = mutex (sl s)
    /\ prevNodesCache (sl s') = prevNodesCache (sl s)
    /\ fst (iterate s') = fst (iterate s)
    /\ (forall k, fst (Get k s') = fst (Get k s)).
Proof.
  intros Hr. destruct (reachable_Inv s Hr) as (L & HI & Hmx).
  set (s' := with_sl s (sl_with_prob (sl s) p (probabilityTable p (maxLevel (sl s))))).
  assert (HI' : Inv s' L) by exact (Inv_SetProbability s L p HI).
  exists s'. split; [reflexivity|].
  split; [reflexivity|]. split; [apply probabilityTable_length|].
  split; [intros i Hi; apply probabilityTable_lookup; exact Hi|].
  do 7 (split; [reflexivity|]). split.
  - rewrite (iterate_spec s' L HI'), (iterate_spec s L HI). reflexivity.
  - intros k. destruct (Z_le_dec (maxLevel (sl s)) DefaultMaxLevel) as [Hml|Hbig].
    + rewrite (Get_spec s' L k HI' Hmx Hml), (Get_spec s L k HI Hmx Hml). reflexivity.
    + rewrite (Get_Panic s' k Hmx (Inv_overflow_Panic s' L HI' Hbig)).
      rewrite (Get_Panic s k Hmx (Inv_overflow_Panic s L HI Hbig)). reflexivity.
Qed.

(** ** A new list *)

(** X18: [NewWithMaxLevel(n)] with 1 <= n <= 18, and so [New()], returns an
    empty list: the count is 0, [Front] returns nil, the iteration yields
    nothing, and for every key [Get] returns absent and [Remove] returns
    absent, changing nothing but the scratch buffer. *)
Theorem NewWithMaxLevel_is_empty (src : Source) (n : Z) :
  1 <= n <= DefaultMaxLevel ->
  exists s,
    NewWithMaxLevel src n = Done s
    /\ (n = DefaultMaxLevel -> New src = Done s)
    /\ Length (sl s) = 0
    /\ Front s = (Done None, s)
    /\ iterate s = (Done [], s)
    /\ (forall k, Get k s = (Done None, s))
    /\ (forall k, exists c,
          Remove k s = (Done None, with_sl s (sl_with_prevs (sl s) c))).
Proof.
  intros Hn. unfold DefaultMaxLevel in Hn.
  pose proof (NewWithMaxLevel_Done src n ltac:(lia)) as Hnew.
  destruct (Inv_New src n _ Hnew) as [HI Hmx].
  eexists. split; [exact Hnew|].
  split; [intros ->; exact Hnew|]. split; [reflexivity|].
  split; [reflexivity|]. split; [apply iterate_spec; exact HI|].
  assert (Hml : maxLevel (sl (mkState []
     (mkSkipList (mkNode None (replicate (Z.to_nat DefaultMaxLevel) None))
        n 0 src DefaultProbability
        (probabilityTable DefaultProbability DefaultMaxLevel)
        false (replicate (Z.to_nat DefaultMaxLevel) None)))) <= DefaultMaxLevel)
    by (simpl; unfold DefaultMaxLevel; lia).
  split.
  - intros k. rewrite (Get_spec _ [] k HI Hmx Hml). reflexivity.
  - intros k. destruct (Remove_miss _ [] k HI Hmx Hml eq_refl) as (c & Hrun & _).
    exists c. exact Hrun.
Qed.

(** ** The search fingers *)

(** X19: on a reachable state of a list with maxLevel <= 18,
    [getPrevElementNodes(key)] returns the scratch buffer, having stored in
    it, for every level i below maxLevel, the node before the key on that
    level: the sentinel, or an element that takes part in level i and whose
    key is smaller than the key; and what follows that node on level i is
    nil or an element whose key is not smaller. Nothing but the scratch
    buffer is written. *)
Theorem getPrevElementNodes_finds_predecessors (s : state) (k : bytes) :
  reachable s -> maxLevel (sl s) <= DefaultMaxLevel ->
  exists prevs,
    getPrevElementNodes k s = (Done prevs, with_sl s (sl_with_prevs (sl s) prevs))
    /\ length prevs = length (prevNodesCache (sl s))
    /\ forall i, (i < Z.to_nat (maxLevel (sl s)))%nat ->
         exists n nx,
           prevs !! i = Some (Some n)
           /\ match n with
              | Sentinel => True
              | ElemNode b =>
                  (i < height (heap s) b)%nat
                  /\ Compare (akey (heap s) b) k < 0
              end
           /\ NextAt n i s = (Done nx, s)
           /\ match nx with
              | None => True
              | Some c => Compare k (akey (heap s) c) <= 0
              end.
Proof.
  intros Hr Hml. destruct (reachable_Inv s Hr) as (L & HI & _).
  destruct (sorted_split (heap s) L k (inv_sorted s L HI)) as (lo & hi & HL & Hlo & Hhi).
  destruct (getPrevElementNodes_spec s L lo hi k HI HL Hlo Hhi Hml)
    as (c & Hrun & Hlen & Hc).
  pose proof (inv_maxLevel s L HI) as Hrange.
  exists c. split; [exact Hrun|]. split; [exact Hlen|].
  intros i Hi. exists (pred_at s lo i), (first_tall (heap s) i hi).
  split; [apply Hc; exact Hi|]. split; [|split].
  - destruct (pred_at s lo i) as [|b] eqn:Hp; [exact I|].
    apply last_tall_in in Hp as [Hb Hh]. auto.
  - rewrite NextAt_slot, (pred_at_slot s L lo hi i HI HL); [reflexivity|].
    rewrite (inv_sentinel s L HI). unfold DefaultMaxLevel in *. lia.
  - destruct (first_tall (heap s) i hi) as [x|] eqn:Hx; [|exact I].
    apply first_tall_Some in Hx as [Hx _]. apply Hhi. exact Hx.
Qed.

(** ** The sanity check of the tests (skiplist_test.go) *)

Lemma count_from_wrap (n : nat) (cnt : Z) :
  wrap64 (count_from cnt n) = wrap64 (cnt + Z.of_nat n).
Proof.
  revert cnt. induction n as [|n IH]; intros cnt; simpl count_from.
  - f_equal. lia.
  - rewrite IH, wrap64_add. f_equal. lia.
Qed.

Lemma count_from_S (n : nat) (cnt : Z) :
  count_from cnt (S n) = wrap64 (cnt + Z.of_nat (S n)).
Proof.
  revert cnt. induction n as [|n IH]; intros cnt.
  - reflexivity.
  - change (count_from cnt (S (S n))) with (count_from (wrap64 (cnt + 1)) (S n)).
    rewrite IH, wrap64_add. f_equal. lia.
Qed.

Lemma first_tall_split (h : list Element) (k : nat) (l : list addr) (c : addr) :
  first_tall h k l = Some c ->
  exists u w, l = u ++ c :: w /\ first_tall h k u = None /\ (k < height h c)%nat.
Proof.
  induction l as [|x l IH]; simpl; [discriminate|].
  destruct (decide (k < height h x)%nat) as [Hx|Hx].
  - intros [= ->]. exists [], l. auto.
  - intros H. destruct (IH H) as (u & w & -> & Hu & Hc).
    exists (x :: u), w. split; [reflexivity|]. split; [|exact Hc].
    simpl. destruct (decide (k < height h x)%nat); [contradiction|exact Hu].
Qed.

Lemma level_of_None (h : list Element) (k : nat) (l : list addr) :
  first_tall h k l = None -> level_of h k l = [].
Proof.
  induction l as [|x l IH]; simpl; [reflexivity|].
  rewrite level_of_cons. destruct (decide (k < height h x)%nat); [discriminate|exact IH].
Qed.

Lemma level_of_app (h : list Element) (k : nat) (l1 l2 : list addr) :
  level_of h k (l1 ++ l2) = level_of h k l1 ++ level_of h k l2.
Proof. unfold level_of. apply filter_app. Qed.

Lemma sanity_chain_spec (s : state) (L : list addr) (k : nat) :
  Inv s L ->
  forall (m : nat) (l0 : list addr) (a : addr) (l2 : list addr) (cnt : Z) (fuel : nat),
    (length l2 <= m)%nat -> (m <= fuel)%nat ->
    L = l0 ++ a :: l2 -> (k < height (heap s) a)%nat ->
    sanity_chain fuel k (Some a) cnt s
    = (Done (Some (count_from cnt (length (level_of (heap s) k l2)))), s).
Proof.
  intros HI. pose proof (inv_sorted s L HI) as Hsorted.
  induction m as [|m IH]; intros l0 a l2 cnt fuel Hlen Hfuel HL Ha.
  - destruct l2; [|simpl in Hlen; lia].
    destruct (height_pos_lookup (heap s) a k Ha) as (e & He & _ & Hh).
    pose proof (inv_link s L HI l0 a [] k HL Ha) as Hslot.
    unfold slot, node_at in Hslot. rewrite He in Hslot. simpl in Hslot.
    destruct fuel; simpl; unfold bind at 1; unfold deref, ret at 1;
      rewrite (bind_Done _ _ s s e (load_Done s a e He));
      unfold bind at 1; unfold index; rewrite Hslot; reflexivity.
  - destruct (height_pos_lookup (heap s) a k Ha) as (e & He & Hka & Hh).
    pose proof (inv_link s L HI l0 a l2 k HL Ha) as Hslot.
    assert (Hidx : next (node e) !! k = Some (first_tall (heap s) k l2)).
    { unfold slot, node_at in Hslot. rewrite He in Hslot. simpl in Hslot.
      exact Hslot. }
    destruct (first_tall (heap s) k l2) as [c|] eqn:Hc.
    + destruct (first_tall_split (heap s) k l2 c Hc) as (u & w & Hl2 & Hu & Hhc).
      destruct (height_pos_lookup (heap s) c k Hhc) as (ec & Hec & Hkc & _).
      assert (Hlt : Compare (key e) (key ec) < 0).
      { rewrite <- Hka, <- Hkc. rewrite HL, Hl2 in Hsorted.
        apply StronglySorted_app_1_r in Hsorted.
        apply StronglySorted_cons in Hsorted as [Hall _].
        rewrite Forall_forall in Hall. apply Hall. set_solver. }
      destruct fuel as [|fuel]; [lia|].
      simpl. unfold bind at 1. unfold deref, ret at 1.
      rewrite (bind_Done _ _ s s e (load_Done s a e He)).
      unfold bind at 1. unfold index. rewrite Hidx. unfold ret at 1. cbv iota beta.
      rewrite (bind_Done _ _ s s (Some c)) by (rewrite NextAt_slot, Hslot; reflexivity).
      unfold bind at 1. unfold deref, ret at 1.
      rewrite (bind_Done _ _ s s ec (load_Done s c ec Hec)).
      rewrite (Compare_antisym (key e) (key ec)).
      destruct (Z.geb_spec (- Compare (key e) (key ec)) 0); [|lia].
      destruct (Nat.ltb_spec (length (next (node e))) k); [lia|].
      cbv beta iota delta [negb].
      rewrite (bind_Done _ _ s s (Some c)) by (rewrite NextAt_slot, Hslot; reflexivity).
      rewrite (IH (l0 ++ a :: u) c w (wrap64 (cnt + 1)) fuel).
      * rewrite Hl2, level_of_app, (level_of_None _ _ _ Hu), level_of_cons.
        destruct (decide (k < height (heap s) c)%nat); [|contradiction].
        reflexivity.
      * rewrite Hl2, length_app in Hlen. simpl in Hlen. lia.
      * lia.
      * rewrite HL, Hl2, <- app_assoc. reflexivity.
      * exact Hhc.
    + rewrite (level_of_None _ _ _ Hc).
      destruct fuel; simpl; unfold bind at 1; unfold deref, ret at 1;
        rewrite (bind_Done _ _ s s e (load_Done s a e He));
        unfold bind at 1; unfold index; rewrite Hidx; reflexivity.
Qed.

Lemma sanity_level_spec (s : state) (L : list addr) (k : nat) :
  Inv s L -> (k < length (next (sentinel (sl s))))%nat ->
  sanity_level (length (heap s)) k s = (Done Pass, s).
Proof.
  intros HI Hk. unfold sanity_level.
  rewrite (bind_Done _ _ s s (first_tall (heap s) k L))
    by (rewrite NextAt_slot, (inv_head s L HI k Hk); reflexivity).
  destruct (first_tall (heap s) k L) as [a|] eqn:Ha; [|reflexivity].
  destruct (first_tall_split (heap s) k L a Ha) as (u & w & HL & Hu & Hha).
  destruct (height_pos_lookup (heap s) a k Hha) as (e & He & _ & Hh).
  rewrite (bind_Done _ _ s s e (load_Done s a e He)).
  destruct (Nat.ltb_spec (length (next (node e))) k); [lia|].
  pose proof (Inv_length s L HI) as Hfuel.
  rewrite (bind_Done _ _ s s _
             (sanity_chain_spec s L k HI (length w) u a w 1 (length (heap s))
                ltac:(lia) ltac:(rewrite HL, length_app in Hfuel; simpl in Hfuel; lia)
                HL Hha)).
  destruct (Nat.eqb_spec k 0) as [->|]; [|reflexivity].
  unfold bind, gets.
  assert (Hu0 : u = []).
  { destruct u as [|x u']; [reflexivity|]. exfalso.
    rewrite first_tall_None in Hu. apply (Hu x); [set_solver|].
    apply (Inv_allocated s L x HI). rewrite HL. set_solver. }
  subst u. simpl in HL.
  assert (Hw : level_of (heap s) 0 w = w).
  { unfold level_of. clear Hfuel. assert (Hsub : w ⊆ L) by (rewrite HL; set_solver).
    clear HL. induction w as [|x w IHw]; [reflexivity|].
    rewrite filter_cons_True by (apply (Inv_allocated s L x HI); set_solver).
    f_equal. apply IHw. set_solver. }
  rewrite Hw, (inv_Length s L HI), HL.
  assert (Hcnt : count_from 1 (length w) = wrap64 (Z.of_nat (length (a :: w)))).
  { simpl length. destruct (length w) as [|n].
    - simpl. symmetry. apply (wrap64_small 1). lia.
    - rewrite count_from_S. f_equal. lia. }
  rewrite Hcnt, Z.eqb_refl. reflexivity.
Qed.

Lemma sanity_levels_spec (s : state) (L : list addr) (ks : list nat) :
  Inv s L -> (forall k, k ∈ ks -> (k < length (next (sentinel (sl s))))%nat) ->
  sanity_levels (length (heap s)) ks s = (Done Pass, s).
Proof.
  intros HI. induction ks as [|k ks IH]; intros Hks; [reflexivity|]. simpl.
  rewrite (bind_Done _ _ s s Pass (sanity_level_spec s L k HI (Hks k ltac:(set_solver)))).
  apply IH. intros j Hj. apply Hks. set_solver.
Qed.

Lemma checkSanity_Inv (s : state) (L : list addr) :
  Inv s L -> checkSanity s = (Done Pass, s).
Proof.
  intros HI. unfold checkSanity, walk_bound.
  unfold bind at 1. unfold gets at 1. unfold bind at 1. unfold gets at 1.
  apply (sanity_levels_spec s L). exact HI.
  intros k Hk. apply elem_of_seq in Hk. lia.
Qed.

(** X20: the sanity check of the repository's tests passes in every
    reachable state: on every level of the sentinel the walk ends without a
    panic, no key is smaller than the key before it, and the count of level
    0 is [Length]; [t.Fatal] is never called and the list is left as it
    was. *)
Theorem checkSanity_passes (s : state) :
  reachable s -> checkSanity s = (Done Pass, s).
Proof.
  intros Hr. destruct (reachable_Inv s Hr) as (L & HI & _).
  exact (checkSanity_Inv s L HI).
Qed.

(** ** The list as a map *)

Lemma read_spec (s : state) (L : list addr) (k : bytes) :
  Inv s L -> mutex (sl s) = false -> maxLevel (sl s) <= DefaultMaxLevel ->
  read k s = (Done (content s L k), s).
Proof.
  intros HI Hmx Hml. unfold read, content.
  rewrite (bind_Done _ _ s s _ (Get_spec s L k HI Hmx Hml)).
  destruct (lookup_key (heap s) k L) as [a|] eqn:Hfind; [|reflexivity].
  apply lookup_key_Some in Hfind as [Ha _].
  destruct (Inv_lookup s L a HI Ha) as (e & He & _).
  assert (Hv : avalue (heap s) a = Some (value e)) by (unfold avalue; rewrite He; reflexivity).
  rewrite (bind_Done _ _ s s _ (Element_Value_avalue s a (value e) Hv)), Hv.
  reflexivity.
Qed.

Lemma content_keys (s : state) (L : list addr) (k : bytes) :
  Inv s L -> k ∈ (akey (heap s) <$> L) <-> is_Some (content s L k).
Proof.
  intros HI. unfold content. split.
  - intros Hk. apply list_elem_of_fmap in Hk as (a & -> & Ha).
    rewrite (lookup_key_found (heap s) _ L a (inv_sorted s L HI) Ha eq_refl).
    destruct (Inv_lookup s L a HI Ha) as (e & He & _).
    unfold avalue. rewrite He. eauto.
  - destruct (lookup_key (heap s) k L) as [a|] eqn:Hfind.
    + intros _. apply lookup_key_Some in Hfind as [Ha Hk].
      apply list_elem_of_fmap. exists a. auto.
    + intros [? [=]].
Qed.

Lemma Set_content (s : state) (L : list addr) (k : bytes) (v : V) :
  Inv s L -> mutex (sl s) = false -> maxLevel (sl s) <= DefaultMaxLevel ->
  exists a s' L',
    Set_ k v s = (Done a, s')
    /\ Inv s' L' /\ mutex (sl s') = false /\ maxLevel (sl s') = maxLevel (sl s)
    /\ (forall k', content s' L' k'
                   = if decide (k' = k) then Some v else content s L k').
Proof.
  intros HI Hmx Hml.
  destruct (lookup_key (heap s) k L) as [a|] eqn:Hfind.
  - destruct (Set_hit s L k v a HI Hmx Hml Hfind) as (c & Hrun & Hlen).
    set (s' := with_heap (with_sl s (sl_with_prevs (sl s) c))
                         (alter (fun e => with_value e v) a (heap s))) in *.
    assert (HI' : Inv s' L).
    { apply (Inv_store_value (with_sl s (sl_with_prevs (sl s) c))).
      apply Inv_with_prevs; assumption. }
    exists a, s', L. split; [exact Hrun|]. split; [exact HI'|].
    split; [exact Hmx|]. split; [reflexivity|].
    assert (Hlk : forall k', lookup_key (heap s') k' L = lookup_key (heap s) k' L).
    { intros k'. apply lookup_key_ext. intros b _. apply akey_store_value. }
    pose proof Hfind as Hfind0.
    apply lookup_key_Some in Hfind as [Ha Hka].
    destruct (Inv_lookup s L a HI Ha) as (e & He & _).
    intros k'. unfold content. rewrite Hlk.
    destruct (decide (k' = k)) as [->|Hne].
    + rewrite Hfind0. unfold s'. cbn [heap with_heap with_sl].
      rewrite avalue_store_value.
      destruct (decide (a = a)) as [_|]; [|congruence].
      unfold avalue. rewrite He. reflexivity.
    + destruct (lookup_key (heap s) k' L) as [b|] eqn:Hb; [|reflexivity].
      apply lookup_key_Some in Hb as [_ Hkb].
      unfold s'. cbn [heap with_heap with_sl]. rewrite avalue_store_value.
      destruct (decide (b = a)) as [->|]; [congruence|reflexivity].
  - destruct (lookup_key_split_miss s L k HI Hfind) as (lo & hi & HL & Hlo & Hhi).
    destruct (Set_miss s L lo hi k v HI Hmx Hml HL Hlo Hhi)
      as (s' & Hrun & HI' & Hmx' & Hml' & Hka & Hva & Hoth & _).
    exists (length (heap s)), s', (lo ++ length (heap s) :: hi).
    split; [exact Hrun|]. split; [exact HI'|]. split; [exact Hmx'|].
    split; [exact Hml'|].
    intros k'. unfold content. destruct (decide (k' = k)) as [->|Hne].
    + rewrite (lookup_key_found (heap s') k _ (length (heap s)) (inv_sorted _ _ HI')
                 ltac:(set_solver) Hka).
      exact Hva.
    + rewrite (lookup_key_skip (heap s) (heap s') k' lo hi (length (heap s))).
      * rewrite <- HL. destruct (lookup_key (heap s) k' L) as [b|] eqn:Hb; [|reflexivity].
        apply lookup_key_Some in Hb as [Hb _]. apply Hoth. intros ->.
        pose proof (Inv_lt_heap s L _ HI Hb). lia.
      * intros b Hb. apply Hoth. intros ->.
        pose proof (Inv_lt_heap s L _ HI ltac:(rewrite HL; exact Hb)). lia.
      * congruence.
Qed.

Lemma Remove_content (s : state) (L : list addr) (k : bytes) :
  Inv s L -> mutex (sl s) = false -> maxLevel (sl s) <= DefaultMaxLevel ->
  exists o s' L',
    Remove k s = (Done o, s')
    /\ Inv s' L' /\ mutex (sl s') = false /\ maxLevel (sl s') = maxLevel (sl s)
    /\ (forall k', content s' L' k'
                   = if decide (k' = k) then None else content s L k').
Proof.
  intros HI Hmx Hml.
  destruct (lookup_key (heap s) k L) as [a|] eqn:Hfind.
  - destruct (lookup_key_split_at s L k a HI Hfind) as (lo & hi & HL & Hlo & Hka).
    destruct (Remove_hit s L lo hi k a HI Hmx Hml HL Hlo Hka)
      as (s' & Hrun & HI' & Hmx' & Hml' & Hobs & _).
    exists (Some a), s', (lo ++ hi).
    split; [exact Hrun|]. split; [exact HI'|]. split; [exact Hmx'|].
    split; [exact Hml'|].
    intros k'. unfold content. destruct (decide (k' = k)) as [->|Hne].
    + rewrite lookup_key_absent; [reflexivity|]. intros b Hb Hkb.
      destruct (Hobs b) as [Hkey _]. rewrite Hkey in Hkb.
      pose proof (inv_sorted s L HI) as Hs.
      assert (HbL : b ∈ L) by (rewrite HL; set_solver).
      assert (HaL : a ∈ L) by (rewrite HL; set_solver).
      assert (b = a) by (apply (sorted_key_inj (heap s) L b a Hs HbL HaL); congruence).
      subst b. pose proof (Inv_NoDup s L HI) as Hnd. rewrite HL in Hnd.
      apply NoDup_app in Hnd as (_ & Hdisj & Hnd).
      apply NoDup_cons in Hnd as [Hnotin _].
      apply elem_of_app in Hb as [Hb|Hb]; [|contradiction].
      apply (Hdisj a Hb). set_solver.
    + rewrite HL.
      rewrite <- (lookup_key_skip (heap s') (heap s) k' lo hi a).
      * destruct (lookup_key (heap s) k' (lo ++ a :: hi)); [apply Hobs|reflexivity].
      * intros b _. symmetry. apply Hobs.
      * congruence.
  - destruct (Remove_miss s L k HI Hmx Hml Hfind) as (c & Hrun & Hlen).
    eexists None, _, L. split; [exact Hrun|].
    split; [exact (Inv_with_prevs s L c Hlen HI)|].
    split; [exact Hmx|]. split; [reflexivity|].
    intros k'. unfold content. cbn [heap with_sl].
    destruct (decide (k' = k)) as [->|]; [rewrite Hfind|]; reflexivity.
Qed.

Lemma do_calls_spec (cs : list call) :
  forall (s : state) (L : list addr) (m : bytes -> option V),
    Inv s L -> mutex (sl s) = false -> maxLevel (sl s) <= DefaultMaxLevel ->
    (forall k, content s L k = m k) ->
    exists s' L',
      do_calls cs s = (Done tt, s')
      /\ Inv s' L' /\ mutex (sl s') = false /\ maxLevel (sl s') <= DefaultMaxLevel
      /\ (forall k, content s' L' k = map_calls cs m k).
Proof.
  induction cs as [|c cs IH]; intros s L m HI Hmx Hml Hm.
  - exists s, L. simpl. auto.
  - assert (Hstep : exists s1 L1,
               do_call c s = (Done tt, s1)
               /\ Inv s1 L1 /\ mutex (sl s1) = false
               /\ maxLevel (sl s1) <= DefaultMaxLevel
               /\ (forall k, content s1 L1 k = map_call c m k)).
    { destruct c as [k v|k|k|p]; simpl.
      - destruct (Set_content s L k v HI Hmx Hml)
          as (a & s1 & L1 & Hrun & HI1 & Hmx1 & Hml1 & Hc).
        exists s1, L1. rewrite (bind_Done _ _ s s1 a Hrun).
        split; [reflexivity|]. split; [exact HI1|]. split; [exact Hmx1|].
        split; [rewrite Hml1; exact Hml|].
        intros k'. rewrite Hc. destruct (decide (k' = k)); [reflexivity|apply Hm].
      - exists s, L. rewrite (bind_Done _ _ s s _ (Get_spec s L k HI Hmx Hml)). auto.
      - destruct (Remove_content s L k HI Hmx Hml)
          as (o & s1 & L1 & Hrun & HI1 & Hmx1 & Hml1 & Hc).
        exists s1, L1. rewrite (bind_Done _ _ s s1 o Hrun).
        split; [reflexivity|]. split; [exact HI1|]. split; [exact Hmx1|].
        split; [rewrite Hml1; exact Hml|].
        intros k'. rewrite Hc. destruct (decide (k' = k)); [reflexivity|apply Hm].
      - exists (snd (SetProbability p s)), L. split; [reflexivity|].
        split; [exact (Inv_SetProbability s L p HI)|].
        split; [exact Hmx|]. split; [exact Hml|]. exact Hm. }
    destruct Hstep as (s1 & L1 & Hrun & HI1 & Hmx1 & Hml1 & Hc1).
    destruct (IH s1 L1 (map_call c m) HI1 Hmx1 Hml1 Hc1)
      as (s' & L' & Hrun' & HI' & Hmx' & Hml' & Hc').
    exists s', L'. split; [|auto].
    change (do_calls (c :: cs)) with (do_call c ;; do_calls cs).
    rewrite (bind_Done _ _ s s1 tt Hrun). exact Hrun'.
Qed.

(** X21: the list is a map. Start from [NewWithMaxLevel(n)] with
    1 <= n <= 18 and make any sequence of calls of [Set], [Get], [Remove]
    and [SetProbability]: no call panics or fails to return, and afterwards,
    for every key, [Get] followed by [Value()] gives the value of the last
    [Set] of that key that no later [Remove] of that key followed, and
    absent when there is none. The keys of the iteration are exactly the keys
    so bound. *)
Theorem calls_act_as_a_map (src : Source) (n : Z) (cs : list call) :
  1 <= n <= DefaultMaxLevel ->
  exists s0 s l,
    NewWithMaxLevel src n = Done s0
    /\ do_calls cs s0 = (Done tt, s)
    /\ (forall k, read k s = (Done (map_calls cs (fun _ => None) k), s))
    /\ iterate s = (Done l, s)
    /\ (forall k, k ∈ (akey (heap s) <$> l)
                  <-> is_Some (map_calls cs (fun _ => None) k)).
Proof.
  intros Hn.
  pose proof (NewWithMaxLevel_Done src n ltac:(unfold DefaultMaxLevel in Hn; lia)) as Hnew.
  destruct (Inv_New src n _ Hnew) as [HI0 Hmx0].
  match type of Hnew with _ = Done ?x => set (s0 := x) in * end.
  destruct (do_calls_spec cs s0 [] (fun _ => None) HI0 Hmx0 ltac:(apply Hn)
              ltac:(reflexivity))
    as (s & L & Hrun & HI & Hmx & Hml & Hc).
  exists s0, s, L. split; [exact Hnew|]. split; [exact Hrun|].
  split; [|split; [apply iterate_spec; exact HI|]].
  - intros k. rewrite <- Hc. apply read_spec; assumption.
  - intros k. rewrite <- Hc. apply content_keys. exact HI.
Qed.

(** ** The keys of the tests *)

Lemma Z_of_byte_of_Z (z : Z) : Z_of_byte (byte_of_Z z) = z mod 256.
Proof.
  unfold Z_of_byte, byte_of_Z.
  pose proof (Z.mod_pos_bound z 256 ltac:(lia)) as Hr.
  destruct (Byte.of_N (Z.to_N (z mod 256))) as [b|] eqn:Hb.
  - apply Byte.to_of_N in Hb. rewrite Hb. lia.
  - apply Byte.of_N_None_iff in Hb. lia.
Qed.

Lemma byte_bit (i s n : Z) :
  0 <= s -> 0 <= n ->
  Z.testbit (Z.shiftl (Z_of_byte (byte_of_Z (Z.shiftr i s))) s) n
  = (s <=? n) && (n <? s + 8) && Z.testbit i n.
Proof.
  intros Hs Hn. rewrite Z.shiftl_spec, Z_of_byte_of_Z by lia.
  change 256 with (2 ^ 8).
  destruct (Z.leb_spec s n); simpl.
  - destruct (Z.ltb_spec n (s + 8)); simpl.
    + rewrite Z.mod_pow2_bits_low, Z.shiftr_spec by lia. f_equal. lia.
    + apply Z.mod_pow2_bits_high. lia.
  - apply Z.testbit_neg_r. lia.
Qed.

Lemma orderedKey_round_trip (i : Z) :
  0 <= i < 2 ^ 64 -> orderedKeyValue (orderedKey i) = Some i.
Proof.
  intros Hi. unfold orderedKeyValue, orderedKey, PutUint64, Uint64. f_equal.
  change (Z_of_byte (byte_of_Z i))
    with (Z.shiftl (Z_of_byte (byte_of_Z (Z.shiftr i 0))) 0).
  apply Z.bits_inj'. intros n Hn.
  rewrite !Z.lor_spec, !byte_bit by lia.
  transitivity (Z.testbit (i mod 2 ^ 64) n); [|rewrite Z.mod_small by lia; reflexivity].
  destruct (Z.ltb_spec n 64).
  - rewrite Z.mod_pow2_bits_low by lia.
    destruct (Z.testbit i n); [|rewrite !andb_false_r; reflexivity].
    rewrite !andb_true_r.
    repeat match goal with
           | |- context [?a <=? ?b] => destruct (Z.leb_spec a b)
           | |- context [?a <? ?b] => destruct (Z.ltb_spec a b)
           end; simpl; try reflexivity; lia.
  - rewrite Z.mod_pow2_bits_high by lia.
    repeat match goal with
           | |- context [?a <? ?b] => destruct (Z.ltb_spec a b); [lia|]
           end.
    rewrite !andb_false_r. reflexivity.
Qed.

Lemma Compare_digits (n : nat) (i j : Z) :
  Compare (digits n i) (digits n j)
  = sign_of ((i mod 256 ^ Z.of_nat n) ?= (j mod 256 ^ Z.of_nat n)).
Proof.
  induction n as [|n IH].
  - simpl. rewrite !Z.mod_1_r. reflexivity.
  - cbn [digits Compare].
    replace (256 ^ Z.of_nat (S n)) with (256 ^ Z.of_nat n * 256)
      by (rewrite Nat2Z.inj_succ, Z.pow_succ_r by lia; lia).
    set (P := 256 ^ Z.of_nat n) in *.
    assert (HP : 0 < P) by (apply Z.pow_pos_nonneg; lia).
    rewrite !(Z.rem_mul_r _ P 256) by lia.
    pose proof (Z.mod_pos_bound i P HP). pose proof (Z.mod_pos_bound j P HP).
    pose proof (Z.mod_pos_bound (i / P) 256 ltac:(lia)).
    pose proof (Z.mod_pos_bound (j / P) 256 ltac:(lia)).
    assert (Hb : forall z, Byte.to_N (byte_of_Z z) = Z.to_N (z mod 256)).
    { intros z. pose proof (Z_of_byte_of_Z z) as Hz. unfold Z_of_byte in Hz.
      pose proof (Z.mod_pos_bound z 256 ltac:(lia)). lia. }
    rewrite !Hb, IH.
    set (qi := (i / P) mod 256) in *. set (qj := (j / P) mod 256) in *.
    set (ri := i mod P) in *. set (rj := j mod P) in *.
    clearbody qi qj ri rj.
    destruct (N.compare_spec (Z.to_N qi) (Z.to_N qj)) as [E|E|E].
    + assert (qj = qi) by lia. subst qj.
      destruct (Z.compare_spec ri rj); destruct (Z.compare_spec (ri + P * qi) (rj + P * qi));
        try reflexivity; lia.
    + assert (qi + 1 <= qj) by lia.
      destruct (Z.compare_spec (ri + P * qi) (rj + P * qj)); try reflexivity; nia.
    + assert (qj + 1 <= qi) by lia.
      destruct (Z.compare_spec (ri + P * qi) (rj + P * qj)); try reflexivity; nia.
Qed.

Lemma orderedKey_digits (i : Z) : orderedKey i = digits 8 i.
Proof.
  unfold orderedKey, PutUint64. cbn [digits].
  rewrite !Z.shiftr_div_pow2 by lia.
  repeat f_equal; rewrite ?Z.div_1_r; reflexivity.
Qed.

Lemma Compare_orderedKey (i j : Z) :
  0 <= i < 2 ^ 64 -> 0 <= j < 2 ^ 64 ->
  Compare (orderedKey i) (orderedKey j) = sign_of (i ?= j).
Proof.
  intros Hi Hj. rewrite !orderedKey_digits, Compare_digits.
  change (256 ^ Z.of_nat 8) with (2 ^ 64). rewrite !Z.mod_small by lia. reflexivity.
Qed.

(** X22: the keys of the tests. For 64-bit unsigned [i] and [j],
    [orderedKey(i)] is 8 bytes long, [orderedKeyValue] reads [i] back from
    it, and [bytes.Compare] orders the keys as the numbers are ordered: the
    key of [i] is before the key of [j] exactly when [i < j], and the keys
    are equal only when the numbers are. [orderedKeyValue] panics exactly on
    keys shorter than 8 bytes. *)
Theorem orderedKey_keeps_order (i j : Z) :
  0 <= i < 2 ^ 64 -> 0 <= j < 2 ^ 64 ->
  length (orderedKey i) = 8%nat
  /\ orderedKeyValue (orderedKey i) = Some i
  /\ (Compare (orderedKey i) (orderedKey j) < 0 <-> i < j)
  /\ (Compare (orderedKey i) (orderedKey j) = 0 <-> i = j)
  /\ (forall key, orderedKeyValue key = None <-> (length key < 8)%nat).
Proof.
  intros Hi Hj. split; [reflexivity|].
  split; [apply orderedKey_round_trip; exact Hi|].
  rewrite (Compare_orderedKey i j Hi Hj).
  split; [|split].
  - destruct (Z.compare_spec i j); simpl; lia.
  - destruct (Z.compare_spec i j); simpl; lia.
  - intros key. unfold orderedKeyValue, Uint64.
    do 8 (destruct key as [|? key]; [simpl; split; [lia|reflexivity]|]).
    simpl. split; [discriminate|lia].
Qed.

(** ** Keys set in ascending order *)

Lemma do_calls_app (cs1 cs2 : list call) (s s1 : state) :
  do_calls cs1 s = (Done tt, s1) ->
  do_calls (cs1 ++ cs2) s = do_calls cs2 s1.
Proof.
  revert s. induction cs1 as [|c cs1 IH]; intros s Hrun.
  - simpl in Hrun. injection Hrun as <-. reflexivity.
  - change (do_calls ((c :: cs1) ++ cs2)) with (do_call c ;; do_calls (cs1 ++ cs2)).
    change (do_calls (c :: cs1)) with (do_call c ;; do_calls cs1) in Hrun.
    unfold bind in *. destruct (do_call c s) as [[[]| |] s2]; try discriminate.
    apply IH. exact Hrun.
Qed.

Lemma ascending_sets_S (f : Z -> V) (N : nat) :
  ascending_sets f (S N)
  = ascending_sets f N
    ++ [CallSet (orderedKey (Z.of_nat (S N))) (f (Z.of_nat (S N)))].
Proof. unfold ascending_sets. rewrite seq_S, fmap_app. reflexivity. Qed.

Lemma ascending_sets_spec (f : Z -> V) (s0 : state) :
  Inv s0 [] -> mutex (sl s0) = false -> maxLevel (sl s0) <= DefaultMaxLevel ->
  forall N : nat,
    Z.of_nat N < 2 ^ 64 ->
    exists s L,
      do_calls (ascending_sets f N) s0 = (Done tt, s)
      /\ Inv s L /\ mutex (sl s) = false
      /\ maxLevel (sl s) = maxLevel (sl s0)
      /\ length L = N
      /\ (forall i a, L !! i = Some a ->
            akey (heap s) a = orderedKey (Z.of_nat (S i))
            /\ avalue (heap s) a = Some (f (Z.of_nat (S i)))).
Proof.
  intros HI0 Hmx0 Hml0. induction N as [|N IH]; intros HN.
  - exists s0, []. split; [reflexivity|]. split; [exact HI0|].
    split; [exact Hmx0|]. split; [reflexivity|]. split; [reflexivity|].
    intros i a Hi. rewrite lookup_nil in Hi. discriminate.
  - destruct (IH ltac:(lia)) as (s & L & Hrun & HI & Hmx & Hml & Hlen & Hel).
    assert (Hlo : forall b, b ∈ L ->
              Compare (akey (heap s) b) (orderedKey (Z.of_nat (S N))) < 0).
    { intros b Hb. apply list_elem_of_lookup in Hb as [i Hi].
      destruct (Hel i b Hi) as [-> _].
      apply lookup_lt_Some in Hi. rewrite Hlen in Hi.
      rewrite Compare_orderedKey by lia.
      destruct (Z.compare_spec (Z.of_nat (S i)) (Z.of_nat (S N))); simpl; lia. }
    destruct (Set_miss s L L [] (orderedKey (Z.of_nat (S N))) (f (Z.of_nat (S N)))
                HI Hmx ltac:(rewrite Hml; exact Hml0) ltac:(rewrite app_nil_r; reflexivity)
                Hlo ltac:(intros b Hb; inversion Hb))
      as (s' & Hset & HI' & Hmx' & Hml' & Hka & Hva & Hoth & _).
    exists s', (L ++ [length (heap s)]).
    split.
    { rewrite ascending_sets_S, (do_calls_app _ _ s0 s Hrun).
      assert (Hc : do_call (CallSet (orderedKey (Z.of_nat (S N))) (f (Z.of_nat (S N)))) s
                   = (Done tt, s')).
      { cbn [do_call]. rewrite (bind_Done _ _ s s' _ Hset). reflexivity. }
      cbn [do_calls]. rewrite (bind_Done _ _ s s' tt Hc). reflexivity. }
    split; [exact HI'|]. split; [exact Hmx'|]. split; [congruence|].
    split; [rewrite length_app; simpl; lia|].
    intros i a Hi. destruct (decide (i < length L)%nat) as [Hlt|Hge].
    + rewrite lookup_app_l in Hi by exact Hlt.
      assert (a <> length (heap s)).
      { intros ->. apply list_elem_of_lookup_2 in Hi.
        pose proof (Inv_lt_heap s L _ HI Hi). lia. }
      destruct (Hoth a ltac:(assumption)) as (-> & -> & _). apply Hel. exact Hi.
    + rewrite lookup_app_r in Hi by lia.
      destruct (i - length L)%nat as [|?] eqn:E; [|discriminate].
      injection Hi as <-. assert (i = N) by lia. subst i. auto.
Qed.

(** X23: the loop of TestChangeLevel, for any number of keys. On
    [NewWithMaxLevel(n)] with 1 <= n <= 18, after
    [Set(orderedKey(i), f(i))] for i = 1 .. N (N below 2^63) no call has
    panicked, [checkSanity] passes, [Length] is N, and the iteration from
    [Front] yields N elements, the i-th of them with key [orderedKey(i)] and
    value [f(i)]. *)
Theorem ascending_sets_in_order (src : Source) (n : Z) (f : Z -> V) (N : nat) :
  1 <= n <= DefaultMaxLevel -> Z.of_nat N < 2 ^ 63 ->
  exists s0 s l,
    NewWithMaxLevel src n = Done s0
    /\ do_calls (ascending_sets f N) s0 = (Done tt, s)
    /\ checkSanity s = (Done Pass, s)
    /\ Length (sl s) = Z.of_nat N
    /\ iterate s = (Done l, s)
    /\ length l = N
    /\ (forall i a, l !! i = Some a ->
          Element_Key a s = (Done (orderedKey (Z.of_nat (S i))), s)
          /\ Element_Value a s = (Done (f (Z.of_nat (S i))), s)).
Proof.
  intros Hn HN.
  pose proof (NewWithMaxLevel_Done src n ltac:(unfold DefaultMaxLevel in Hn; lia)) as Hnew.
  destruct (Inv_New src n _ Hnew) as [HI0 Hmx0].
  match type of Hnew with _ = Done ?x => set (s0 := x) in * end.
  destruct (ascending_sets_spec f s0 HI0 Hmx0 ltac:(apply Hn) N ltac:(lia))
    as (s & L & Hrun & HI & Hmx & Hml & Hlen & Hel).
  exists s0, s, L. split; [exact Hnew|]. split; [exact Hrun|].
  split; [exact (checkSanity_Inv s L HI)|].
  split; [rewrite (inv_Length s L HI), Hlen; apply wrap64_small; lia|].
  split; [apply iterate_spec; exact HI|]. split; [exact Hlen|].
  intros i a Hi. destruct (Hel i a Hi) as [Hk Hv].
  split.
  - rewrite <- Hk. apply (Element_Key_akey s a 0).
    apply (Inv_allocated s L a HI). apply list_elem_of_lookup_2 in Hi. exact Hi.
  - apply Element_Value_avalue. exact Hv.
Qed.

(** ** Every call ends *)

Lemma calls_outcome (s : state) (L : list addr) (k : bytes) (v : V) :
  Inv s L -> mutex (sl s) = false ->
  (maxLevel (sl s) <= DefaultMaxLevel
   /\ (exists a s', Set_ k v s = (Done a, s'))
   /\ (exists r, Get k s = (Done r, s))
   /\ (exists r s', Remove k s = (Done r, s')))
  \/ (DefaultMaxLevel < maxLevel (sl s)
      /\ L = []
      /\ Set_ k v s = (Panic, s) /\ Get k s = (Panic, s) /\ Remove k s = (Panic, s)).
Proof.
  intros HI Hmx. destruct (Z_le_gt_dec (maxLevel (sl s)) DefaultMaxLevel) as [Hml|Hml].
  - left. split; [exact Hml|]. split; [|split].
    + destruct (lookup_key (heap s) k L) as [a|] eqn:Hfind.
      * destruct (Set_hit s L k v a HI Hmx Hml Hfind) as (c & Hrun & _). eauto.
      * destruct (lookup_key_split_miss s L k HI Hfind) as (lo & hi & HL & Hlo & Hhi).
        destruct (Set_miss s L lo hi k v HI Hmx Hml HL Hlo Hhi) as (s' & Hrun & _).
        eauto.
    + eexists. apply (Get_spec s L k HI Hmx Hml).
    + destruct (lookup_key (heap s) k L) as [a|] eqn:Hfind.
      * destruct (lookup_key_split_at s L k a HI Hfind) as (lo & hi & HL & Hlo & Hka).
        destruct (Remove_hit s L lo hi k a HI Hmx Hml HL Hlo Hka) as (s' & Hrun & _).
        eauto.
      * destruct (Remove_miss s L k HI Hmx Hml Hfind) as (c & Hrun & _). eauto.
  - right. assert (Hno : ~ maxLevel (sl s) <= DefaultMaxLevel) by lia.
    pose proof (Inv_overflow_Panic s L HI Hno) as Hlen.
    split; [lia|]. split; [apply (inv_overflow s L HI); lia|].
    split; [apply Set_Panic; assumption|].
    split; [apply Get_Panic; assumption|apply Remove_Panic; assumption].
Qed.

(** X24: a list made with a maxLevel above 18 never holds an element. In
    every state reachable from it, after any calls, [Set], [Get] and
    [Remove] panic and leave the state as it was, with the lock released;
    the iteration is empty, [Front] is nil and [Length] is 0. *)
Theorem oversized_list_always_panics (s : state) (k : bytes) (v : V) :
  reachable s -> DefaultMaxLevel < maxLevel (sl s) ->
  Set_ k v s = (Panic, s)
  /\ Get k s = (Panic, s)
  /\ Remove k s = (Panic, s)
  /\ mutex (sl s) = false
  /\ iterate s = (Done [], s)
  /\ Front s = (Done None, s)
  /\ Length (sl s) = 0.
Proof.
  intros Hr Hml. destruct (reachable_Inv s Hr) as (L & HI & Hmx).
  destruct (calls_outcome s L k v HI Hmx) as [[Hfit _]|(_ & -> & HS & HG & HR)]; [lia|].
  split; [exact HS|]. split; [exact HG|]. split; [exact HR|]. split; [exact Hmx|].
  split; [apply iterate_spec; exact HI|].
  split.
  - unfold Front, Next. rewrite NextAt_slot.
    rewrite (inv_head s [] HI 0%nat); [reflexivity|].
    rewrite (inv_sentinel s [] HI). unfold DefaultMaxLevel. lia.
  - rewrite (inv_Length s [] HI). reflexivity.
Qed.

(** X25: no call hangs. In every reachable state the lock is free, so no
    call waits for it, and every loop of [Set], [Get], [Remove] and of the
    iteration ends within as many steps as there are elements allocated:
    each call returns or panics. *)
Theorem no_call_hangs (s : state) (k : bytes) (v : V) (p : float64) :
  reachable s ->
  mutex (sl s) = false
  /\ fst (Set_ k v s) <> Diverges
  /\ fst (Get k s) <> Diverges
  /\ fst (Remove k s) <> Diverges
  /\ fst (SetProbability p s) <> Diverges
  /\ fst (iterate s) <> Diverges
  /\ fst (Front s) <> Diverges.
Proof.
  intros Hr. destruct (reachable_Inv s Hr) as (L & HI & Hmx).
  split; [exact Hmx|].
  assert (HF : fst (Front s) <> Diverges).
  { unfold Front, Next. rewrite NextAt_slot.
    destruct (slot s Sentinel 0) as [x|]; simpl; discriminate. }
  rewrite (iterate_spec s L HI).
  destruct (calls_outcome s L k v HI Hmx)
    as [(_ & (a & s1 & ->) & (r & ->) & (o & s2 & ->))|(_ & _ & -> & -> & ->)];
    repeat split; try discriminate; exact HF.
Qed.

(** ** The height draw, in full *)

Lemma randLevel_loop_least (s : state) (r : float64) :
  (Z.to_nat (maxLevel (sl s)) <= length (probTable (sl s)))%nat ->
  forall (n : nat) (level : Z),
    1 <= level <= maxLevel (sl s) ->
    maxLevel (sl s) - level <= Z.of_nat n ->
    exists l,
      randLevel_loop n r level s = (Done l, s)
      /\ level <= l <= maxLevel (sl s)
      /\ (forall j, level <= j < l ->
            exists p, probTable (sl s) !! Z.to_nat j = Some p
                      /\ PrimFloat.ltb r p = true)
      /\ (l < maxLevel (sl s) ->
            exists p, probTable (sl s) !! Z.to_nat l = Some p
                      /\ PrimFloat.ltb r p = false).
Proof.
  intros Htab. induction n as [|n IH]; intros level Hlevel Hn.
  - assert (level = maxLevel (sl s)) as -> by lia.
    exists (maxLevel (sl s)). split; [|split; [lia|split; intros; lia]].
    simpl. unfold bind at 1. unfold gets at 1.
    rewrite Z.ltb_irrefl. reflexivity.
  - simpl. unfold bind at 1. unfold gets at 1.
    destruct (Z.ltb_spec level (maxLevel (sl s))) as [Hlt|Hge].
    + unfold bind at 1. unfold gets at 1.
      destruct (lookup_lt_is_Some_2 (probTable (sl s)) (Z.to_nat level) ltac:(lia))
        as [p Hp].
      unfold bind, index. rewrite Hp. unfold ret at 1.
      destruct (PrimFloat.ltb r p) eqn:Hrp.
      * destruct (IH (level + 1) ltac:(lia) ltac:(lia)) as (l & Hrun & Hl & Hlow & Hstop).
        exists l. split; [exact Hrun|]. split; [lia|]. split; [|exact Hstop].
        intros j Hj. destruct (Z.eq_dec j level) as [->|Hne].
        -- exists p. auto.
        -- apply Hlow. lia.
      * exists level. split; [reflexivity|]. split; [lia|].
        split; [intros; lia|]. intros _. exists p. auto.
    + exists level. split; [reflexivity|]. split; [lia|]. split; intros; lia.
Qed.

(** X26: the height draw in full. On a reachable state of a list with
    maxLevel <= 18, [randLevel] takes exactly one number from the random
    source and changes nothing else; with r that number divided by 2^63,
    the level returned is the first level h >= 1 that is [maxLevel] or has
    [r < probTable[h]] false: r is below the table entry of every level
    from 1 to h - 1. *)
Theorem randLevel_first_level_not_below (s : state) :
  reachable s -> maxLevel (sl s) <= DefaultMaxLevel ->
  exists h,
    randLevel s
    = (Done h, with_sl s (sl_with_randSource (sl s) (snd (Int63 (randSource (sl s))))))
    /\ 1 <= h <= maxLevel (sl s)
    /\ (forall j, 1 <= j < h ->
          exists p, probTable (sl s) !! Z.to_nat j = Some p
                    /\ PrimFloat.ltb
                         (PrimFloat.div
                            (float64_of_int (fst (Int63 (randSource (sl s))))) two63)
                         p = true)
    /\ (h < maxLevel (sl s) ->
          exists p, probTable (sl s) !! Z.to_nat h = Some p
                    /\ PrimFloat.ltb
                         (PrimFloat.div
                            (float64_of_int (fst (Int63 (randSource (sl s))))) two63)
                         p = false).
Proof.
  intros Hr Hml. destruct (reachable_Inv s Hr) as (L & HI & _).
  pose proof (inv_maxLevel s L HI) as Hrange.
  pose proof (inv_probTable s L HI) as Htab.
  rewrite Z.min_l in Htab by assumption.
  set (src := snd (Int63 (randSource (sl s)))).
  set (s1 := with_sl s (sl_with_randSource (sl s) src)).
  destruct (randLevel_loop_least s1
              (PrimFloat.div (float64_of_int (fst (Int63 (randSource (sl s))))) two63)
              ltac:(simpl; lia) (Z.to_nat (maxLevel (sl s))) 1
              ltac:(simpl; lia) ltac:(simpl; lia))
    as (l & Hrun & Hl & Hlow & Hstop).
  exists l. split; [|split; [exact Hl|split; [exact Hlow|exact Hstop]]].
  unfold randLevel. unfold bind at 1. unfold gets at 1. simpl.
  unfold bind at 1. unfold modify at 1.
  unfold bind at 1. unfold levels, gets at 1.
  exact Hrun.
Qed.

End SkipList.

(** * Concrete lists *)

(** Some source of numbers, and a stand-in for [math.Pow]. *)
Definition example_source : Source :=
  mkSource (fun n => Z.of_nat n * 1234567890123456789 + 17) 0.

Definition example_Pow (x y : float64) : float64 := PrimFloat.mul x y.

(** [NewWithMaxLevel(4)]. *)
Definition example_empty : state nat :=
  mkState nat []
    (mkSkipList (mkNode None (replicate 18 None)) 4 0 example_source
       DefaultProbability
       (probabilityTable example_Pow DefaultProbability DefaultMaxLevel)
       false (replicate 18 None)).

(** [Set("\x01", 10); Set("\x03", 30); Set("\x02", 20)] on it. *)
Definition example_list : state nat :=
  snd (Set_ nat [x02] 20%nat
    (snd (Set_ nat [x03] 30%nat
      (snd (Set_ nat [x01] 10%nat example_empty))))).

Lemma example_empty_New :
  NewWithMaxLevel nat example_Pow example_source 4 = Done example_empty.
Proof. reflexivity. Qed.

Lemma example_list_reachable : reachable nat example_Pow example_list.
Proof.
  unfold example_list. do 3 apply reach_Set.
  apply (reach_New nat example_Pow example_source 4). reflexivity.
Qed.

Lemma example_list_iterate :
  iterate nat example_list = (Done [0; 2; 1]%nat, example_list).
Proof. vm_compute. reflexivity. Qed.

Lemma NewWithMaxLevel_sizes_witness :
  1 <= 4 <= 64 /\
  exists s,
    NewWithMaxLevel nat example_Pow example_source 4 = Done s
    /\ maxLevel (sl nat s) = 4
    /\ length (next (sentinel (sl nat s))) = 18%nat
    /\ length (prevNodesCache (sl nat s)) = 18%nat
    /\ length (probTable (sl nat s)) = 18%nat
    /\ (forall i, (i < 18)%nat ->
          probTable (sl nat s) !! i
          = Some (example_Pow (probability (sl nat s)) (float64_of_int (Z.of_nat i)))).
Proof.
  split; [lia|]. apply (NewWithMaxLevel_sizes nat example_Pow example_source 4). lia.
Defined.

Lemma Set_panics_above_DefaultMaxLevel_witness :
  DefaultMaxLevel < 19 <= 64 /\
  exists s,
    NewWithMaxLevel nat example_Pow example_source 19 = Done s
    /\ Set_ nat [x01] 10%nat s = (Panic, s).
Proof.
  split; [unfold DefaultMaxLevel; lia|].
  apply (Set_panics_above_DefaultMaxLevel nat example_Pow example_source 19).
  unfold DefaultMaxLevel. lia.
Defined.

Lemma Get_panics_above_DefaultMaxLevel_witness :
  DefaultMaxLevel < 19 <= 64 /\
  exists s,
    NewWithMaxLevel nat example_Pow example_source 19 = Done s
    /\ Get nat [x01] s = (Panic, s).
Proof.
  split; [unfold DefaultMaxLevel; lia|].
  apply (Get_panics_above_DefaultMaxLevel nat example_Pow example_source 19).
  unfold DefaultMaxLevel. lia.
Defined.

Lemma Set_then_Get_panics_above_DefaultMaxLevel_witness :
  DefaultMaxLevel < 64 <= 64 /\
  exists s,
    NewWithMaxLevel nat example_Pow example_source 64 = Done s
    /\ fst (Set_ nat [x01] 10%nat s) = Panic
    /\ fst (Get nat [x01] (snd (Set_ nat [x01] 10%nat s))) = Panic.
Proof.
  split; [unfold DefaultMaxLevel; lia|].
  apply (Set_then_Get_panics_above_DefaultMaxLevel nat example_Pow example_source 64).
  unfold DefaultMaxLevel. lia.
Defined.

Lemma Remove_panics_above_DefaultMaxLevel_witness :
  DefaultMaxLevel < 19 <= 64 /\
  exists s,
    NewWithMaxLevel nat example_Pow example_source 19 = Done s
    /\ Remove nat [x01] s = (Panic, s).
Proof.
  split; [unfold DefaultMaxLevel; lia|].
  apply (Remove_panics_above_DefaultMaxLevel nat example_Pow example_source 19).
  unfold DefaultMaxLevel. lia.
Defined.

Lemma level0_strictly_ascending_witness :
  reachable nat example_Pow example_list /\
  exists l,
    iterate nat example_list = (Done l, example_list)
    /\ StronglySorted (key_lt nat (heap nat example_list)) l
    /\ NoDup (akey nat (heap nat example_list) <$> l).
Proof.
  split; [exact example_list_reachable|].
  apply (level0_strictly_ascending nat example_Pow example_list).
  exact example_list_reachable.
Defined.

Lemma Length_counts_level0_witness :
  reachable nat example_Pow example_list /\
  exists l,
    iterate nat example_list = (Done l, example_list)
    /\ Length (sl nat example_list) = wrap64 (Z.of_nat (length l))
    /\ (Z.of_nat (length (heap nat example_list)) < 2 ^ 63 ->
        Length (sl nat example_list) = Z.of_nat (length l)).
Proof.
  split; [exact example_list_reachable|].
  apply (Length_counts_level0 nat example_Pow example_list).
  exact example_list_reachable.
Defined.

Lemma levels_consistent_witness :
  reachable nat example_Pow example_list /\
  (1 <= 1 < length (next (sentinel (sl nat example_list))))%nat /\
  exists l0 below here,
    iterate nat example_list = (Done l0, example_list)
    /\ chain nat (1 - 1) example_list = (Done below, example_list)
    /\ chain nat 1 example_list = (Done here, example_list)
    /\ here = filter (fun a => (1 < height nat (heap nat example_list) a)%nat) below
    /\ sublist here below
    /\ StronglySorted (key_lt nat (heap nat example_list)) here
    /\ (forall a, a ∈ here <->
                  a ∈ l0 /\ (1 < height nat (heap nat example_list) a)%nat).
Proof.
  split; [exact example_list_reachable|].
  assert (H : (1 <= 1 < length (next (sentinel (sl nat example_list))))%nat)
    by (vm_compute; lia).
  split; [exact H|].
  apply (levels_consistent nat example_Pow example_list 1 example_list_reachable H).
Defined.

Lemma Get_leaves_state_unchanged_witness :
  reachable nat example_Pow example_list /\
  snd (Get nat [x03] example_list) = example_list.
Proof.
  split; [exact example_list_reachable|].
  apply (Get_leaves_state_unchanged nat example_Pow example_list [x03]).
  exact example_list_reachable.
Defined.

Lemma Set_present_updates_in_place_witness :
  reachable nat example_Pow example_list /\
  iterate nat example_list = (Done [0; 2; 1]%nat, example_list) /\
  1%nat ∈ [0; 2; 1]%nat /\
  akey nat (heap nat example_list) 1 = [x03] /\
  exists s',
    Set_ nat [x03] 33%nat example_list = (Done 1%nat, s')
    /\ heap nat s' = alter (fun e => with_value nat e 33%nat) 1%nat (heap nat example_list)
    /\ avalue nat (heap nat s') 1 = Some 33%nat
    /\ (forall b, akey nat (heap nat s') b = akey nat (heap nat example_list) b
                  /\ height nat (heap nat s') b = height nat (heap nat example_list) b)
    /\ (forall n i, slot nat s' n i = slot nat example_list n i)
    /\ sentinel (sl nat s') = sentinel (sl nat example_list)
    /\ Length (sl nat s') = Length (sl nat example_list)
    /\ iterate nat s' = (Done [0; 2; 1]%nat, s')
    /\ (forall i, (i < length (next (sentinel (sl nat example_list))))%nat ->
          exists li, chain nat i example_list = (Done li, example_list)
                     /\ chain nat i s' = (Done li, s'))
    /\ (forall b, b ∈ [0; 2; 1]%nat -> akey nat (heap nat s') b = [x03] -> b = 1%nat).
Proof.
  assert (Hin : 1%nat ∈ [0; 2; 1]%nat) by (apply list_elem_of_In; simpl; auto).
  assert (Hk : akey nat (heap nat example_list) 1 = [x03]) by reflexivity.
  split; [exact example_list_reachable|].
  split; [exact example_list_iterate|].
  split; [exact Hin|]. split; [exact Hk|].
  apply (Set_present_updates_in_place nat example_Pow example_list [x03] 33%nat
           [0; 2; 1]%nat 1%nat example_list_reachable example_list_iterate Hin Hk).
Defined.

Lemma example_list_fits : maxLevel (sl nat example_list) <= DefaultMaxLevel.
Proof. vm_compute. discriminate. Qed.

Lemma randLevel_in_range_witness :
  reachable nat example_Pow example_list /\
  maxLevel (sl nat example_list) <= DefaultMaxLevel /\
  exists h s',
    randLevel nat example_list = (Done h, s')
    /\ 1 <= h <= maxLevel (sl nat example_list).
Proof.
  split; [exact example_list_reachable|]. split; [exact example_list_fits|].
  apply (randLevel_in_range nat example_Pow example_list
           example_list_reachable example_list_fits).
Defined.

Lemma Set_completes_witness :
  reachable nat example_Pow example_list /\
  maxLevel (sl nat example_list) <= DefaultMaxLevel /\
  exists a s',
    Set_ nat [x04] 40%nat example_list = (Done a, s')
    /\ akey nat (heap nat s') a = [x04]
    /\ avalue nat (heap nat s') a = Some 40%nat
    /\ (1 <= height nat (heap nat s') a)%nat
    /\ Z.of_nat (height nat (heap nat s') a) <= maxLevel (sl nat example_list).
Proof.
  split; [exact example_list_reachable|]. split; [exact example_list_fits|].
  apply (Set_completes nat example_Pow example_list [x04] 40%nat
           example_list_reachable example_list_fits).
Defined.

Lemma Get_finds_exact_key_witness :
  reachable nat example_Pow example_list /\
  maxLevel (sl nat example_list) <= DefaultMaxLevel /\
  iterate nat example_list = (Done [0; 2; 1]%nat, example_list) /\
  exists r,
    Get nat [x02] example_list = (Done r, example_list)
    /\ (forall a, r = Some a <->
                  a ∈ [0; 2; 1]%nat /\ akey nat (heap nat example_list) a = [x02]).
Proof.
  split; [exact example_list_reachable|]. split; [exact example_list_fits|].
  split; [exact example_list_iterate|].
  apply (Get_finds_exact_key nat example_Pow example_list [x02] [0; 2; 1]%nat
           example_list_reachable example_list_fits example_list_iterate).
Defined.

Lemma Set_then_Get_witness :
  reachable nat example_Pow example_list /\
  maxLevel (sl nat example_list) <= DefaultMaxLevel /\
  exists a s',
    Set_ nat [x04] 40%nat example_list = (Done a, s')
    /\ Get nat [x04] s' = (Done (Some a), s')
    /\ avalue nat (heap nat s') a = Some 40%nat.
Proof.
  split; [exact example_list_reachable|]. split; [exact example_list_fits|].
  apply (Set_then_Get nat example_Pow example_list [x04] 40%nat
           example_list_reachable example_list_fits).
Defined.

Lemma Remove_then_Get_witness :
  reachable nat example_Pow example_list /\
  maxLevel (sl nat example_list) <= DefaultMaxLevel /\
  exists r s',
    Remove nat [x02] example_list = (Done r, s')
    /\ Get nat [x02] s' = (Done None, s').
Proof.
  split; [exact example_list_reachable|]. split; [exact example_list_fits|].
  apply (Remove_then_Get nat example_Pow example_list [x02]
           example_list_reachable example_list_fits).
Defined.

Lemma Remove_present_witness :
  reachable nat example_Pow example_list /\
  iterate nat example_list = (Done [0; 2; 1]%nat, example_list) /\
  2%nat ∈ [0; 2; 1]%nat /\
  akey nat (heap nat example_list) 2 = [x02] /\
  exists s' lo hi,
    [0; 2; 1]%nat = lo ++ 2%nat :: hi
    /\ Remove nat [x02] example_list = (Done (Some 2%nat), s')
    /\ iterate nat s' = (Done (lo ++ hi), s')
    /\ (forall i, (i < length (next (sentinel (sl nat example_list))))%nat ->
          chain nat i s' = (Done (level_of nat (heap nat example_list) i (lo ++ hi)), s'))
    /\ Length (sl nat s') = wrap64 (Length (sl nat example_list) - 1).
Proof.
  assert (Hin : 2%nat ∈ [0; 2; 1]%nat) by (apply list_elem_of_In; simpl; auto).
  assert (Hk : akey nat (heap nat example_list) 2 = [x02]) by reflexivity.
  split; [exact example_list_reachable|]. split; [exact example_list_iterate|].
  split; [exact Hin|]. split; [exact Hk|].
  apply (Remove_present nat example_Pow example_list [x02] [0; 2; 1]%nat 2%nat
           example_list_reachable example_list_iterate Hin Hk).
Defined.

Lemma example_list_without_9 :
  forall a, a ∈ [0; 2; 1]%nat -> akey nat (heap nat example_list) a <> [x09].
Proof.
  intros a Ha. apply list_elem_of_In in Ha. simpl in Ha.
  destruct Ha as [<-|[<-|[<-|[]]]]; vm_compute; discriminate.
Qed.

Lemma Remove_absent_witness :
  reachable nat example_Pow example_list /\
  maxLevel (sl nat example_list) <= DefaultMaxLevel /\
  iterate nat example_list = (Done [0; 2; 1]%nat, example_list) /\
  (forall a, a ∈ [0; 2; 1]%nat -> akey nat (heap nat example_list) a <> [x09]) /\
  exists c,
    Remove nat [x09] example_list
    = (Done None, with_sl nat example_list (sl_with_prevs (sl nat example_list) c)).
Proof.
  split; [exact example_list_reachable|]. split; [exact example_list_fits|].
  split; [exact example_list_iterate|]. split; [exact example_list_without_9|].
  apply (Remove_absent nat example_Pow example_list [x09] [0; 2; 1]%nat
           example_list_reachable example_list_fits example_list_iterate
           example_list_without_9).
Defined.




(** * Further concrete instances *)

(** [NewWithMaxLevel(19)]. *)
Definition example_oversized : state nat :=
  mkState nat []
    (mkSkipList (mkNode None (replicate 18 None)) 19 0 example_source
       DefaultProbability
       (probabilityTable example_Pow DefaultProbability DefaultMaxLevel)
       false (replicate 18 None)).

Lemma example_oversized_reachable : reachable nat example_Pow example_oversized.
Proof. apply (reach_New nat example_Pow example_source 19). reflexivity. Qed.

Lemma example_list_Get_3 :
  Get nat [x03] example_list = (Done (Some 1%nat), example_list).
Proof. vm_compute. reflexivity. Qed.

Lemma Get_returns_exact_key_witness :
  Get nat [x03] example_list = (Done (Some 1%nat), example_list) /\
  example_list = example_list /\
  Element_Key nat 1 example_list = (Done [x03], example_list).
Proof.
  split; [exact example_list_Get_3|].
  apply (Get_returns_exact_key nat example_list example_list [x03] 1%nat
           example_list_Get_3).
Defined.

Lemma Set_leaves_other_keys_witness :
  reachable nat example_Pow example_list /\
  maxLevel (sl nat example_list) <= DefaultMaxLevel /\
  [x03] <> [x04] /\
  exists a s' r,
    Set_ nat [x04] 40%nat example_list = (Done a, s')
    /\ Get nat [x03] example_list = (Done r, example_list)
    /\ Get nat [x03] s' = (Done r, s')
    /\ (forall b, r = Some b ->
          avalue nat (heap nat s') b = avalue nat (heap nat example_list) b).
Proof.
  assert (Hne : [x03] <> [x04]) by discriminate.
  split; [exact example_list_reachable|]. split; [exact example_list_fits|].
  split; [exact Hne|].
  apply (Set_leaves_other_keys nat example_Pow example_list [x04] [x03] 40%nat
           example_list_reachable example_list_fits Hne).
Defined.

Lemma Remove_leaves_other_keys_witness :
  reachable nat example_Pow example_list /\
  maxLevel (sl nat example_list) <= DefaultMaxLevel /\
  [x03] <> [x02] /\
  exists o s' r,
    Remove nat [x02] example_list = (Done o, s')
    /\ Get nat [x03] example_list = (Done r, example_list)
    /\ Get nat [x03] s' = (Done r, s')
    /\ (forall b, r = Some b ->
          avalue nat (heap nat s') b = avalue nat (heap nat example_list) b).
Proof.
  assert (Hne : [x03] <> [x02]) by discriminate.
  split; [exact example_list_reachable|]. split; [exact example_list_fits|].
  split; [exact Hne|].
  apply (Remove_leaves_other_keys nat example_Pow example_list [x02] [x03]
           example_list_reachable example_list_fits Hne).
Defined.

Lemma Set_absent_inserts_witness :
  reachable nat example_Pow example_list /\
  maxLevel (sl nat example_list) <= DefaultMaxLevel /\
  iterate nat example_list = (Done [0; 2; 1]%nat, example_list) /\
  (forall b, b ∈ [0; 2; 1]%nat -> akey nat (heap nat example_list) b <> [x09]) /\
  exists a s' lo hi,
    [0; 2; 1]%nat = lo ++ hi
    /\ Set_ nat [x09] 90%nat example_list = (Done a, s')
    /\ a = length (heap nat example_list)
    /\ a ∉ [0; 2; 1]%nat
    /\ iterate nat s' = (Done (lo ++ a :: hi), s')
    /\ (forall b, b ∈ lo -> Compare (akey nat (heap nat example_list) b) [x09] < 0)
    /\ (forall b, b ∈ hi -> Compare [x09] (akey nat (heap nat example_list) b) < 0)
    /\ Element_Key nat a s' = (Done [x09], s')
    /\ Element_Value nat a s' = (Done 90%nat, s')
    /\ Length (sl nat s') = wrap64 (Length (sl nat example_list) + 1)
    /\ (forall b, b <> a ->
          akey nat (heap nat s') b = akey nat (heap nat example_list) b /\
          avalue nat (heap nat s') b = avalue nat (heap nat example_list) b /\
          height nat (heap nat s') b = height nat (heap nat example_list) b).
Proof.
  split; [exact example_list_reachable|]. split; [exact example_list_fits|].
  split; [exact example_list_iterate|]. split; [exact example_list_without_9|].
  apply (Set_absent_inserts nat example_Pow example_list [x09] 90%nat [0; 2; 1]%nat
           example_list_reachable example_list_fits example_list_iterate
           example_list_without_9).
Defined.

Lemma Remove_leaves_element_intact_witness :
  reachable nat example_Pow example_list /\
  iterate nat example_list = (Done [0; 2; 1]%nat, example_list) /\
  2%nat ∈ [0; 2; 1]%nat /\
  akey nat (heap nat example_list) 2 = [x02] /\
  exists s' l' c,
    Remove nat [x02] example_list = (Done (Some 2%nat), s')
    /\ iterate nat s' = (Done l', s')
    /\ 2%nat ∉ l'
    /\ Element_Key nat 2 s' = (Done [x02], s')
    /\ avalue nat (heap nat s') 2 = avalue nat (heap nat example_list) 2
    /\ (forall i, slot nat s' (ElemNode 2) i = slot nat example_list (ElemNode 2) i)
    /\ Element_Next nat 2 example_list = (Done c, example_list)
    /\ Element_Next nat 2 s' = (Done c, s')
    /\ (forall c', c = Some c' -> c' ∈ l').
Proof.
  assert (Hin : 2%nat ∈ [0; 2; 1]%nat) by (apply list_elem_of_In; simpl; auto).
  assert (Hk : akey nat (heap nat example_list) 2 = [x02]) by reflexivity.
  split; [exact example_list_reachable|]. split; [exact example_list_iterate|].
  split; [exact Hin|]. split; [exact Hk|].
  apply (Remove_leaves_element_intact nat example_Pow example_list [x02]
           [0; 2; 1]%nat 2%nat example_list_reachable example_list_iterate Hin Hk).
Defined.

Lemma Front_is_least_witness :
  reachable nat example_Pow example_list /\
  exists l,
    iterate nat example_list = (Done l, example_list)
    /\ Front nat example_list = (Done (head l), example_list)
    /\ (forall a b, head l = Some a -> b ∈ l -> b <> a ->
          Compare (akey nat (heap nat example_list) a)
                  (akey nat (heap nat example_list) b) < 0).
Proof.
  split; [exact example_list_reachable|].
  apply (Front_is_least nat example_Pow example_list example_list_reachable).
Defined.

Lemma Next_is_least_greater_witness :
  reachable nat example_Pow example_list /\
  iterate nat example_list = (Done [0; 2; 1]%nat, example_list) /\
  0%nat ∈ [0; 2; 1]%nat /\
  exists r,
    Element_Next nat 0 example_list = (Done r, example_list)
    /\ match r with
       | Some c =>
           c ∈ [0; 2; 1]%nat
           /\ Compare (akey nat (heap nat example_list) 0)
                      (akey nat (heap nat example_list) c) < 0
           /\ (forall b, b ∈ [0; 2; 1]%nat ->
                 Compare (akey nat (heap nat example_list) 0)
                         (akey nat (heap nat example_list) b) < 0 ->
                 Compare (akey nat (heap nat example_list) c)
                         (akey nat (heap nat example_list) b) <= 0)
       | None =>
           forall b, b ∈ [0; 2; 1]%nat ->
             Compare (akey nat (heap nat example_list) b)
                     (akey nat (heap nat example_list) 0) <= 0
       end.
Proof.
  assert (Hin : 0%nat ∈ [0; 2; 1]%nat) by (apply list_elem_of_In; simpl; auto).
  split; [exact example_list_reachable|]. split; [exact example_list_iterate|].
  split; [exact Hin|].
  apply (Next_is_least_greater nat example_Pow example_list [0; 2; 1]%nat 0%nat
           example_list_reachable example_list_iterate Hin).
Defined.

Lemma SetProbability_changes_only_the_table_witness :
  reachable nat example_Pow example_list /\
  exists s',
    SetProbability nat example_Pow DefaultProbability example_list = (Done tt, s')
    /\ probability (sl nat s') = DefaultProbability
    /\ length (probTable (sl nat s')) = Z.to_nat (maxLevel (sl nat example_list))
    /\ (forall i, (i < Z.to_nat (maxLevel (sl nat example_list)))%nat ->
          probTable (sl nat s') !! i
          = Some (example_Pow DefaultProbability (float64_of_int (Z.of_nat i))))
    /\ heap nat s' = heap nat example_list
    /\ sentinel (sl nat s') = sentinel (sl nat example_list)
    /\ maxLevel (sl nat s') = maxLevel (sl nat example_list)
    /\ Length (sl nat s') = Length (sl nat example_list)
    /\ randSource (sl nat s') = randSource (sl nat example_list)
    /\ mutex (sl nat s') = mutex (sl nat example_list)
    /\ prevNodesCache (sl nat s') = prevNodesCache (sl nat example_list)
    /\ fst (iterate nat s') = fst (iterate nat example_list)
    /\ (forall k, fst (Get nat k s') = fst (Get nat k example_list)).
Proof.
  split; [exact example_list_reachable|].
  apply (SetProbability_changes_only_the_table nat example_Pow example_list
           DefaultProbability example_list_reachable).
Defined.

Lemma NewWithMaxLevel_is_empty_witness :
  1 <= 4 <= DefaultMaxLevel /\
  exists s,
    NewWithMaxLevel nat example_Pow example_source 4 = Done s
    /\ (4 = DefaultMaxLevel -> New nat example_Pow example_source = Done s)
    /\ Length (sl nat s) = 0
    /\ Front nat s = (Done None, s)
    /\ iterate nat s = (Done [], s)
    /\ (forall k, Get nat k s = (Done None, s))
    /\ (forall k, exists c,
          Remove nat k s = (Done None, with_sl nat s (sl_with_prevs (sl nat s) c))).
Proof.
  assert (H : 1 <= 4 <= DefaultMaxLevel) by (unfold DefaultMaxLevel; lia).
  split; [exact H|].
  apply (NewWithMaxLevel_is_empty nat example_Pow example_source 4 H).
Defined.

Lemma getPrevElementNodes_finds_predecessors_witness :
  reachable nat example_Pow example_list /\
  maxLevel (sl nat example_list) <= DefaultMaxLevel /\
  exists prevs,
    getPrevElementNodes nat [x02] example_list
    = (Done prevs, with_sl nat example_list (sl_with_prevs (sl nat example_list) prevs))
    /\ length prevs = length (prevNodesCache (sl nat example_list))
    /\ forall i, (i < Z.to_nat (maxLevel (sl nat example_list)))%nat ->
         exists n nx,
           prevs !! i = Some (Some n)
           /\ match n with
              | Sentinel => True
              | ElemNode b =>
                  (i < height nat (heap nat example_list) b)%nat
                  /\ Compare (akey nat (heap nat example_list) b) [x02] < 0
              end
           /\ NextAt nat n i example_list = (Done nx, example_list)
           /\ match nx with
              | None => True
              | Some c => Compare [x02] (akey nat (heap nat example_list) c) <= 0
              end.
Proof.
  split; [exact example_list_reachable|]. split; [exact example_list_fits|].
  apply (getPrevElementNodes_finds_predecessors nat example_Pow example_list [x02]
           example_list_reachable example_list_fits).
Defined.

Lemma checkSanity_passes_witness :
  reachable nat example_Pow example_list /\
  checkSanity nat example_list = (Done Pass, example_list).
Proof.
  split; [exact example_list_reachable|].
  apply (checkSanity_passes nat example_Pow example_list example_list_reachable).
Defined.

(** [Set("\x01", 10); Remove("\x01"); Set("\x02", 20); Get("\x02")]. *)
Definition example_calls : list (call nat) :=
  [CallSet nat [x01] 10%nat; CallRemove nat [x01]; CallSet nat [x02] 20%nat;
   CallGet nat [x02]].

Lemma calls_act_as_a_map_witness :
  1 <= 4 <= DefaultMaxLevel /\
  exists s0 s l,
    NewWithMaxLevel nat example_Pow example_source 4 = Done s0
    /\ do_calls nat example_Pow example_calls s0 = (Done tt, s)
    /\ (forall k, read nat k s
                  = (Done (map_calls nat example_calls (fun _ => None) k), s))
    /\ iterate nat s = (Done l, s)
    /\ (forall k, k ∈ (akey nat (heap nat s) <$> l)
                  <-> is_Some (map_calls nat example_calls (fun _ => None) k)).
Proof.
  assert (H : 1 <= 4 <= DefaultMaxLevel) by (unfold DefaultMaxLevel; lia).
  split; [exact H|].
  apply (calls_act_as_a_map nat example_Pow example_source 4 example_calls H).
Defined.

Lemma orderedKey_keeps_order_witness :
  0 <= 1 < 2 ^ 64 /\ 0 <= 258 < 2 ^ 64 /\
  length (orderedKey 1) = 8%nat
  /\ orderedKeyValue (orderedKey 1) = Some 1
  /\ (Compare (orderedKey 1) (orderedKey 258) < 0 <-> 1 < 258)
  /\ (Compare (orderedKey 1) (orderedKey 258) = 0 <-> 1 = 258)
  /\ (forall key, orderedKeyValue key = None <-> (length key < 8)%nat).
Proof.
  assert (H1 : 0 <= 1 < 2 ^ 64) by lia.
  assert (H2 : 0 <= 258 < 2 ^ 64) by lia.
  split; [exact H1|]. split; [exact H2|].
  apply (orderedKey_keeps_order 1 258 H1 H2).
Defined.

Lemma ascending_sets_in_order_witness :
  1 <= 4 <= DefaultMaxLevel /\ Z.of_nat 201 < 2 ^ 63 /\
  exists s0 s l,
    NewWithMaxLevel Z example_Pow example_source 4 = Done s0
    /\ do_calls Z example_Pow (ascending_sets Z (fun i => i * 10) 201) s0 = (Done tt, s)
    /\ checkSanity Z s = (Done Pass, s)
    /\ Length (sl Z s) = Z.of_nat 201
    /\ iterate Z s = (Done l, s)
    /\ length l = 201%nat
    /\ (forall i a, l !! i = Some a ->
          Element_Key Z a s = (Done (orderedKey (Z.of_nat (S i))), s)
          /\ Element_Value Z a s = (Done (Z.of_nat (S i) * 10), s)).
Proof.
  assert (H : 1 <= 4 <= DefaultMaxLevel) by (unfold DefaultMaxLevel; lia).
  assert (HN : Z.of_nat 201 < 2 ^ 63) by lia.
  split; [exact H|]. split; [exact HN|].
  apply (ascending_sets_in_order Z example_Pow example_source 4 (fun i => i * 10)
           201%nat H HN).
Defined.

Lemma example_oversized_maxLevel : DefaultMaxLevel < maxLevel (sl nat example_oversized).
Proof. unfold DefaultMaxLevel. simpl. lia. Qed.

Lemma oversized_list_always_panics_witness :
  reachable nat example_Pow example_oversized /\
  DefaultMaxLevel < maxLevel (sl nat example_oversized) /\
  Set_ nat [x01] 10%nat example_oversized = (Panic, example_oversized)
  /\ Get nat [x01] example_oversized = (Panic, example_oversized)
  /\ Remove nat [x01] example_oversized = (Panic, example_oversized)
  /\ mutex (sl nat example_oversized) = false
  /\ iterate nat example_oversized = (Done [], example_oversized)
  /\ Front nat example_oversized = (Done None, example_oversized)
  /\ Length (sl nat example_oversized) = 0.
Proof.
  split; [exact example_oversized_reachable|].
  split; [exact example_oversized_maxLevel|].
  apply (oversized_list_always_panics nat example_Pow example_oversized [x01] 10%nat
           example_oversized_reachable example_oversized_maxLevel).
Defined.

Lemma no_call_hangs_witness :
  reachable nat example_Pow example_list /\
  mutex (sl nat example_list) = false
  /\ fst (Set_ nat [x04] 40%nat example_list) <> Diverges
  /\ fst (Get nat [x04] example_list) <> Diverges
  /\ fst (Remove nat [x04] example_list) <> Diverges
  /\ fst (SetProbability nat example_Pow DefaultProbability example_list) <> Diverges
  /\ fst (iterate nat example_list) <> Diverges
  /\ fst (Front nat example_list) <> Diverges.
Proof.
  split; [exact example_list_reachable|].
  apply (no_call_hangs nat example_Pow example_list [x04] 40%nat DefaultProbability
           example_list_reachable).
Defined.

Lemma randLevel_first_level_not_below_witness :
  reachable nat example_Pow example_list /\
  maxLevel (sl nat example_list) <= DefaultMaxLevel /\
  exists h,
    randLevel nat example_list
    = (Done h, with_sl nat example_list
                 (sl_with_randSource (sl nat example_list)
                    (snd (Int63 (randSource (sl nat example_list))))))
    /\ 1 <= h <= maxLevel (sl nat example_list)
    /\ (forall j, 1 <= j < h ->
          exists p, probTable (sl nat example_list) !! Z.to_nat j = Some p
                    /\ PrimFloat.ltb
                         (PrimFloat.div
                            (float64_of_int
                               (fst (Int63 (randSource (sl nat example_list))))) two63)
                         p = true)
    /\ (h < maxLevel (sl nat example_list) ->
          exists p, probTable (sl nat example_list) !! Z.to_nat h = Some p
                    /\ PrimFloat.ltb
                         (PrimFloat.div
                            (float64_of_int
                               (fst (Int63 (randSource (sl nat example_list))))) two63)
                         p = false).
Proof.
  split; [exact example_list_reachable|]. split; [exact example_list_fits|].
  apply (randLevel_first_level_not_below nat example_Pow example_list
           example_list_reachable example_list_fits).
Defined.
